(** * The just-read feed refresh job

    A shallow embedding of [packages/api/src/jobs/update_just_read_feed.ts]:
    the candidate selector, the ranker, the mixer and the Redis-backed feed
    store, followed by the properties stated for them.

    Conventions of the embedding.
    - A JS [number] holding a count, a timestamp or a score is an integer
      ([Z]).  The ranker's comparator only looks at the sign of a difference
      of two scores, so an order-preserving integer scale of the scores
      behaves like the scores themselves.
    - An optional or nullable string is an [option string]; [===] on two such
      values is equality of options (two absent values are equal).
    - A call that may throw returns an [Outcome]; the job runs in a small
      state-and-exception monad over the [World] (the Redis store, the number
      of clock readings taken, the requests sent to the scoring service).
    - The pipeline of an append is not a transaction: when the store rejects
      it, the commands that ran before stay applied.
    - Logging is not modelled. *)

From stdpp Require Import base option list sorting strings gmap pretty.
From Stdlib Require Import ZArith Lia OrderedTypeEx.

Local Open Scope Z_scope.

(** ** JavaScript built-ins used by the job *)

Module JS.

(** Truthiness of an optional string: [undefined], [null] and the empty
    string are falsy. *)
Definition truthy (o : option string) : bool :=
  match o with
  | Some s => negb (bool_decide (s = ""))
  | None => false
  end.

(** [o || undefined] *)
Definition or_undefined (o : option string) : option string :=
  if truthy o then o else None.

(** [o || d] *)
Definition or_default (o : option string) (d : string) : string :=
  match o with
  | Some s => if bool_decide (s = "") then d else s
  | None => d
  end.

(** [l.slice(0, n)]: a negative [n] counts from the end. *)
Definition slice0 {A} (n : Z) (l : list A) : list A :=
  if 0 <=? n then take (Z.to_nat n) l
  else take (length l - Z.to_nat (- n))%nat l.

(** [l.slice(n)] for a non-negative literal [n]. *)
Definition slice_from {A} (n : nat) (l : list A) : list A := drop n l.

(** [Array.prototype.sort(cmp)]: the sort is stable (ECMAScript 2019), and
    [cmp a b <= 0] keeps [a] before [b].  Any stable sort yields the same
    array for a consistent comparator; insertion from the right is the
    simplest one. *)
Fixpoint sort_insert {A} (cmp : A → A → Z) (x : A) (l : list A) : list A :=
  match l with
  | [] => [x]
  | y :: l' => if cmp x y <=? 0 then x :: y :: l' else y :: sort_insert cmp x l'
  end.

Definition sort {A} (cmp : A → A → Z) (l : list A) : list A :=
  foldr (sort_insert cmp) [] l.

(** [Math.floor(n / d)] for a length [n] and a positive literal [d]. *)
Definition floor_div (n d : nat) : nat := (n / d)%nat.

End JS.

(** ** Data model *)

(** A call either returns or throws. *)
Inductive Outcome (A : Type) : Type :=
| Returned (a : A)
| Threw (msg : string).
Arguments Returned {A} a.
Arguments Threw {A} msg.

Definition Date := Z.

Record User := { user_id : string }.

(** [Subscription] entity, the fields the job reads. *)
Record Subscription := {
  sub_name : string;
  sub_url : option string;
  sub_type : string;
}.

(** [Candidate.subscription] *)
Record SubscriptionRef := {
  ref_name : string;
  ref_type : string;
}.

(** [LibraryItem] entity, the fields the job reads. *)
Record LibraryItem := {
  li_id : string;
  li_title : string;
  li_originalUrl : string;
  li_thumbnail : option string;
  li_description : option string;
  li_itemLanguage : option string;
  li_author : option string;
  li_directionality : option string;
  li_createdAt : Date;
  li_topic : option string;
  li_wordCount : Z;
  li_siteName : option string;
  li_siteIcon : option string;
  li_folder : string;
  li_score : option Z;
  li_publishedAt : option Date;
  li_subscription : option string;
}.

Record PublicItemSource := {
  src_name : string;
  src_type : string;
}.

(** [PublicItem] entity, the fields the job reads. *)
Record PublicItem := {
  pi_id : string;
  pi_title : string;
  pi_url : string;
  pi_thumbnail : option string;
  pi_previewContent : option string;
  pi_languageCode : option string;
  pi_author : option string;
  pi_dir : option string;
  pi_createdAt : Date;
  pi_topic : option string;
  pi_wordCount : Z;
  pi_siteIcon : option string;
  pi_publishedAt : option Date;
  pi_source : PublicItemSource;
}.

Record Candidate := {
  c_id : string;
  c_title : string;
  c_url : string;
  c_type : string;
  c_thumbnail : option string;
  c_previewContent : option string;
  c_languageCode : string;
  c_author : option string;
  c_dir : string;
  c_date : Date;
  c_topic : option string;
  c_wordCount : Z;
  c_siteIcon : option string;
  c_siteName : option string;
  c_folder : option string;
  c_score : option Z;
  c_publishedAt : option Date;
  c_subscription : option SubscriptionRef;
}.

Record Item := {
  item_id : string;
  item_type : string;
}.

(** [interface Section] *)
Record FeedSection := {
  items : list Item;
  layout : string;
}.

(** [Feature] of the scoring service. *)
Record Feature := {
  f_title : string;
  f_has_thumbnail : bool;
  f_has_site_icon : bool;
  f_saved_at : Date;
  f_site : option string;
  f_language : string;
  f_directionality : string;
  f_folder : option string;
  f_subscription_type : option string;
  f_author : option string;
  f_word_count : Z;
  f_published_at : option Date;
}.

(** The body of the scoring request, and the service's answer
    ([ScoreApiResponse], a map from item id to score). *)
Record ScoreRequest := {
  req_user_id : string;
  req_item_features : gmap string Feature;
}.

Record SearchArgs := {
  sa_size : Z;
  sa_includeContent : bool;
  sa_query : string;
}.

#[global] Instance Item_eq_dec : EqDecision Item.
Proof. solve_decision. Defined.
#[global] Instance FeedSection_eq_dec : EqDecision FeedSection.
Proof. solve_decision. Defined.

#[global] Instance Outcome_fmap : FMap Outcome :=
  λ A B f o, match o with Returned a => Returned (f a) | Threw msg => Threw msg end.

(** A Redis sorted set: its (score, member) pairs in ascending order of
    score, members of equal score in lexicographic order, every member
    present once. *)
Abbreviation ZSet := (list (Z * string)).

(** What the job can change or leave a trace in. *)
Record World := {
  redis : gmap string ZSet;          (* key -> sorted set *)
  ticks : nat;                       (* readings of [Date.now()] so far *)
  scoreCalls : list ScoreRequest;    (* requests sent to the scoring service *)
}.

(** The collaborators of the job, all outside this file's source. *)
Record Env := {
  findActiveUser : string → Outcome (option User);
  searchLibraryItems : SearchArgs → string → Outcome (list LibraryItem);
  findSubscriptionsByNames : string → list string → Outcome (list Subscription);
  findUnseenPublicItems : string → Z → Outcome (list PublicItem);
  getScores : ScoreRequest → Outcome (gmap string Z);
  lanaugeToCode : string → string;
  redisClient : bool;                (* [redisDataSource.redisClient] is set *)
  (* [await pipeline.exec()] on a key: [None] when it resolves, [Some (k, msg)]
     when it is rejected with [msg] after the first [k] queued commands ran *)
  pipelineRejects : string → option (nat * string);
  Date_now : nat → Z;                (* the n-th reading of the clock *)
  JSON_stringify : FeedSection → string;
  JSON_parse : string → FeedSection;
}.

(** ** The job monad *)

Definition M (A : Type) : Type := World → Outcome A * World.

Definition ret {A} (a : A) : M A := λ w, (Returned a, w).

Definition throw {A} (msg : string) : M A := λ w, (Threw msg, w).

Definition bind {A B} (m : M A) (k : A → M B) : M B :=
  λ w, match m w with
       | (Returned a, w') => k a w'
       | (Threw msg, w') => (Threw msg, w')
       end.

(** [await] of a collaborator's promise. *)
Definition await {A} (o : Outcome A) : M A := λ w, (o, w).

Notation "'let*' x := m 'in' k" := (bind m (λ x, k))
  (at level 10, x name, m at level 100, k at level 200, only parsing).

(** [Date.now()] *)
Definition now (env : Env) : M Z :=
  λ w, (Returned (Date_now env (ticks w)),
        {| redis := redis w; ticks := S (ticks w); scoreCalls := scoreCalls w |}).

(** ** Candidate Selector *)

Definition libraryItemToCandidate (env : Env)
    (item : LibraryItem) (subscriptions : list Subscription) : Candidate :=
  {| c_id := li_id item;
     c_title := li_title item;
     c_url := li_originalUrl item;
     c_type := "library_item";
     c_thumbnail := JS.or_undefined (li_thumbnail item);
     c_previewContent := JS.or_undefined (li_description item);
     c_languageCode := lanaugeToCode env (JS.or_default (li_itemLanguage item) "English");
     c_author := JS.or_undefined (li_author item);
     c_dir := JS.or_default (li_directionality item) "ltr";
     c_date := li_createdAt item;
     c_topic := li_topic item;
     c_wordCount := li_wordCount item;
     c_siteIcon := JS.or_undefined (li_siteIcon item);
     c_siteName := JS.or_undefined (li_siteName item);
     c_folder := Some (li_folder item);
     c_score := li_score item;
     c_publishedAt := li_publishedAt item;
     c_subscription :=
       (λ s, {| ref_name := sub_name s; ref_type := sub_type s |}) <$>
       find (λ subscription,
               bool_decide (Some (sub_name subscription) = li_subscription item)
               || bool_decide (sub_url subscription = li_subscription item))
            subscriptions |}.

Definition publicItemToCandidate (item : PublicItem) : Candidate :=
  {| c_id := pi_id item;
     c_title := pi_title item;
     c_url := pi_url item;
     c_type := "public_item";
     c_thumbnail := pi_thumbnail item;
     c_previewContent := pi_previewContent item;
     c_languageCode := JS.or_default (pi_languageCode item) "en";
     c_author := pi_author item;
     c_dir := JS.or_default (pi_dir item) "ltr";
     c_date := pi_createdAt item;
     c_topic := pi_topic item;
     c_wordCount := pi_wordCount item;
     c_siteIcon := pi_siteIcon item;
     c_siteName := None;
     c_folder := None;
     c_score := None;
     c_publishedAt := pi_publishedAt item;
     c_subscription :=
       Some {| ref_name := src_name (pi_source item);
               ref_type := src_type (pi_source item) |} |}.

(** [libraryItems.filter((item) => !!item.subscription)
                 .map((item) => item.subscription as string)] *)
Definition subscriptionNames (libraryItems : list LibraryItem) : list string :=
  omap li_subscription
    (filter (λ item, JS.truthy (li_subscription item) = true) libraryItems).

Definition selectCandidates (env : Env) (user : User) : M (list Candidate) :=
  let userId := user_id user in
  (* get last 100 library items saved and not seen by user *)
  let* libraryItems := await (searchLibraryItems env
      {| sa_size := 100; sa_includeContent := false;
         sa_query := "-is:seen wordsCount:>0" |} userId) in
  (* get subscriptions for the library items *)
  let* subscriptions := await (findSubscriptionsByNames env userId
                               (subscriptionNames libraryItems)) in
  (* map library items to candidates and limit to 70 *)
  let privateCandidates :=
    JS.slice0 70 (fmap (λ item, libraryItemToCandidate env item subscriptions)
                      libraryItems) in
  let privateCandidatesSize := Z.of_nat (length privateCandidates) in
  (* get 100 items not seen by the user from public inventory *)
  let* publicItems := await (findUnseenPublicItems env userId 100) in
  (* map public items to candidates and limit to the remaining vacancies *)
  let publicCandidates :=
    JS.slice0 (100 - privateCandidatesSize) (fmap publicItemToCandidate publicItems) in
  ret (privateCandidates ++ publicCandidates).

(** ** Ranker *)

Definition featureOf (item : Candidate) : Feature :=
  {| f_title := c_title item;
     f_has_thumbnail := JS.truthy (c_thumbnail item);
     f_has_site_icon := JS.truthy (c_siteIcon item);
     f_saved_at := c_date item;
     f_site := c_siteName item;
     f_language := c_languageCode item;
     f_directionality := c_dir item;
     f_folder := c_folder item;
     f_subscription_type := ref_type <$> c_subscription item;
     f_author := c_author item;
     f_word_count := c_wordCount item;
     f_published_at := c_publishedAt item |}.

(** [await getScores(data)]: the request is recorded, then answered. *)
Definition callGetScores (env : Env) (data : ScoreRequest) : M (gmap string Z) :=
  λ w, (getScores env data,
        {| redis := redis w; ticks := ticks w;
           scoreCalls := scoreCalls w ++ [data] |}).

(** [item_features] of the request: one entry per unscored candidate, keyed
    by its id. *)
Definition itemFeatures (candidates : list Candidate) : gmap string Feature :=
  foldl (λ acc item, <[c_id item := featureOf item]> acc) ∅
        (filter (λ item, c_score item = None) candidates).

Definition preCalculatedScores (candidates : list Candidate) : gmap string Z :=
  foldl (λ acc item,
           match c_score item with
           | Some s => <[c_id item := s]> acc
           | None => acc
           end) ∅
        (filter (λ item, c_score item ≠ None) candidates).

(** [{ ...preCalculatedScores, ...newScores }]: the later spread wins. *)
Definition mergeScores (pre new : gmap string Z) : gmap string Z := new ∪ pre.

(** [scores[id] || 0] *)
Definition scoreOf (scores : gmap string Z) (item : Candidate) : Z :=
  default 0 (scores !! c_id item).

Definition rankCandidates (env : Env) (userId : string)
    (candidates : list Candidate) : M (list Candidate) :=
  if bool_decide (length candidates ≤ 10)%nat then
    (* no need to rank if there are less than 10 candidates *)
    ret candidates
  else
    let data := {| req_user_id := userId;
                   req_item_features := itemFeatures candidates |} in
    let* newScores := callGetScores env data in
    let scores := mergeScores (preCalculatedScores candidates) newScores in
    (* rank candidates by score in ascending order *)
    ret (JS.sort (λ a b, scoreOf scores a - scoreOf scores b) candidates).

(** ** Mixer *)

(** [wordCounts[Math.floor(wordCounts.length / 2)]] of the sorted word
    counts; [undefined] for an empty array. *)
Definition medianWordCount (rankedFeedItems : list Candidate) : option Z :=
  let wordCounts := JS.sort (λ a b, a - b) (fmap c_wordCount rankedFeedItems) in
  wordCounts !! JS.floor_div (length wordCounts) 2.

(** [wordCount < medianWordCount]; a comparison with [undefined] is false. *)
Definition belowMedian (wordCount : Z) (median : option Z) : bool :=
  match median with
  | Some m => wordCount <? m
  | None => false
  end.

(** The loop filling [shortItems] and [longItems]. *)
Definition splitByMedian (median : option Z) (rankedFeedItems : list Candidate)
    : list Candidate * list Candidate :=
  foldl (λ groups item,
           if belowMedian (c_wordCount item) median
           then (groups.1 ++ [item], groups.2)
           else (groups.1, groups.2 ++ [item]))
        ([], []) rankedFeedItems.

Definition checkConstraints (batch : list Candidate) (item : Candidate) : bool :=
  let titleCount := length (filter (λ i, c_title i = c_title item) batch) in
  let authorCount := length (filter (λ i, c_author i = c_author item) batch) in
  let siteCount := length (filter (λ i, c_siteName i = c_siteName item) batch) in
  let subscriptionCount :=
    length (filter (λ i, ref_name <$> c_subscription i
                         = ref_name <$> c_subscription item) batch) in
  bool_decide (titleCount < 1)%nat
  && bool_decide (authorCount < 2)%nat
  && bool_decide (siteCount < 2)%nat
  && bool_decide (subscriptionCount < 2)%nat.

(** First inner loop of [distributeItems]: push into the first batch with
    fewer than 5 items that passes the constraints; [None] when no batch
    takes the item ([added] stays false). *)
Fixpoint placeConstrained (item : Candidate) (batches : list (list Candidate))
    : option (list (list Candidate)) :=
  match batches with
  | [] => None
  | batch :: rest =>
      if bool_decide (length batch < 5)%nat && checkConstraints batch item
      then Some ((batch ++ [item]) :: rest)
      else cons batch <$> placeConstrained item rest
  end.

(** Second inner loop: push into the first batch with fewer than 10 items;
    the item is dropped when there is none. *)
Fixpoint placeOverflow (item : Candidate) (batches : list (list Candidate))
    : list (list Candidate) :=
  match batches with
  | [] => []
  | batch :: rest =>
      if bool_decide (length batch < 10)%nat
      then (batch ++ [item]) :: rest
      else batch :: placeOverflow item rest
  end.

Definition placeItem (batches : list (list Candidate)) (item : Candidate)
    : list (list Candidate) :=
  match placeConstrained item batches with
  | Some batches' => batches'
  | None => placeOverflow item batches
  end.

Definition distributeItems (items : list Candidate)
    (batches : list (list Candidate)) : list (list Candidate) :=
  foldl placeItem batches items.

(** The batches after both groups were distributed. *)
Definition distributedBatches (rankedFeedItems : list Candidate)
    : list (list Candidate) :=
  let groups := splitByMedian (medianWordCount rankedFeedItems) rankedFeedItems in
  let shortItems := groups.1 in
  let longItems := groups.2 in
  (* initialize empty batches *)
  let batches := replicate (JS.floor_div (length rankedFeedItems) 10) [] in
  (* distribute longer items first and then shorter items *)
  distributeItems shortItems (distributeItems longItems batches).

Definition itemRef (item : Candidate) : Item :=
  {| item_id := c_id item; item_type := c_type item |}.

(** One turn of the loop over [i]: reading [batch[i].id] throws when the
    batch has no element [i]. *)
Definition longSection (batch : list Candidate) (i : nat) : Outcome FeedSection :=
  match batch !! i with
  | Some item => Returned {| items := [itemRef item]; layout := "long" |}
  | None => Threw "TypeError: Cannot read properties of undefined"
  end.

Definition quickLinksSection (batch : list Candidate) : FeedSection :=
  {| items := fmap itemRef (JS.slice_from 5 batch); layout := "quick links" |}.

(** Run the steps in order, stopping at the first one that throws. *)
Fixpoint collect {A} (steps : list (Outcome (list A))) : Outcome (list A) :=
  match steps with
  | [] => Returned []
  | Returned xs :: rest =>
      match collect rest with
      | Returned ys => Returned (xs ++ ys)
      | Threw msg => Threw msg
      end
  | Threw msg :: _ => Threw msg
  end.

(** The sections pushed for one batch. *)
Definition batchSections (batch : list Candidate) : Outcome (list FeedSection) :=
  collect (fmap (λ i, match longSection batch i with
                     | Returned s => Returned [s]
                     | Threw msg => Threw msg
                     end) (seq 0 5)
           ++ [Returned [quickLinksSection batch]]).

Definition mixFeedItems (rankedFeedItems : list Candidate)
    : Outcome (list FeedSection) :=
  collect (fmap batchSections (distributedBatches rankedFeedItems)).

(** ** Redis sorted-set commands used by the feed store *)

Module Redis.

Inductive Bound := NegInf | Fin (z : Z) | PosInf.

Definition ge_bound (score : Z) (b : Bound) : bool :=
  match b with NegInf => true | Fin z => z <=? score | PosInf => false end.

Definition le_bound (score : Z) (b : Bound) : bool :=
  match b with NegInf => false | Fin z => score <=? z | PosInf => true end.

(** The order of a sorted set: by score, then by member. *)
Definition entry_leb (a b : Z * string) : bool :=
  (a.1 <? b.1) || ((a.1 =? b.1) && String.leb a.2 b.2).

Fixpoint insert_entry (e : Z * string) (z : ZSet) : ZSet :=
  match z with
  | [] => [e]
  | e' :: z' => if entry_leb e e' then e :: e' :: z' else e' :: insert_entry e z'
  end.

(** One (score, member) pair of ZADD: a member already present gets the
    new score. *)
Definition zadd1 (z : ZSet) (e : Z * string) : ZSet :=
  insert_entry e (filter (λ e', e'.2 ≠ e.2) z).

(** ZADD key score member [score member ...]; without any pair the server
    answers with an error and changes nothing. *)
Definition zadd (scoreMembers : list (Z * string)) (z : ZSet) : ZSet :=
  foldl zadd1 z scoreMembers.

(** An index counted from the end when negative. *)
Definition normalize (len idx : Z) : Z := if idx <? 0 then len + idx else idx.

(** ZREMRANGEBYRANK key start stop *)
Definition zremrangebyrank (start stop : Z) (z : ZSet) : ZSet :=
  let len := Z.of_nat (length z) in
  let start' := Z.max 0 (normalize len start) in
  let stop' := Z.min (len - 1) (normalize len stop) in
  if stop' <? start' then z
  else take (Z.to_nat start') z ++ drop (Z.to_nat (stop' + 1)) z.

(** ZREMRANGEBYSCORE key min max *)
Definition zremrangebyscore (min max : Bound) (z : ZSet) : ZSet :=
  filter (λ e, ¬ (ge_bound e.1 min = true ∧ le_bound e.1 max = true)) z.

(** ZREVRANGEBYSCORE key max min WITHSCORES LIMIT offset count; a negative
    count returns everything from the offset. *)
Definition zrevrangebyscore (max min : Bound) (offset : nat) (count : Z)
    (z : ZSet) : list (string * Z) :=
  let inRange :=
    filter (λ e, ge_bound e.1 min = true ∧ le_bound e.1 max = true) z in
  let fromOffset := drop offset (reverse inRange) in
  fmap (λ e, (e.2, e.1))
      (if count <? 0 then fromOffset else take (Z.to_nat count) fromOffset).

(** A key that holds no sorted set reads as the empty one, and a sorted
    set that becomes empty is removed. *)
Definition get (key : string) (db : gmap string ZSet) : ZSet :=
  default [] (db !! key).

Definition put (key : string) (z : ZSet) (db : gmap string ZSet)
    : gmap string ZSet :=
  match z with
  | [] => delete key db
  | _ => <[key := z]> db
  end.

End Redis.

(** ** Feed Store *)

Definition redisKey (userId : string) : string := "just-read-feed:" +:+ userId.

Definition MAX_FEED_ITEMS : Z := 500.

(** [redisDataSource.redisClient], or the error thrown without it. *)
Definition requireRedis (env : Env) : M unit :=
  if redisClient env then ret tt else throw "Redis client not available".

Definition getJustReadFeedSections (env : Env) (userId : string) (limit : Z)
    (maxScore : option Z) : M (list (FeedSection * Z)) :=
  let* _ := requireRedis env in
  let key := redisKey userId in
  let ceiling :=
    match maxScore with
    | Some m => if m =? 0 then Redis.PosInf else Redis.Fin (m - 1)
    | None => Redis.PosInf
    end in
  λ w,
    let results :=
      Redis.zrevrangebyscore ceiling Redis.NegInf 0 limit (Redis.get key (redis w)) in
    (Returned (fmap (λ r, (JSON_parse env r.1, r.2)) results), w).

(** [sections.flatMap((section, index) => [Date.now() + index + 86_400_000,
    JSON.stringify(section)])], the clock being read once per section. *)
Fixpoint scoreMembersFrom (env : Env) (index : Z) (sections : list FeedSection)
    : M (list (Z * string)) :=
  match sections with
  | [] => ret []
  | section :: rest =>
      let* t := now env in
      let* more := scoreMembersFrom env (index + 1) rest in
      ret ((t + index + 86400000, JSON_stringify env section) :: more)
  end.

(** The commands queued on the pipeline, in order. *)
Definition queuedCommands (scoreMembers : list (Z * string)) (expireBefore : Z)
    : list (ZSet → ZSet) :=
  [ (* add section to the sorted set *)
    Redis.zadd scoreMembers;
    (* remove expired sections and keep only the top 500 *)
    Redis.zremrangebyrank 0 (- (MAX_FEED_ITEMS + 1));
    Redis.zremrangebyscore Redis.NegInf (Redis.Fin expireBefore) ].

Definition runCommands (commands : list (ZSet → ZSet)) (z : ZSet) : ZSet :=
  foldl (λ z command, command z) z commands.

(** [await pipeline.exec()]: the queued commands run in order on the key.
    The call can be rejected, and since a pipeline is not a transaction the
    first commands may have run by then. *)
Definition execPipeline (env : Env) (key : string)
    (scoreMembers : list (Z * string)) (expireBefore : Z) : M unit :=
  λ w,
    let commands := queuedCommands scoreMembers expireBefore in
    let z0 := Redis.get key (redis w) in
    match pipelineRejects env key with
    | None =>
        (Returned tt,
         {| redis := Redis.put key (runCommands commands z0) (redis w);
            ticks := ticks w; scoreCalls := scoreCalls w |})
    | Some (ran, msg) =>
        (Threw msg,
         {| redis := Redis.put key (runCommands (take ran commands) z0) (redis w);
            ticks := ticks w; scoreCalls := scoreCalls w |})
    end.

Definition appendSectionsToFeed (env : Env) (userId : string)
    (sections : list FeedSection) : M unit :=
  let* _ := requireRedis env in
  let key := redisKey userId in
  (* store candidates in redis sorted set *)
  let* scoreMembers := scoreMembersFrom env 0 sections in
  (* remove expired sections and keep only the top 500 *)
  let* expireBefore := now env in
  execPipeline env key scoreMembers expireBefore.

(** ** The job *)

Record UpdateJustReadFeedJobData := { userId : string }.

Definition updateJustReadFeed (env : Env) (data : UpdateJustReadFeedJobData)
    : M unit :=
  let userId := userId data in
  let* user := await (findActiveUser env userId) in
  match user with
  | None => ret tt
  | Some user =>
      let* candidates := selectCandidates env user in
      let* rankedCandidates := rankCandidates env userId candidates in
      if bool_decide (length rankedCandidates = 0%nat) then ret tt
      else
        let* rankedSections := await (mixFeedItems rankedCandidates) in
        appendSectionsToFeed env userId rankedSections
  end.

(** ** Sample data *)

Module Sample.

Definition libraryItem (n : nat) : LibraryItem :=
  {| li_id := "lib-" +:+ pretty n;
     li_title := "Saved article " +:+ pretty n;
     li_originalUrl := "https://example.org/saved/" +:+ pretty n;
     li_thumbnail := None;
     li_description := None;
     li_itemLanguage := None;
     li_author := None;
     li_directionality := None;
     li_createdAt := 1700000000000 + Z.of_nat n;
     li_topic := None;
     li_wordCount := 100 + Z.of_nat n;
     li_siteName := None;
     li_siteIcon := None;
     li_folder := "inbox";
     li_score := None;
     li_publishedAt := None;
     li_subscription := None |}.

Definition publicItem (n : nat) : PublicItem :=
  {| pi_id := "pub-" +:+ pretty n;
     pi_title := "Public article " +:+ pretty n;
     pi_url := "https://example.org/public/" +:+ pretty n;
     pi_thumbnail := None;
     pi_previewContent := None;
     pi_languageCode := None;
     pi_author := None;
     pi_dir := None;
     pi_createdAt := 1700000000000 + Z.of_nat n;
     pi_topic := None;
     pi_wordCount := 200 + Z.of_nat n;
     pi_siteIcon := None;
     pi_publishedAt := None;
     pi_source := {| src_name := "source"; src_type := "rss" |} |}.

(** A candidate with the given id, title, word count and score. *)
Definition candidate (id title : string) (wordCount : Z) (score : option Z)
    : Candidate :=
  {| c_id := id; c_title := title; c_url := "https://example.org/" +:+ id;
     c_type := "library_item"; c_thumbnail := None; c_previewContent := None;
     c_languageCode := "en"; c_author := Some ("author of " +:+ id);
     c_dir := "ltr"; c_date := 1700000000000; c_topic := None;
     c_wordCount := wordCount; c_siteIcon := None;
     c_siteName := Some ("site of " +:+ id); c_folder := Some "inbox";
     c_score := score; c_publishedAt := None;
     c_subscription := Some {| ref_name := "feed of " +:+ id; ref_type := "rss" |} |}.

(** A printer for sections and a reader that knows the sections of
    [known]: enough of a codec for lists of sections drawn from [known]. *)
Definition stringify (s : FeedSection) : string :=
  String.concat "," ((λ i, item_id i +:+ "/" +:+ item_type i) <$> items s)
  +:+ ":" +:+ layout s.

Definition parse (known : list FeedSection) (text : string) : FeedSection :=
  default {| items := []; layout := "" |}
          (find (λ s, bool_decide (stringify s = text)) known).

(** Collaborators answering with [nLibrary] saved and [nPublic] public
    items, a scoring service answering [answer], a clock standing at
    [clock], and a JSON codec for the sections of [known]. *)
Definition envWith (nLibrary nPublic : nat) (answer : gmap string Z)
    (clock : Z) (known : list FeedSection) : Env :=
  {| findActiveUser := λ id, Returned (Some {| user_id := id |});
     searchLibraryItems := λ _ _, Returned (libraryItem <$> seq 0 nLibrary);
     findSubscriptionsByNames := λ _ _, Returned [];
     findUnseenPublicItems := λ _ _, Returned (publicItem <$> seq 0 nPublic);
     getScores := λ _, Returned answer;
     lanaugeToCode := λ _, "en";
     redisClient := true;
     pipelineRejects := λ _, None;
     Date_now := λ _, clock;
     JSON_stringify := stringify;
     JSON_parse := parse known |}.

Definition env (nLibrary nPublic : nat) (clock : Z) : Env :=
  envWith nLibrary nPublic ∅ clock [].

(** Ten copies of one article under different ids. *)
Definition reprint (n : nat) : Candidate :=
  {| c_id := "r" +:+ pretty n; c_title := "Same title";
     c_url := "https://example.org/r"; c_type := "public_item";
     c_thumbnail := None; c_previewContent := None;
     c_languageCode := "en"; c_author := Some "Same author";
     c_dir := "ltr"; c_date := 1700000000000; c_topic := None;
     c_wordCount := 700; c_siteIcon := None;
     c_siteName := Some "Same site"; c_folder := None;
     c_score := None; c_publishedAt := None;
     c_subscription :=
       Some {| ref_name := "Same feed"; ref_type := "rss" |} |}.

Definition reprints : list Candidate := reprint <$> seq 0 10.

(** Eleven candidates; the even ones carry the score [100 - n]. *)
Definition eleven : list Candidate :=
  (λ n, candidate ("c" +:+ pretty n) ("Title " +:+ pretty n) (Z.of_nat (10 * n))
                  (if Nat.even n then Some (100 - Z.of_nat n) else None))
  <$> seq 0 11.

(** The service scores the odd ones with [n]. *)
Definition answer : gmap string Z :=
  list_to_map ((λ n, ("c" +:+ pretty n, Z.of_nat n)) <$> [1; 3; 5; 7; 9]%nat).

(** Three sections, as the mixer makes them. *)
Definition section1 : FeedSection :=
  {| items := [{| item_id := "c1"; item_type := "library_item" |}];
     layout := "long" |}.
Definition section2 : FeedSection :=
  {| items := [{| item_id := "c2"; item_type := "public_item" |}];
     layout := "long" |}.
Definition section3 : FeedSection :=
  {| items := [{| item_id := "c3"; item_type := "library_item" |};
               {| item_id := "c4"; item_type := "public_item" |}];
     layout := "quick links" |}.
Definition sections : list FeedSection := [section1; section2; section3].

(** [n] distinct single-item sections, numbered from [start]. *)
Definition longSections (start n : nat) : list FeedSection :=
  (λ k, {| items := [{| item_id := pretty k; item_type := "library_item" |}];
           layout := "long" |})
  <$> seq start n.

(** A store environment: the clock gains one millisecond per reading. *)
Definition storeEnv : Env :=
  {| findActiveUser := λ id, Returned (Some {| user_id := id |});
     searchLibraryItems := λ _ _, Returned [];
     findSubscriptionsByNames := λ _ _, Returned [];
     findUnseenPublicItems := λ _ _, Returned [];
     getScores := λ _, Returned ∅;
     lanaugeToCode := λ _, "en";
     redisClient := true;
     pipelineRejects := λ _, None;
     Date_now := λ n, 1700000000000 + Z.of_nat n;
     JSON_stringify := stringify;
     JSON_parse := parse sections |}.

Definition world : World := {| redis := ∅; ticks := 0; scoreCalls := [] |}.

Definition user : User := {| user_id := "u1" |}.

End Sample.

(** ** Vocabulary of the stated properties *)

(** *** Sorting by an integer key *)

(** The comparators of this file: the difference of two integer keys. *)
Definition keyCmp {A} (key : A → Z) : A → A → Z := λ a b, key a - key b.

(** Ascending order of the key. *)
Definition byKey {A} (key : A → Z) : relation A := λ a b, key a ≤ key b.

(** The origin of a candidate is recorded in its [type]. *)
Definition privateOrigin (c : Candidate) : Prop := c_type c = "library_item".
Definition publicOrigin (c : Candidate) : Prop := c_type c = "public_item".

#[global] Instance privateOrigin_dec c : Decision (privateOrigin c).
Proof. unfold privateOrigin. apply _. Defined.
#[global] Instance publicOrigin_dec c : Decision (publicOrigin c).
Proof. unfold publicOrigin. apply _. Defined.

(** The query the selector sends to the library search. *)
Definition unseenQuery : SearchArgs :=
  {| sa_size := 100; sa_includeContent := false;
     sa_query := "-is:seen wordsCount:>0" |}.

(** The request the ranker sends for a candidate list. *)
Definition scoreRequest (userId : string) (candidates : list Candidate)
    : ScoreRequest :=
  {| req_user_id := userId; req_item_features := itemFeatures candidates |}.

(** The world after one more request went to the scoring service. *)
Definition afterScoreCall (w : World) (request : ScoreRequest) : World :=
  {| redis := redis w; ticks := ticks w; scoreCalls := scoreCalls w ++ [request] |}.

(** Ascending order of merged score. *)
Definition byScore (scores : gmap string Z) : relation Candidate :=
  byKey (scoreOf scores).

(** The number of items held by a list of batches. *)
Definition placed (batches : list (list Candidate)) : nat :=
  sum_list (length <$> batches).

(** The single-item section of a candidate: one reference, made of the
    candidate's identifier and type, under the "long" layout. *)
Definition longSectionOf (item : Candidate) : FeedSection :=
  {| items := [{| item_id := c_id item; item_type := c_type item |}];
     layout := "long" |}.

(** The multi-item section of some candidates: their references in order
    under the "quick links" layout. *)
Definition quickLinksOf (rest : list Candidate) : FeedSection :=
  {| items := (λ item, {| item_id := c_id item; item_type := c_type item |})
              <$> rest;
     layout := "quick links" |}.

(** The six sections of a batch of at least 5 items. *)
Definition sectionsOf (batch : list Candidate) : list FeedSection :=
  (longSectionOf <$> take 5 batch) ++ [quickLinksOf (drop 5 batch)].

(** *** Diversity of a batch *)

Abbreviation sameTitle item := (λ i : Candidate, c_title i = c_title item).
Abbreviation sameAuthor item := (λ i : Candidate, c_author i = c_author item).
Abbreviation sameSite item := (λ i : Candidate, c_siteName i = c_siteName item).
Abbreviation sameSubscription item :=
  (λ i : Candidate, ref_name <$> c_subscription i = ref_name <$> c_subscription item).

(** The diversity asked of a whole batch: no two items with different
    identifiers share a title, and no more than 2 items share an author, a
    site name or a subscription name. *)
Definition diverse (batch : list Candidate) : Prop :=
  (∀ a b, a ∈ batch → b ∈ batch → c_id a ≠ c_id b → c_title a ≠ c_title b)
  ∧ (∀ item, length (filter (sameAuthor item) batch) ≤ 2)%nat
  ∧ (∀ item, length (filter (sameSite item) batch) ≤ 2)%nat
  ∧ (∀ item, length (filter (sameSubscription item) batch) ≤ 2)%nat.

(** The diversity the first-fit rule checks for an item against the items
    already in a batch. *)
Definition fitsAmong (earlier : list Candidate) (item : Candidate) : Prop :=
  (length earlier < 5)%nat
  ∧ length (filter (sameTitle item) earlier) = 0%nat
  ∧ (length (filter (sameAuthor item) earlier) ≤ 1)%nat
  ∧ (length (filter (sameSite item) earlier) ≤ 1)%nat
  ∧ (length (filter (sameSubscription item) earlier) ≤ 1)%nat.

(** *** The distribution with the placing rule recorded

    The loops of [distributeItems] once more, each pushed item paired with
    the rule that placed it; forgetting the rules gives [distributeItems]
    back ([distributeItemsT_erase]). *)

Inductive Rule := FirstFit | Overflow.

Fixpoint placeConstrainedT (item : Candidate)
    (batches : list (list (Candidate * Rule)))
    : option (list (list (Candidate * Rule))) :=
  match batches with
  | [] => None
  | batch :: rest =>
      if bool_decide (length batch < 5)%nat && checkConstraints (batch.*1) item
      then Some ((batch ++ [(item, FirstFit)]) :: rest)
      else cons batch <$> placeConstrainedT item rest
  end.

Fixpoint placeOverflowT (item : Candidate)
    (batches : list (list (Candidate * Rule)))
    : list (list (Candidate * Rule)) :=
  match batches with
  | [] => []
  | batch :: rest =>
      if bool_decide (length batch < 10)%nat
      then (batch ++ [(item, Overflow)]) :: rest
      else batch :: placeOverflowT item rest
  end.

Definition placeItemT (batches : list (list (Candidate * Rule)))
    (item : Candidate) : list (list (Candidate * Rule)) :=
  match placeConstrainedT item batches with
  | Some batches' => batches'
  | None => placeOverflowT item batches
  end.

Definition distributeItemsT (items : list Candidate)
    (batches : list (list (Candidate * Rule)))
    : list (list (Candidate * Rule)) :=
  foldl placeItemT batches items.

(** Forgetting the rules. *)
Definition forget (batches : list (list (Candidate * Rule)))
    : list (list Candidate) :=
  (λ batch : list (Candidate * Rule), batch.*1) <$> batches.

Definition distributedBatchesT (rankedFeedItems : list Candidate)
    : list (list (Candidate * Rule)) :=
  let groups := splitByMedian (medianWordCount rankedFeedItems) rankedFeedItems in
  let batches := replicate (JS.floor_div (length rankedFeedItems) 10) [] in
  distributeItemsT groups.1 (distributeItemsT groups.2 batches).

(** *** The feed store *)

(** The feed of a user in a world. *)
Definition feedOf (userId : string) (w : World) : ZSet :=
  Redis.get (redisKey userId) (redis w).

(** The world after [n] more readings of the clock. *)
Definition advance (w : World) (n : nat) : World :=
  {| redis := redis w; ticks := (ticks w + n)%nat; scoreCalls := scoreCalls w |}.

(** The rank-score given to the section at position [i] of an append that
    starts in world [w]: the clock reading taken for it, its position and
    24 hours. *)
Definition rankScore (env : Env) (w : World) (i : nat) : Z :=
  Date_now env (ticks w + i)%nat + Z.of_nat i + 86400000.

(** The order of the entries of a sorted set. *)
Definition entry_le (a b : Z * string) : Prop := Redis.entry_leb a b = true.

(** Some appends for one user, one after the other. *)
Fixpoint appendAll (env : Env) (userId : string)
    (calls : list (list FeedSection)) : M unit :=
  match calls with
  | [] => ret tt
  | sections :: rest =>
      let* _ := appendSectionsToFeed env userId sections in
      appendAll env userId rest
  end.

(** *** Capacity of the batches *)

Definition within10 (batch : list Candidate) : Prop := (length batch ≤ 10)%nat.
Definition full10 (batch : list Candidate) : Prop := (length batch = 10)%nat.

(** What the batches look like after [n] items went through [placeItem]:
    none is over 10, and either each item found a place or every batch is
    full. *)
Definition distributed (size n : nat) (batches : list (list Candidate)) : Prop :=
  length batches = size
  ∧ Forall within10 batches
  ∧ (placed batches = n ∨ Forall full10 batches).

(** Every item the first-fit rule placed passed the check against what its
    batch held then. *)
Definition firstFitChecked (batch : list (Candidate * Rule)) : Prop :=
  ∀ earlier item later,
    batch = earlier ++ (item, FirstFit) :: later → fitsAmong (earlier.*1) item.

(** The (score, member) pairs of an append that starts in world [w]. *)
Definition scoreMembersOf (env : Env) (w : World) (sections : list FeedSection)
    : list (Z * string) :=
  imap (λ i s, (rankScore env w i, JSON_stringify env s)) sections.

(** ** More sample data *)

Module Fixture.

(** Collaborators like [Sample.env], the queries of the user and the scoring
    service being given as outcomes. *)
Definition envOf (findUser : Outcome (option User))
    (library : Outcome (list LibraryItem))
    (subscriptions : Outcome (list Subscription))
    (public : Outcome (list PublicItem))
    (scores : Outcome (gmap string Z)) (client : bool) : Env :=
  {| findActiveUser := λ _, findUser;
     searchLibraryItems := λ _ _, library;
     findSubscriptionsByNames := λ _ _, subscriptions;
     findUnseenPublicItems := λ _ _, public;
     getScores := λ _, scores;
     lanaugeToCode := λ _, "en";
     redisClient := client;
     pipelineRejects := λ _, None;
     Date_now := λ n, 1700000000000 + Z.of_nat n;
     JSON_stringify := Sample.stringify;
     JSON_parse := Sample.parse Sample.sections |}.

(** A saved item that came from the subscription [name]. *)
Definition subscribedItem (n : nat) (name : string) : LibraryItem :=
  {| li_id := "lib-" +:+ pretty n;
     li_title := "Saved article " +:+ pretty n;
     li_originalUrl := "https://example.org/saved/" +:+ pretty n;
     li_thumbnail := Some "";
     li_description := Some "A description";
     li_itemLanguage := None;
     li_author := Some "";
     li_directionality := Some "";
     li_createdAt := 1700000000000 + Z.of_nat n;
     li_topic := None;
     li_wordCount := 100 + Z.of_nat n;
     li_siteName := None;
     li_siteIcon := None;
     li_folder := "following";
     li_score := Some 7;
     li_publishedAt := None;
     li_subscription := Some name |}.

Definition newsletter : Subscription :=
  {| sub_name := "Weekly letter"; sub_url := None; sub_type := "NEWSLETTER" |}.

Definition blog : Subscription :=
  {| sub_name := "A blog"; sub_url := Some "https://blog.example.org/feed";
     sub_type := "RSS" |}.

(** A user with [n] saved items and a scoring service that is down. *)
Definition scoringDown (n : nat) : Env :=
  envOf (Returned (Some Sample.user))
        (Returned (Sample.libraryItem <$> seq 0 n)) (Returned [])
        (Returned []) (Threw "scoring service unavailable") true.

(** No user of that id. *)
Definition nobody : Env :=
  envOf (Returned None) (Returned []) (Returned []) (Returned []) (Returned ∅) true.

(** A user with 8 saved and 4 public items, a scoring service that answers,
    and a store that loses the connection after the first command of the
    pipeline. *)
Definition connectionLost : Env :=
  {| findActiveUser := λ id, Returned (Some {| user_id := id |});
     searchLibraryItems := λ _ _, Returned (Sample.libraryItem <$> seq 0 8);
     findSubscriptionsByNames := λ _ _, Returned [];
     findUnseenPublicItems := λ _ _, Returned (Sample.publicItem <$> seq 0 4);
     getScores := λ _, Returned Sample.answer;
     lanaugeToCode := λ _, "en";
     redisClient := true;
     pipelineRejects := λ _, Some (1%nat, "Connection is closed.");
     Date_now := λ n, 1700000000000 + Z.of_nat n;
     JSON_stringify := Sample.stringify;
     JSON_parse := Sample.parse Sample.sections |}.

(** The store environment without its Redis client. *)
Definition offline : Env :=
  envOf (Returned None) (Returned []) (Returned []) (Returned []) (Returned ∅) false.

(** The world after the three sample sections were appended for "u1". *)
Definition fedWorld : World :=
  (appendSectionsToFeed Sample.storeEnv "u1" Sample.sections Sample.world).2.

End Fixture.

(** ** More vocabulary *)

(** A sorted set as Redis keeps it: in order, one entry per member. *)
Definition wellFormed (z : ZSet) : Prop :=
  StronglySorted entry_le z ∧ NoDup z.*2.

#[global] Instance entry_le_dec a b : Decision (entry_le a b).
Proof. unfold entry_le. apply _. Defined.

#[global] Instance wellFormed_dec z : Decision (wellFormed z).
Proof. unfold wellFormed. apply _. Defined.

(** Whether a rank-score passes the optional ceiling of a retrieval: a
    ceiling of 0 counts as none. *)
Definition passesCeiling (maxScore : option Z) (score : Z) : bool :=
  match maxScore with
  | Some m => (m =? 0) || (score <? m)
  | None => true
  end.

(** The entries a feed holds right after the sections of an append that
    starts in world [w] were inserted into the entries [old]: for each
    section the pair of its rank-score and its encoding, the last one when
    several sections have the same encoding, and the old entries whose
    member is the encoding of none of the sections. *)
Definition presentAfter (env : Env) (w : World) (sections : list FeedSection)
    (old : ZSet) (e : Z * string) : Prop :=
  (∃ i s, sections !! i = Some s
          ∧ e = (rankScore env w i, JSON_stringify env s)
          ∧ ∀ j s', (i < j)%nat → sections !! j = Some s' →
                    JSON_stringify env s' ≠ JSON_stringify env s)
  ∨ (e ∈ old ∧ ∀ s, s ∈ sections → JSON_stringify env s ≠ e.2).

(** A retrieved entry from a stored one. *)
Definition decoded (env : Env) (e : Z * string) : FeedSection * Z :=
  (JSON_parse env e.2, e.1).

(** * Properties *)

(** ** The sort *)

Section sort_facts.
Context {A : Type} (key : A → Z).

Lemma sort_insert_Permutation (c : A → A → Z) x l :
  JS.sort_insert c x l ≡ₚ x :: l.
Proof.
  induction l as [|y l IH]; simpl; [done|].
  destruct (c x y <=? 0); [done|].
  rewrite IH. apply Permutation_swap.
Qed.

Lemma sort_Permutation (c : A → A → Z) l : JS.sort c l ≡ₚ l.
Proof.
  induction l as [|x l IH]; simpl; [done|].
  unfold JS.sort in *. simpl. by rewrite sort_insert_Permutation, IH.
Qed.

Lemma sort_length (c : A → A → Z) l : length (JS.sort c l) = length l.
Proof. by rewrite sort_Permutation. Qed.

Lemma sort_insert_HdRel a x l :
  byKey key a x → HdRel (byKey key) a l →
  HdRel (byKey key) a (JS.sort_insert (keyCmp key) x l).
Proof.
  intros Hax Hal. destruct l as [|y l]; simpl; [by constructor|].
  destruct (keyCmp key x y <=? 0); constructor; [done|].
  by inversion Hal.
Qed.

Lemma sort_insert_Sorted x l :
  Sorted (byKey key) l → Sorted (byKey key) (JS.sort_insert (keyCmp key) x l).
Proof.
  induction 1 as [|y l Hl IH Hy]; simpl; [by repeat constructor|].
  destruct (keyCmp key x y <=? 0) eqn:Hc.
  - constructor; [by constructor|]. constructor.
    unfold byKey, keyCmp in *. lia.
  - constructor; [done|]. apply sort_insert_HdRel; [|done].
    unfold byKey, keyCmp in *. lia.
Qed.

Lemma sort_Sorted l : Sorted (byKey key) (JS.sort (keyCmp key) l).
Proof.
  induction l as [|x l IH]; [constructor|].
  unfold JS.sort in *. simpl. by apply sort_insert_Sorted.
Qed.

#[local] Instance byKey_trans : Transitive (byKey key).
Proof. intros a b c. unfold byKey. lia. Qed.

Lemma NoDup_key_inj l x y :
  NoDup (key <$> l) → x ∈ l → y ∈ l → key x = key y → x = y.
Proof.
  induction l as [|z l IH]; intros Hnd Hx Hy Hk; [by inversion Hx|].
  rewrite fmap_cons in Hnd. apply NoDup_cons in Hnd as [Hz Hnd].
  apply elem_of_cons in Hx as [->|Hx]; apply elem_of_cons in Hy as [->|Hy];
    try done.
  - exfalso. apply Hz. rewrite Hk. by apply list_elem_of_fmap_2.
  - exfalso. apply Hz. rewrite <- Hk. by apply list_elem_of_fmap_2.
  - by apply IH.
Qed.

(** With distinct keys there is one sorted arrangement: whatever stable or
    unstable algorithm the engine runs, the array it leaves is this one. *)
Lemma sort_unique l l' :
  NoDup (key <$> l) → l' ≡ₚ l → Sorted (byKey key) l' → l' = JS.sort (keyCmp key) l.
Proof.
  intros Hnd Hp Hs.
  apply (Sorted_unique_strong (byKey key)); [|done|apply sort_Sorted|].
  - intros x1 x2 H1 H2 H12 H21. apply (NoDup_key_inj l); [done| | |].
    + by rewrite <- Hp.
    + by rewrite <- (sort_Permutation (keyCmp key) l).
    + unfold byKey in *. lia.
  - by rewrite Hp, sort_Permutation.
Qed.

End sort_facts.

(** ** Candidate Selector *)

Lemma slice0_nonneg {A} (n : Z) (l : list A) :
  0 ≤ n → JS.slice0 n l = take (Z.to_nat n) l.
Proof. intros Hn. unfold JS.slice0. by rewrite (proj2 (Z.leb_le 0 n) Hn). Qed.

Lemma libraryItemToCandidate_private env item subscriptions :
  privateOrigin (libraryItemToCandidate env item subscriptions).
Proof. reflexivity. Qed.

Lemma publicItemToCandidate_public item : publicOrigin (publicItemToCandidate item).
Proof. reflexivity. Qed.

Lemma filter_all {A} (P : A → Prop) `{∀ x, Decision (P x)} (l : list A) :
  Forall P l → filter P l = l.
Proof.
  induction 1 as [|x l Hx _ IH]; [done|].
  by rewrite filter_cons_True, IH.
Qed.

Lemma filter_none {A} (P : A → Prop) `{∀ x, Decision (P x)} (l : list A) :
  Forall (λ x, ¬ P x) l → filter P l = [].
Proof.
  induction 1 as [|x l Hx _ IH]; [done|].
  by rewrite filter_cons_False, IH.
Qed.

(** C1 (as the code has it).  When the three queries answer, the selector
    returns, leaving the world untouched, the first 70 saved items followed
    by as many public items as fill the remaining [100 - privateCount]
    places: at most 70 private-origin candidates, at most [100 -
    privateCount] public-origin ones (so up to 100 of them when nothing is
    saved), and at most 100 in total. *)
Theorem selectCandidates_bounds env user w libraryItems subscriptions publicItems :
  searchLibraryItems env unseenQuery (user_id user) = Returned libraryItems →
  findSubscriptionsByNames env (user_id user) (subscriptionNames libraryItems)
    = Returned subscriptions →
  findUnseenPublicItems env (user_id user) 100 = Returned publicItems →
  ∃ candidates,
    selectCandidates env user w = (Returned candidates, w)
    ∧ (let privateCount := length (filter privateOrigin candidates) in
       let publicCount := length (filter publicOrigin candidates) in
       privateCount = 70 `min` length libraryItems
       ∧ publicCount = (100 - privateCount) `min` length publicItems
       ∧ length candidates = privateCount + publicCount
       ∧ privateCount ≤ 70
       ∧ publicCount ≤ 100 - privateCount
       ∧ length candidates ≤ 100)%nat.
Proof.
  intros Hlib Hsub Hpub.
  set (priv := take 70 ((λ item, libraryItemToCandidate env item subscriptions)
                          <$> libraryItems)).
  set (publ := take (100 - length priv)
                    (publicItemToCandidate <$> publicItems)).
  assert (Hpriv : Forall privateOrigin priv).
  { apply Forall_take, Forall_fmap, Forall_true. intros item.
    apply libraryItemToCandidate_private. }
  assert (Hpubl : Forall publicOrigin publ).
  { apply Forall_take, Forall_fmap, Forall_true. intros item.
    apply publicItemToCandidate_public. }
  assert (Hlen : (length priv = 70 `min` length libraryItems)%nat).
  { unfold priv. by rewrite length_take, length_fmap. }
  exists (priv ++ publ). split.
  - unfold selectCandidates, bind, await, ret. fold unseenQuery.
    rewrite Hlib, Hsub, Hpub.
    rewrite (slice0_nonneg 70) by lia. change (Z.to_nat 70) with 70%nat.
    fold priv. rewrite slice0_nonneg by lia.
    replace (Z.to_nat (100 - Z.of_nat (length priv))) with (100 - length priv)%nat
      by lia.
    done.
  - cbv zeta. rewrite !filter_app, !length_app.
    rewrite (filter_all privateOrigin priv) by done.
    rewrite (filter_all publicOrigin publ) by done.
    rewrite (filter_none privateOrigin publ), (filter_none publicOrigin priv).
    + rewrite !length_nil, Nat.add_0_r, Nat.add_0_l.
      assert ((length publ = (100 - length priv) `min` length publicItems)%nat)
        as Hlen'.
      { unfold publ. by rewrite length_take, length_fmap. }
      lia.
    + eapply Forall_impl; [exact Hpriv|]. unfold privateOrigin, publicOrigin.
      intros c ->. done.
    + eapply Forall_impl; [exact Hpubl|]. unfold privateOrigin, publicOrigin.
      intros c ->. done.
Qed.

Lemma selectCandidates_bounds_witness :
  ∃ candidates,
    selectCandidates (Sample.env 80 40 0) Sample.user Sample.world
      = (Returned candidates, Sample.world)
    ∧ (let privateCount := length (filter privateOrigin candidates) in
       let publicCount := length (filter publicOrigin candidates) in
       privateCount = 70 `min` length (Sample.libraryItem <$> seq 0 80)
       ∧ publicCount = (100 - privateCount) `min` length (Sample.publicItem <$> seq 0 40)
       ∧ length candidates = privateCount + publicCount
       ∧ privateCount ≤ 70
       ∧ publicCount ≤ 100 - privateCount
       ∧ length candidates ≤ 100)%nat.
Proof.
  apply (selectCandidates_bounds (Sample.env 80 40 0) Sample.user Sample.world
           (Sample.libraryItem <$> seq 0 80) [] (Sample.publicItem <$> seq 0 40));
    reflexivity.
Defined.

(** C1 as stated fails: with 5 saved items and 50 public items the selector
    returns 5 + 50 = 55 candidates, 50 of them of public origin. *)
Lemma selectCandidates_public_backfill :
  ∃ candidates,
    selectCandidates (Sample.env 5 50 0) Sample.user Sample.world
      = (Returned candidates, Sample.world)
    ∧ length (filter privateOrigin candidates) = 5%nat
    ∧ length (filter publicOrigin candidates) = 50%nat
    ∧ ¬ (length (filter publicOrigin candidates) ≤ 30)%nat
    ∧ length candidates = 55%nat
    ∧ length candidates ≠ 35%nat.
Proof.
  eexists. split; [vm_compute; reflexivity|].
  repeat split; try (vm_compute; reflexivity).
  - vm_compute. lia.
  - vm_compute. lia.
Qed.

(** ** Ranker *)

(** C5.  A list of at most 10 candidates comes back as it was given, and the
    world is as before: nothing was sent to the scoring service. *)
Theorem rankCandidates_small env userId candidates w :
  (length candidates ≤ 10)%nat →
  rankCandidates env userId candidates w = (Returned candidates, w).
Proof.
  intros Hlen. unfold rankCandidates.
  by rewrite bool_decide_eq_true_2.
Qed.

Lemma rankCandidates_small_witness :
  let candidates :=
    [Sample.candidate "a" "A" 10 (Some 3); Sample.candidate "b" "B" 20 None;
     Sample.candidate "c" "C" 30 (Some 1)] in
  rankCandidates (Sample.env 0 0 0) "u1" candidates Sample.world
    = (Returned candidates, Sample.world).
Proof.
  intros candidates.
  apply (rankCandidates_small (Sample.env 0 0 0) "u1" candidates Sample.world).
  simpl. lia.
Defined.

(** Every key of the request is the id of a candidate without a score. *)
Lemma itemFeatures_lookup candidates id feature :
  itemFeatures candidates !! id = Some feature →
  ∃ c, c ∈ candidates ∧ c_score c = None ∧ c_id c = id ∧ feature = featureOf c.
Proof.
  unfold itemFeatures.
  assert (∀ l (acc : gmap string Feature),
            foldl (λ acc item, <[c_id item := featureOf item]> acc) acc l !! id
              = Some feature →
            acc !! id = Some feature
            ∨ ∃ c, c ∈ l ∧ c_id c = id ∧ feature = featureOf c) as Hfold.
  { induction l as [|x l IH]; intros acc Hl; simpl in Hl; [by left|].
    apply IH in Hl as [Hacc|(c & Hc & Hid & Hf)].
    - destruct (decide (c_id x = id)) as [Heq|Hne].
      + rewrite Heq, lookup_insert_eq in Hacc. right. exists x.
        split; [by left|]. split; [done|]. congruence.
      + rewrite lookup_insert_ne in Hacc by done. by left.
    - right. exists c. split; [by right|done]. }
  intros Hl. apply Hfold in Hl as [Hempty|(c & Hc & Hid & Hf)].
  - by rewrite lookup_empty in Hempty.
  - apply list_elem_of_filter in Hc as [Hscore Hc]. by exists c.
Qed.

(** C4.  For more than 10 candidates with distinct merged scores, once the
    scoring service has answered: the ranker returns the candidates in
    ascending order of merged score (a missing score counting as zero), the
    only such arrangement of the input; one request went to the service, and
    no candidate carrying a score has its id among the request's keys. *)
Theorem rankCandidates_sorted env userId candidates w newScores :
  (10 < length candidates)%nat →
  getScores env (scoreRequest userId candidates) = Returned newScores →
  let scores := mergeScores (preCalculatedScores candidates) newScores in
  NoDup (scoreOf scores <$> candidates) →
  ∃ ranked,
    rankCandidates env userId candidates w
      = (Returned ranked, afterScoreCall w (scoreRequest userId candidates))
    ∧ ranked ≡ₚ candidates
    ∧ Sorted (byScore scores) ranked
    ∧ (∀ l, l ≡ₚ candidates → Sorted (byScore scores) l → l = ranked)
    ∧ (∀ c, c ∈ candidates → c_score c ≠ None →
         req_item_features (scoreRequest userId candidates) !! c_id c = None).
Proof.
  intros Hlen Hget scores Hnd.
  exists (JS.sort (λ a b, scoreOf scores a - scoreOf scores b) candidates).
  split; [|split; [|split; [|split]]].
  - unfold rankCandidates. rewrite bool_decide_eq_false_2 by lia.
    unfold bind, callGetScores, ret. fold (scoreRequest userId candidates).
    by rewrite Hget.
  - apply sort_Permutation.
  - apply (sort_Sorted (scoreOf scores)).
  - intros l Hp Hs. by apply (sort_unique (scoreOf scores)).
  - intros c Hc Hscore. simpl.
    destruct (itemFeatures candidates !! c_id c) as [feature|] eqn:Hl; [|done].
    apply itemFeatures_lookup in Hl as (c' & Hc' & Hnone & Hid & _).
    assert (c' = c) as ->; [|done].
    apply (NoDup_key_inj (scoreOf scores) candidates); [done..|].
    unfold scoreOf. by rewrite Hid.
Qed.

Lemma rankCandidates_sorted_witness :
  let env := Sample.envWith 0 0 Sample.answer 0 [] in
  let scores := mergeScores (preCalculatedScores Sample.eleven) Sample.answer in
  ∃ ranked,
    rankCandidates env "u1" Sample.eleven Sample.world
      = (Returned ranked,
         afterScoreCall Sample.world (scoreRequest "u1" Sample.eleven))
    ∧ ranked ≡ₚ Sample.eleven
    ∧ Sorted (byScore scores) ranked
    ∧ (∀ l, l ≡ₚ Sample.eleven → Sorted (byScore scores) l → l = ranked)
    ∧ (∀ c, c ∈ Sample.eleven → c_score c ≠ None →
         req_item_features (scoreRequest "u1" Sample.eleven) !! c_id c = None).
Proof.
  intros env scores.
  apply (rankCandidates_sorted env "u1" Sample.eleven Sample.world Sample.answer).
  - vm_compute. lia.
  - reflexivity.
  - apply (bool_decide_unpack _). vm_compute. exact I.
Defined.

(** ** Mixer: the median and the two groups *)

Lemma splitByMedian_filter median rankedFeedItems :
  splitByMedian median rankedFeedItems
  = (filter (λ c, belowMedian (c_wordCount c) median = true) rankedFeedItems,
     filter (λ c, belowMedian (c_wordCount c) median = false) rankedFeedItems).
Proof.
  unfold splitByMedian.
  assert (∀ l shortItems longItems,
    foldl (λ groups item,
             if belowMedian (c_wordCount item) median
             then (groups.1 ++ [item], groups.2)
             else (groups.1, groups.2 ++ [item]))
          (shortItems, longItems) l
    = (shortItems ++ filter (λ c, belowMedian (c_wordCount c) median = true) l,
       longItems ++ filter (λ c, belowMedian (c_wordCount c) median = false) l))
    as Hfold.
  { induction l as [|x l IH]; intros shortItems longItems; simpl.
    - by rewrite !filter_nil, !app_nil_r.
    - destruct (belowMedian (c_wordCount x) median) eqn:Hx; simpl; rewrite IH.
      + rewrite filter_cons_True, filter_cons_False by (by rewrite ?Hx).
        by rewrite <- app_assoc.
      + rewrite filter_cons_False, filter_cons_True by (by rewrite ?Hx).
        by rewrite <- app_assoc. }
  apply Hfold.
Qed.

Lemma splitByMedian_length median rankedFeedItems :
  (length (splitByMedian median rankedFeedItems).1
   + length (splitByMedian median rankedFeedItems).2
   = length rankedFeedItems)%nat.
Proof.
  rewrite splitByMedian_filter. simpl.
  induction rankedFeedItems as [|x l IH]; [done|].
  destruct (belowMedian (c_wordCount x) median) eqn:Hx.
  - rewrite filter_cons_True, filter_cons_False by (by rewrite ?Hx). simpl. lia.
  - rewrite filter_cons_False, filter_cons_True by (by rewrite ?Hx). simpl. lia.
Qed.

(** C3 (as the code has it).  For a non-empty candidate list the median is
    the element at index [length / 2] of the ascending word counts, which for
    an even length is the upper of the two middle elements; the candidates
    whose word count is strictly below it form the short group and the
    others the long group, each in the order of the input. *)
Theorem mixFeedItems_median_split rankedFeedItems :
  rankedFeedItems ≠ [] →
  ∃ sorted m,
    sorted ≡ₚ c_wordCount <$> rankedFeedItems
    ∧ Sorted Z.le sorted
    ∧ sorted !! (length rankedFeedItems / 2)%nat = Some m
    ∧ medianWordCount rankedFeedItems = Some m
    ∧ splitByMedian (medianWordCount rankedFeedItems) rankedFeedItems
      = (filter (λ c, c_wordCount c < m) rankedFeedItems,
         filter (λ c, m ≤ c_wordCount c) rankedFeedItems).
Proof.
  intros Hne.
  set (sorted := JS.sort (λ a b, a - b) (c_wordCount <$> rankedFeedItems)).
  assert (length sorted = length rankedFeedItems) as Hlen.
  { unfold sorted. by rewrite sort_length, length_fmap. }
  assert (length rankedFeedItems / 2 < length sorted)%nat as Hlt.
  { rewrite Hlen. destruct rankedFeedItems; [done|]. simpl length.
    apply Nat.div_lt; lia. }
  destruct (lookup_lt_is_Some_2 _ _ Hlt) as [m Hm].
  assert (medianWordCount rankedFeedItems = Some m) as Hmed.
  { unfold medianWordCount, JS.floor_div. fold sorted. by rewrite Hlen. }
  exists sorted, m. split; [apply sort_Permutation|].
  split; [apply (sort_Sorted (λ z : Z, z))|].
  split; [done|]. split; [done|].
  rewrite Hmed, splitByMedian_filter. f_equal.
  - apply list_filter_iff. intros c. simpl. apply Z.ltb_lt.
  - apply list_filter_iff. intros c. simpl. rewrite Z.ltb_ge. done.
Qed.

Lemma mixFeedItems_median_split_witness :
  let rankedFeedItems :=
    [Sample.candidate "a" "A" 30 None; Sample.candidate "b" "B" 10 None;
     Sample.candidate "c" "C" 40 None; Sample.candidate "d" "D" 20 None] in
  ∃ sorted m,
    sorted ≡ₚ c_wordCount <$> rankedFeedItems
    ∧ Sorted Z.le sorted
    ∧ sorted !! (length rankedFeedItems / 2)%nat = Some m
    ∧ medianWordCount rankedFeedItems = Some m
    ∧ splitByMedian (medianWordCount rankedFeedItems) rankedFeedItems
      = (filter (λ c, c_wordCount c < m) rankedFeedItems,
         filter (λ c, m ≤ c_wordCount c) rankedFeedItems).
Proof.
  intros rankedFeedItems.
  apply (mixFeedItems_median_split rankedFeedItems). discriminate.
Defined.

(** C3 as stated fails on two candidates of 1 and 2 words: the code takes
    the median 2, at index [length / 2 = 1], and puts the first candidate in
    the short group; the element at the lower-middle index
    [length / 2 - 1 = 0] is 1, below which no candidate falls. *)
Lemma medianWordCount_even_is_upper_middle :
  let rankedFeedItems :=
    [Sample.candidate "a" "A" 1 None; Sample.candidate "b" "B" 2 None] in
  let sorted := JS.sort (λ a b, a - b) (c_wordCount <$> rankedFeedItems) in
  sorted = [1; 2]
  ∧ sorted !! (length rankedFeedItems / 2 - 1)%nat = Some 1
  ∧ medianWordCount rankedFeedItems = Some 2
  ∧ medianWordCount rankedFeedItems ≠ sorted !! (length rankedFeedItems / 2 - 1)%nat
  ∧ c_id <$> (splitByMedian (medianWordCount rankedFeedItems) rankedFeedItems).1
    = ["a"]
  ∧ c_id <$> (splitByMedian (sorted !! (length rankedFeedItems / 2 - 1)%nat)
                            rankedFeedItems).1
    = [].
Proof. vm_compute. repeat split; congruence. Qed.

(** ** Mixer: capacity of the batches *)

Lemma placed_cons batch batches :
  placed (batch :: batches) = (length batch + placed batches)%nat.
Proof. reflexivity. Qed.

Lemma placeConstrained_Some item batches batches' :
  placeConstrained item batches = Some batches' →
  length batches' = length batches
  ∧ placed batches' = S (placed batches)
  ∧ (Forall within10 batches → Forall within10 batches').
Proof.
  revert batches'. induction batches as [|batch rest IH]; intros batches' H;
    simpl in H; [done|].
  destruct (bool_decide (length batch < 5)%nat && checkConstraints batch item)
    eqn:Hc.
  - injection H as <-. apply andb_true_iff in Hc as [Hlt _].
    apply bool_decide_eq_true in Hlt.
    split; [done|]. split.
    + rewrite !placed_cons, length_app. simpl. lia.
    + intros Hall. apply Forall_cons in Hall as [Hb Hrest].
      constructor; [|done]. unfold within10 in *. rewrite length_app. simpl. lia.
  - destruct (placeConstrained item rest) as [rest'|] eqn:Hrest; [|done].
    injection H as <-. destruct (IH rest' eq_refl) as (Hlen & Hplaced & Hall).
    split; [simpl; lia|]. split.
    + rewrite !placed_cons. lia.
    + intros Hw. apply Forall_cons in Hw as [Hb Hw]. constructor; auto.
Qed.

Lemma placeConstrained_full item batches :
  Forall full10 batches → placeConstrained item batches = None.
Proof.
  induction 1 as [|batch rest Hb _ IH]; simpl; [done|].
  unfold full10 in Hb. rewrite bool_decide_eq_false_2 by lia. simpl.
  by rewrite IH.
Qed.

Lemma placeOverflow_length item batches :
  length (placeOverflow item batches) = length batches.
Proof.
  induction batches as [|batch rest IH]; simpl; [done|].
  destruct (bool_decide (length batch < 10)%nat); simpl; lia.
Qed.

Lemma placeOverflow_within item batches :
  Forall within10 batches → Forall within10 (placeOverflow item batches).
Proof.
  induction 1 as [|batch rest Hb Hrest IH]; simpl; [constructor|].
  destruct (bool_decide (length batch < 10)%nat) eqn:Hlt.
  - apply bool_decide_eq_true in Hlt. constructor; [|done].
    unfold within10. rewrite length_app. simpl. lia.
  - by constructor.
Qed.

(** The overflow loop places the item unless every batch is full. *)
Lemma placeOverflow_placed item batches :
  Forall within10 batches →
  placed (placeOverflow item batches) = S (placed batches)
  ∨ (Forall full10 batches ∧ placeOverflow item batches = batches).
Proof.
  induction 1 as [|batch rest Hb Hrest IH]; simpl; [right; by split|].
  destruct (bool_decide (length batch < 10)%nat) eqn:Hlt.
  - apply bool_decide_eq_true in Hlt. left.
    rewrite !placed_cons, length_app. simpl. lia.
  - apply bool_decide_eq_false in Hlt. destruct IH as [IH|[Hfull Heq]].
    + left. rewrite !placed_cons. lia.
    + right. split; [|by rewrite Heq].
      constructor; [|done]. unfold full10, within10 in *. lia.
Qed.

Lemma placeOverflow_full item batches :
  Forall full10 batches → placeOverflow item batches = batches.
Proof.
  induction 1 as [|batch rest Hb _ IH]; simpl; [done|].
  unfold full10 in Hb. rewrite bool_decide_eq_false_2 by lia. by rewrite IH.
Qed.

Lemma placeItem_distributed size n batches item :
  distributed size n batches → distributed size (S n) (placeItem batches item).
Proof.
  intros (Hsize & Hw & [Hn|Hfull]); unfold placeItem.
  - destruct (placeConstrained item batches) as [batches'|] eqn:Hc.
    + apply placeConstrained_Some in Hc as (Hlen & Hplaced & Hall).
      split; [lia|]. split; [auto|]. left. lia.
    + split; [by rewrite placeOverflow_length|].
      split; [by apply placeOverflow_within|].
      destruct (placeOverflow_placed item batches Hw) as [Hp|[Hfull Heq]].
      * left. lia.
      * right. by rewrite Heq.
  - rewrite (placeConstrained_full item batches Hfull).
    rewrite (placeOverflow_full item batches Hfull).
    split; [done|]. split; [done|]. by right.
Qed.

Lemma distributeItems_distributed size n batches items :
  distributed size n batches →
  distributed size (n + length items) (distributeItems items batches).
Proof.
  unfold distributeItems. revert n batches.
  induction items as [|item items IH]; intros n batches Hd; simpl.
  - by rewrite Nat.add_0_r.
  - replace (n + S (length items))%nat with (S n + length items)%nat by lia.
    by apply IH, placeItem_distributed.
Qed.

Lemma placed_full_bound batches :
  Forall within10 batches → (10 * length batches ≤ placed batches)%nat →
  Forall full10 batches.
Proof.
  induction 1 as [|batch rest Hb Hrest IH]; intros Hle; [constructor|].
  rewrite placed_cons in Hle. simpl length in Hle.
  assert (placed rest ≤ 10 * length rest)%nat as Hub.
  { clear -Hrest. induction Hrest as [|b r Hb _ IH]; [done|].
    rewrite placed_cons. unfold within10 in Hb. simpl length. lia. }
  unfold within10 in Hb.
  constructor; [unfold full10; lia|]. apply IH. lia.
Qed.

Lemma placed_replicate_nil n : placed (replicate n []) = 0%nat.
Proof.
  induction n as [|n IH]; [done|].
  change (replicate (S n) []) with (@nil Candidate :: replicate n []).
  by rewrite placed_cons, IH.
Qed.

(** After both groups went through, every batch holds exactly 10 items. *)
Lemma distributedBatches_full rankedFeedItems :
  length (distributedBatches rankedFeedItems) = (length rankedFeedItems / 10)%nat
  ∧ Forall full10 (distributedBatches rankedFeedItems).
Proof.
  unfold distributedBatches, JS.floor_div.
  set (groups := splitByMedian (medianWordCount rankedFeedItems) rankedFeedItems).
  set (size := (length rankedFeedItems / 10)%nat).
  assert (distributed size 0 (replicate size [])) as H0.
  { split; [by rewrite length_replicate|]. split.
    - apply Forall_replicate. unfold within10. simpl. lia.
    - left. apply placed_replicate_nil. }
  apply (distributeItems_distributed _ _ _ groups.2) in H0.
  apply (distributeItems_distributed _ _ _ groups.1) in H0.
  destruct H0 as (Hsize & Hw & Hn). split; [done|].
  destruct Hn as [Hn|Hfull]; [|done].
  apply placed_full_bound; [done|]. rewrite Hsize, Hn.
  pose proof (splitByMedian_length (medianWordCount rankedFeedItems)
                rankedFeedItems) as Hlen.
  fold groups in Hlen. unfold size.
  pose proof (Nat.Div0.mul_div_le (length rankedFeedItems) 10). lia.
Qed.

(** ** Mixer: the sections of a batch *)

Lemma batchSections_five batch :
  (5 ≤ length batch)%nat → batchSections batch = Returned (sectionsOf batch).
Proof.
  intros Hlen.
  do 5 (destruct batch as [|? batch]; [simpl in Hlen; lia|]).
  reflexivity.
Qed.

(** A batch short of 5 items makes the loop read a missing element. *)
Lemma batchSections_short batch :
  (length batch < 5)%nat → ∃ msg, batchSections batch = Threw msg.
Proof.
  intros Hlen.
  do 5 (destruct batch as [|? batch]; [by eexists|]).
  simpl in Hlen. lia.
Qed.

Lemma collect_Returned {A} (f : list Candidate → Outcome (list A))
    (g : list Candidate → list A) batches :
  Forall (λ batch, f batch = Returned (g batch)) batches →
  collect (f <$> batches) = Returned (concat (g <$> batches)).
Proof.
  induction 1 as [|batch rest Hb _ IH]; [done|].
  rewrite !fmap_cons. simpl. by rewrite Hb, IH.
Qed.

Lemma sectionsOf_length batch : (5 ≤ length batch)%nat → length (sectionsOf batch) = 6%nat.
Proof.
  intros Hlen. unfold sectionsOf.
  rewrite length_app, length_fmap, length_take. cbn [length]. lia.
Qed.

(** The mixer never throws: its sections are those of its batches, in order. *)
Lemma mixFeedItems_Returned rankedFeedItems :
  mixFeedItems rankedFeedItems
  = Returned (concat (sectionsOf <$> distributedBatches rankedFeedItems)).
Proof.
  unfold mixFeedItems. apply collect_Returned.
  eapply Forall_impl; [apply distributedBatches_full|].
  intros batch Hfull. apply batchSections_five. unfold full10 in Hfull. lia.
Qed.

(** C6.  A batch that received at least 5 items yields five "long" sections,
    one for each of its first five items in order and each holding the one
    reference to that item, its identifier and its type, then one "quick
    links" section with the references to the items from position 5 on, of
    which there are at most 5; these six sections stand in the mixer's
    output at the batch's place. *)
Theorem mixFeedItems_batch_sections rankedFeedItems before batch after :
  distributedBatches rankedFeedItems = before ++ batch :: after →
  (5 ≤ length batch)%nat →
  let ref := λ item : Candidate,
               {| item_id := c_id item; item_type := c_type item |} in
  let long := λ item : Candidate,
                {| items := [ref item]; layout := "long" |} in
  ∃ i0 i1 i2 i3 i4 rest,
    batch = i0 :: i1 :: i2 :: i3 :: i4 :: rest
    ∧ (length rest ≤ 5)%nat
    ∧ let emitted := [long i0; long i1; long i2; long i3; long i4;
                      {| items := ref <$> rest; layout := "quick links" |}] in
      batchSections batch = Returned emitted
      ∧ ∃ earlier later,
          mixFeedItems rankedFeedItems = Returned (earlier ++ emitted ++ later)
          ∧ length earlier = (6 * length before)%nat.
Proof.
  intros Hsplit Hlen ref long.
  destruct (distributedBatches_full rankedFeedItems) as [_ Hfull].
  rewrite Hsplit in Hfull.
  apply Forall_app in Hfull as [Hbefore Hfull].
  apply Forall_cons in Hfull as [Hbatch _]. unfold full10 in Hbatch.
  destruct batch as [|i0 [|i1 [|i2 [|i3 [|i4 rest]]]]]; try (simpl in Hlen; lia).
  exists i0, i1, i2, i3, i4, rest.
  split; [done|]. split; [simpl in Hbatch; lia|]. cbv zeta. split; [done|].
  exists (concat (sectionsOf <$> before)), (concat (sectionsOf <$> after)).
  split.
  - rewrite mixFeedItems_Returned, Hsplit.
    by rewrite fmap_app, fmap_cons, concat_app, concat_cons.
  - clear -Hbefore. induction Hbefore as [|b r Hb _ IH]; [done|].
    rewrite fmap_cons, concat_cons, length_app, IH, sectionsOf_length.
    + simpl. lia.
    + unfold full10 in Hb. lia.
Qed.

Lemma mixFeedItems_batch_sections_witness :
  let rankedFeedItems := Sample.eleven in
  let ref := λ item : Candidate,
               {| item_id := c_id item; item_type := c_type item |} in
  let long := λ item : Candidate,
                {| items := [ref item]; layout := "long" |} in
  ∃ batch i0 i1 i2 i3 i4 rest,
    distributedBatches rankedFeedItems = [] ++ batch :: []
    ∧ batch = i0 :: i1 :: i2 :: i3 :: i4 :: rest
    ∧ (length rest ≤ 5)%nat
    ∧ let emitted := [long i0; long i1; long i2; long i3; long i4;
                      {| items := ref <$> rest; layout := "quick links" |}] in
      batchSections batch = Returned emitted
      ∧ ∃ earlier later,
          mixFeedItems rankedFeedItems = Returned (earlier ++ emitted ++ later)
          ∧ length earlier = (6 * length (@nil (list Candidate)))%nat.
Proof.
  intros rankedFeedItems ref long.
  pose (batch := hd [] (distributedBatches rankedFeedItems)).
  assert (distributedBatches rankedFeedItems = [] ++ batch :: []) as Hsplit
    by (vm_compute; reflexivity).
  assert (5 ≤ length batch)%nat as Hlen by (vm_compute; lia).
  destruct (mixFeedItems_batch_sections rankedFeedItems [] batch [] Hsplit Hlen)
    as (i0 & i1 & i2 & i3 & i4 & rest & H).
  exists batch, i0, i1, i2, i3, i4, rest. exact (conj Hsplit H).
Defined.

(** Of the eleven sample candidates, the first at or above the median word
    count is c5: the first section refers to it. *)
Example mixFeedItems_eleven_first_section :
  ∃ rest, mixFeedItems Sample.eleven
          = Returned ({| items := [{| item_id := "c5"; item_type := "library_item" |}];
                         layout := "long" |} :: rest)
          ∧ length rest = 5%nat.
Proof. eexists. split; [by vm_compute|done]. Qed.

(** C10.  For at least 10 candidates there is at least one batch, there are
    [floor(N / 10)] of them and each holds exactly 10 items when both groups
    have been distributed, so all [10 * floor(N / 10)] places are taken; the
    first five positions of every batch are defined, the mixer returns, and
    each of its "quick links" sections has 5 items. *)
Theorem distributedBatches_exactly_ten rankedFeedItems :
  (10 ≤ length rankedFeedItems)%nat →
  let batches := distributedBatches rankedFeedItems in
  batches ≠ []
  ∧ length batches = (length rankedFeedItems / 10)%nat
  ∧ Forall (λ batch, length batch = 10%nat) batches
  ∧ placed batches = (10 * (length rankedFeedItems / 10))%nat
  ∧ (∀ batch i, batch ∈ batches → (i < 5)%nat → is_Some (batch !! i))
  ∧ ∃ sections,
      mixFeedItems rankedFeedItems = Returned sections
      ∧ Forall (λ s, layout s = "quick links" → length (items s) = 5%nat) sections.
Proof.
  intros Hlen batches.
  destruct (distributedBatches_full rankedFeedItems) as [Hsize Hfull].
  fold batches in Hsize, Hfull.
  split; [|split; [done|split; [done|split; [|split]]]].
  - intros Hnil. rewrite Hnil in Hsize. cbn [length] in Hsize.
    assert (1 ≤ length rankedFeedItems / 10)%nat; [|lia].
    apply Nat.div_le_lower_bound; lia.
  - rewrite <- Hsize. clear -Hfull.
    induction Hfull as [|b r Hb _ IH]; [done|].
    rewrite placed_cons, IH. unfold full10 in Hb. simpl length. lia.
  - intros batch i Hin Hi. apply lookup_lt_is_Some_2.
    rewrite Forall_forall in Hfull. specialize (Hfull batch Hin).
    unfold full10 in Hfull. lia.
  - eexists. split; [apply mixFeedItems_Returned|]. fold batches.
    clear -Hfull. induction Hfull as [|b r Hb _ IH]; [constructor|].
    rewrite fmap_cons, concat_cons. apply Forall_app. split; [|done].
    unfold sectionsOf. apply Forall_app. split.
    + apply Forall_fmap, Forall_true. intros c. simpl. discriminate.
    + constructor; [|constructor]. intros _. simpl.
      rewrite length_fmap, length_drop. unfold full10 in Hb. lia.
Qed.

Lemma distributedBatches_exactly_ten_witness :
  let batches := distributedBatches Sample.eleven in
  batches ≠ []
  ∧ length batches = (length Sample.eleven / 10)%nat
  ∧ Forall (λ batch, length batch = 10%nat) batches
  ∧ placed batches = (10 * (length Sample.eleven / 10))%nat
  ∧ (∀ batch i, batch ∈ batches → (i < 5)%nat → is_Some (batch !! i))
  ∧ ∃ sections,
      mixFeedItems Sample.eleven = Returned sections
      ∧ Forall (λ s, layout s = "quick links" → length (items s) = 5%nat) sections.
Proof.
  apply (distributedBatches_exactly_ten Sample.eleven). vm_compute. lia.
Defined.

(** ** Mixer: diversity *)

Lemma placeConstrainedT_erase item batches :
  forget <$> placeConstrainedT item batches
  = placeConstrained item (forget batches).
Proof.
  induction batches as [|batch rest IH]; [done|].
  simpl. rewrite length_fmap.
  destruct (bool_decide (length batch < 5)%nat && checkConstraints (batch.*1) item).
  - simpl. by rewrite fmap_app.
  - rewrite <- IH. by destruct (placeConstrainedT item rest).
Qed.

Lemma placeOverflowT_erase item batches :
  forget (placeOverflowT item batches)
  = placeOverflow item (forget batches).
Proof.
  induction batches as [|batch rest IH]; [done|].
  simpl. rewrite length_fmap.
  destruct (bool_decide (length batch < 10)%nat); simpl.
  - by rewrite fmap_app.
  - by rewrite IH.
Qed.

Lemma placeItemT_erase batches item :
  forget (placeItemT batches item) = placeItem (forget batches) item.
Proof.
  unfold placeItemT, placeItem. rewrite <- placeConstrainedT_erase.
  destruct (placeConstrainedT item batches); simpl; [done|].
  apply placeOverflowT_erase.
Qed.

Lemma distributeItemsT_erase items batches :
  forget (distributeItemsT items batches)
  = distributeItems items (forget batches).
Proof.
  unfold distributeItemsT, distributeItems. revert batches.
  induction items as [|item items IH]; intros batches; [done|].
  simpl. by rewrite IH, placeItemT_erase.
Qed.

Lemma distributedBatchesT_erase rankedFeedItems :
  forget (distributedBatchesT rankedFeedItems)
  = distributedBatches rankedFeedItems.
Proof.
  unfold distributedBatchesT, distributedBatches.
  rewrite !distributeItemsT_erase. unfold forget. by rewrite fmap_replicate.
Qed.

Lemma checkConstraints_fitsAmong batch item :
  (length batch < 5)%nat → checkConstraints batch item = true →
  fitsAmong batch item.
Proof.
  intros Hlen Hc. unfold checkConstraints in Hc.
  repeat (apply andb_true_iff in Hc as [Hc ?]).
  repeat match goal with
         | H : bool_decide _ = true |- _ => apply bool_decide_eq_true in H
         end.
  unfold fitsAmong.
  repeat split; lia.
Qed.

Lemma firstFitChecked_nil : firstFitChecked [].
Proof. intros [|] ? ? H; discriminate. Qed.

Lemma firstFitChecked_snoc batch item rule :
  firstFitChecked batch →
  (rule = FirstFit → fitsAmong (batch.*1) item) →
  firstFitChecked (batch ++ [(item, rule)]).
Proof.
  intros Hb Hitem earlier item' later Heq.
  destruct later as [|last later _] using rev_ind.
  - apply app_inj_tail in Heq as [-> Heq]. injection Heq as -> ->. by apply Hitem.
  - rewrite app_comm_cons, app_assoc in Heq.
    apply app_inj_tail in Heq as [-> _]. by apply (Hb earlier item' later).
Qed.

Lemma placeConstrainedT_checked item batches batches' :
  placeConstrainedT item batches = Some batches' →
  Forall firstFitChecked batches → Forall firstFitChecked batches'.
Proof.
  revert batches'. induction batches as [|batch rest IH]; intros batches' H Hall;
    simpl in H; [done|].
  apply Forall_cons in Hall as [Hb Hrest].
  destruct (bool_decide (length batch < 5)%nat && checkConstraints (batch.*1) item)
    eqn:Hc.
  - injection H as <-. apply andb_true_iff in Hc as [Hlt Hc].
    apply bool_decide_eq_true in Hlt.
    constructor; [|done]. apply firstFitChecked_snoc; [done|]. intros _.
    apply checkConstraints_fitsAmong; [by rewrite length_fmap|done].
  - destruct (placeConstrainedT item rest) as [rest'|]; [|done].
    injection H as <-. constructor; [done|]. by apply IH.
Qed.

Lemma placeOverflowT_checked item batches :
  Forall firstFitChecked batches → Forall firstFitChecked (placeOverflowT item batches).
Proof.
  induction 1 as [|batch rest Hb Hrest IH]; simpl; [constructor|].
  destruct (bool_decide (length batch < 10)%nat).
  - constructor; [|done]. by apply firstFitChecked_snoc.
  - by constructor.
Qed.

Lemma distributeItemsT_checked items batches :
  Forall firstFitChecked batches →
  Forall firstFitChecked (distributeItemsT items batches).
Proof.
  unfold distributeItemsT. revert batches.
  induction items as [|item items IH]; intros batches Hall; [done|].
  simpl. apply IH. unfold placeItemT.
  destruct (placeConstrainedT item batches) as [batches'|] eqn:Hc.
  - by eapply placeConstrainedT_checked.
  - by apply placeOverflowT_checked.
Qed.

Lemma guard_fitsAmong batch item :
  bool_decide (length batch < 5)%nat && checkConstraints batch item = true
  ↔ fitsAmong batch item.
Proof.
  split.
  - intros H. apply andb_true_iff in H as [Hlt Hc].
    apply bool_decide_eq_true in Hlt. by apply checkConstraints_fitsAmong.
  - intros (Hlen & Ht & Ha & Hs & Hn). apply andb_true_iff. split.
    + by apply bool_decide_eq_true.
    + unfold checkConstraints. cbv zeta.
      repeat (apply andb_true_iff; split); apply bool_decide_eq_true; lia.
Qed.

Lemma guard_refuses batch item :
  bool_decide (length batch < 5)%nat && checkConstraints batch item = false →
  ¬ fitsAmong batch item.
Proof.
  intros Hfalse Hfits. apply guard_fitsAmong in Hfits. congruence.
Qed.

(** The first loop takes the first batch that accepts the item, and finds
    none only when every batch refuses it. *)
Lemma placeConstrained_cases item batches :
  match placeConstrained item batches with
  | Some batches' =>
      ∃ pre b post, batches = pre ++ b :: post
        ∧ Forall (λ b', ¬ fitsAmong b' item) pre ∧ fitsAmong b item
        ∧ batches' = pre ++ (b ++ [item]) :: post
  | None => Forall (λ b', ¬ fitsAmong b' item) batches
  end.
Proof.
  induction batches as [|batch rest IH]; simpl; [constructor|].
  destruct (bool_decide (length batch < 5)%nat && checkConstraints batch item)
    eqn:Hguard.
  - exists [], batch, rest. split; [done|]. split; [constructor|].
    split; [by apply guard_fitsAmong|done].
  - apply guard_refuses in Hguard.
    destruct (placeConstrained item rest) as [rest'|]; simpl.
    + destruct IH as (pre & b & post & -> & Hpre & Hb & ->).
      exists (batch :: pre), b, post. split; [done|].
      split; [by constructor|done].
    + by constructor.
Qed.

(** The second loop takes the first batch with fewer than 10 items, and
    leaves the batches as they are when there is none. *)
Lemma placeOverflow_cases item batches :
  (∃ pre b post, batches = pre ++ b :: post
     ∧ Forall (λ b', 10 ≤ length b')%nat pre ∧ (length b < 10)%nat
     ∧ placeOverflow item batches = pre ++ (b ++ [item]) :: post)
  ∨ (Forall (λ b', 10 ≤ length b')%nat batches
     ∧ placeOverflow item batches = batches).
Proof.
  induction batches as [|batch rest IH]; simpl; [right; by split|].
  case_bool_decide as Hlen.
  - left. exists [], batch, rest. by repeat split.
  - destruct IH as [(pre & b & post & -> & Hpre & Hb & ->)|[Hall ->]].
    + left. exists (batch :: pre), b, post. split; [done|].
      split; [constructor; [lia|done]|]. by split.
    + right. split; [constructor; [lia|done]|done].
Qed.

Lemma placeItem_cases batches item :
  (∃ pre b post, batches = pre ++ b :: post
     ∧ Forall (λ b', ¬ fitsAmong b' item) pre ∧ fitsAmong b item
     ∧ placeItem batches item = pre ++ (b ++ [item]) :: post)
  ∨ (Forall (λ b', ¬ fitsAmong b' item) batches
     ∧ ∃ pre b post, batches = pre ++ b :: post
         ∧ Forall (λ b', 10 ≤ length b')%nat pre ∧ (length b < 10)%nat
         ∧ placeItem batches item = pre ++ (b ++ [item]) :: post)
  ∨ (Forall (λ b', ¬ fitsAmong b' item) batches
     ∧ Forall (λ b', 10 ≤ length b')%nat batches
     ∧ placeItem batches item = batches).
Proof.
  unfold placeItem. pose proof (placeConstrained_cases item batches) as Hc.
  destruct (placeConstrained item batches) as [batches'|].
  - left. destruct Hc as (pre & b & post & ? & ? & ? & ?).
    by exists pre, b, post.
  - right. destruct (placeOverflow_cases item batches) as [Ho|[Hall Ho]].
    + left. by split.
    + right. by split.
Qed.

Lemma placeConstrainedT_cases item batches :
  match placeConstrainedT item batches with
  | Some batches' =>
      ∃ pre b post, batches = pre ++ b :: post ∧ fitsAmong (b.*1) item
        ∧ batches' = pre ++ (b ++ [(item, FirstFit)]) :: post
  | None => Forall (λ b', ¬ fitsAmong b' item) (forget batches)
  end.
Proof.
  induction batches as [|batch rest IH]; simpl; [constructor|].
  rewrite <- (length_fmap fst batch).
  destruct (bool_decide (length (batch.*1) < 5)%nat
            && checkConstraints (batch.*1) item) eqn:Hguard.
  - exists [], batch, rest. split; [done|].
    split; [by apply guard_fitsAmong|done].
  - apply guard_refuses in Hguard.
    destruct (placeConstrainedT item rest) as [rest'|]; simpl.
    + destruct IH as (pre & b & post & -> & Hb & ->).
      by exists (batch :: pre), b, post.
    + by constructor.
Qed.

Lemma placeOverflowT_cases item batches :
  placeOverflowT item batches = batches
  ∨ ∃ pre b post, batches = pre ++ b :: post
      ∧ placeOverflowT item batches = pre ++ (b ++ [(item, Overflow)]) :: post.
Proof.
  induction batches as [|batch rest IH]; simpl; [by left|].
  case_bool_decide as Hlen.
  - right. by exists [], batch, rest.
  - destruct IH as [->|(pre & b & post & -> & ->)]; [by left|].
    right. by exists (batch :: pre), b, post.
Qed.

(** The recorded rule is the first-fit one exactly when some batch accepts
    the item. *)
Lemma placeItemT_rule batches item :
  placeItemT batches item = batches
  ∨ ∃ pre b post rule, batches = pre ++ b :: post
      ∧ placeItemT batches item = pre ++ (b ++ [(item, rule)]) :: post
      ∧ (rule = FirstFit ↔ ∃ b', b' ∈ forget batches ∧ fitsAmong b' item).
Proof.
  unfold placeItemT. pose proof (placeConstrainedT_cases item batches) as Hc.
  destruct (placeConstrainedT item batches) as [batches'|].
  - right. destruct Hc as (pre & b & post & -> & Hb & ->).
    exists pre, b, post, FirstFit. split; [done|]. split; [done|].
    split; [|done]. intros _. exists (b.*1). split; [|done].
    unfold forget. rewrite fmap_app, fmap_cons.
    apply elem_of_app. right. by left.
  - destruct (placeOverflowT_cases item batches)
      as [->|(pre & b & post & Heq & ->)]; [by left|].
    right. exists pre, b, post, Overflow. split; [done|]. split; [done|].
    split; [done|]. intros (b' & Hin & Hfits).
    rewrite Forall_forall in Hc. by destruct (Hc b' Hin).
Qed.

(** C2 (as the code has it).  The batches of the mixer are what the placing
    step makes of the empty batches, over the long items and then the short
    ones.  For any batches and any item, the step does one of three things.
    When some batch accepts the item (it holds fewer than 5 items, none of
    them with the item's title, at most one with its author, at most one
    with its site name and at most one with its subscription name, absent
    values being equal to each other), the item is pushed onto the first
    such batch.  When every batch refuses it, it is pushed onto the first
    batch with fewer than 10 items, with no check.  When every batch refuses
    it and every batch holds 10 items or more, nothing changes.

    The recorded distribution is the same run with each pushed item paired
    with its rule: a step of it is the code's step once the rules are
    forgotten, and the rule it records is the first-fit one exactly when
    some batch accepts the item.  So in every batch of the mixer, an item
    recorded as placed by the first-fit rule was accepted by what the batch
    held then. *)
Theorem distributedBatches_firstFit_diverse rankedFeedItems :
  let groups := splitByMedian (medianWordCount rankedFeedItems) rankedFeedItems in
  let size := JS.floor_div (length rankedFeedItems) 10 in
  let refuses := λ (item : Candidate) (batch : list Candidate),
                   ¬ fitsAmong batch item in
  let full := λ batch : list Candidate, (10 ≤ length batch)%nat in
  distributedBatches rankedFeedItems
    = foldl placeItem (replicate size []) (groups.2 ++ groups.1)
  ∧ (∀ batches item,
       (∃ pre b post, batches = pre ++ b :: post
          ∧ Forall (refuses item) pre ∧ fitsAmong b item
          ∧ placeItem batches item = pre ++ (b ++ [item]) :: post)
       ∨ (Forall (refuses item) batches
          ∧ ∃ pre b post, batches = pre ++ b :: post
              ∧ Forall full pre ∧ (length b < 10)%nat
              ∧ placeItem batches item = pre ++ (b ++ [item]) :: post)
       ∨ (Forall (refuses item) batches ∧ Forall full batches
          ∧ placeItem batches item = batches))
  ∧ distributedBatchesT rankedFeedItems
    = foldl placeItemT (replicate size []) (groups.2 ++ groups.1)
  ∧ (∀ batches item,
       forget (placeItemT batches item) = placeItem (forget batches) item
       ∧ (placeItemT batches item = batches
          ∨ ∃ pre b post rule, batches = pre ++ b :: post
              ∧ placeItemT batches item = pre ++ (b ++ [(item, rule)]) :: post
              ∧ (rule = FirstFit
                 ↔ ∃ b', b' ∈ forget batches ∧ fitsAmong b' item)))
  ∧ forget (distributedBatchesT rankedFeedItems)
    = distributedBatches rankedFeedItems
  ∧ ∀ batch earlier item later,
      batch ∈ distributedBatchesT rankedFeedItems →
      batch = earlier ++ (item, FirstFit) :: later →
      fitsAmong (earlier.*1) item.
Proof.
  cbv zeta.
  split; [unfold distributedBatches, distributeItems; by rewrite foldl_app|].
  split; [apply placeItem_cases|].
  split; [unfold distributedBatchesT, distributeItemsT; by rewrite foldl_app|].
  split; [intros batches item; split;
          [apply placeItemT_erase|apply placeItemT_rule]|].
  split; [apply distributedBatchesT_erase|].
  intros batch earlier item later Hin Heq.
  assert (Forall firstFitChecked (distributedBatchesT rankedFeedItems)) as Hall.
  { unfold distributedBatchesT. do 2 apply distributeItemsT_checked.
    apply Forall_replicate, firstFitChecked_nil. }
  rewrite Forall_forall in Hall. by apply (Hall batch Hin earlier item later).
Qed.

(** The three cases of the placing step on two batches, the first holding a
    report: a second report of the same title goes to the second batch by
    the first-fit rule; with the second batch holding five items it goes to
    the first batch by the overflow rule; with both batches full it is
    dropped. *)
Example placeItem_three_cases :
  let a := Sample.reprint 0 in
  let b := Sample.reprint 1 in
  let five := take 5 Sample.eleven in
  let ten := take 10 Sample.eleven in
  placeItem [[a]; []] b = [[a]; [b]]
  ∧ placeItem [[a]; five] b = [[a; b]; five]
  ∧ placeItem [ten; ten] b = [ten; ten].
Proof. repeat split; by vm_compute. Qed.

(** C2 as stated fails: ten copies of one article under different ids all
    land in the one batch, the first by the first-fit rule and the others by
    the overflow rule, so the batch holds two items of different ids and the
    same title, and ten items of the same author, site and subscription. *)
Lemma distributedBatches_overflow_not_diverse :
  ∃ batch,
    distributedBatches Sample.reprints = [batch]
    ∧ (λ b : list (Candidate * Rule), b.*2) <$> distributedBatchesT Sample.reprints
      = [[FirstFit; Overflow; Overflow; Overflow; Overflow;
          Overflow; Overflow; Overflow; Overflow; Overflow]]
    ∧ (∃ a b, a ∈ batch ∧ b ∈ batch ∧ c_id a ≠ c_id b ∧ c_title a = c_title b)
    ∧ (∃ item, length (filter (sameAuthor item) batch) = 10%nat)
    ∧ (∃ item, length (filter (sameSite item) batch) = 10%nat)
    ∧ (∃ item, length (filter (sameSubscription item) batch) = 10%nat)
    ∧ ¬ diverse batch.
Proof.
  exists Sample.reprints.
  assert (∃ a b, a ∈ Sample.reprints ∧ b ∈ Sample.reprints
                 ∧ c_id a ≠ c_id b ∧ c_title a = c_title b) as Hpair.
  { exists (Sample.reprint 0), (Sample.reprint 1).
    split; [by apply (list_elem_of_lookup_2 _ 0%nat)|].
    split; [by apply (list_elem_of_lookup_2 _ 1%nat)|].
    split; [|reflexivity]. vm_compute. discriminate. }
  split; [by vm_compute|]. split; [by vm_compute|]. split; [done|].
  split; [exists (Sample.reprint 0); by vm_compute|].
  split; [exists (Sample.reprint 0); by vm_compute|].
  split; [exists (Sample.reprint 0); by vm_compute|].
  intros (Htitle & _). destruct Hpair as (a & b & Ha & Hb & Hid & Ht).
  by apply (Htitle a b).
Qed.

(** ** The job on an empty ranking *)

Lemma selectCandidates_world env user w :
  (selectCandidates env user w).2 = w.
Proof.
  unfold selectCandidates, bind, await, ret.
  destruct (searchLibraryItems env _ _); [|done].
  destruct (findSubscriptionsByNames env _ _); [|done].
  by destruct (findUnseenPublicItems env _ _).
Qed.

(** The ranker returns no candidate only when it was given none, and then it
    did not call the scoring service. *)
Lemma rankCandidates_nil env userId candidates w w' :
  rankCandidates env userId candidates w = (Returned [], w') →
  candidates = [] ∧ w' = w.
Proof.
  unfold rankCandidates. case_bool_decide as Hlen.
  - unfold ret. intros [= -> ->]. done.
  - unfold bind, callGetScores, ret.
    destruct (getScores env _) as [newScores|]; [|done].
    intros [= Hsort _]. exfalso.
    apply (f_equal length) in Hsort. rewrite sort_length in Hsort.
    simpl in Hsort. lia.
Qed.

(** C9.  When the ranking of the selected candidates yields none, the job
    returns normally and the world is as it was: nothing was written to the
    feed store, and nothing was sent to the scoring service. *)
Theorem updateJustReadFeed_no_candidates env data w user candidates w1 w2 :
  findActiveUser env (userId data) = Returned (Some user) →
  selectCandidates env user w = (Returned candidates, w1) →
  rankCandidates env (userId data) candidates w1 = (Returned [], w2) →
  updateJustReadFeed env data w = (Returned tt, w)
  ∧ redis (updateJustReadFeed env data w).2 = redis w.
Proof.
  intros Huser Hselect Hrank.
  assert (w1 = w) as ->.
  { pose proof (selectCandidates_world env user w) as Hw.
    by rewrite Hselect in Hw. }
  apply rankCandidates_nil in Hrank as Hnil. destruct Hnil as [-> ->].
  assert (updateJustReadFeed env data w = (Returned tt, w)) as Hjob.
  { unfold updateJustReadFeed, bind at 1, await. rewrite Huser.
    unfold bind at 1. rewrite Hselect.
    unfold bind. rewrite Hrank. done. }
  by rewrite Hjob.
Qed.

Lemma updateJustReadFeed_no_candidates_witness :
  let env := Sample.env 0 0 1700000000000 in
  let data := {| userId := "u1" |} in
  updateJustReadFeed env data Sample.world = (Returned tt, Sample.world)
  ∧ redis (updateJustReadFeed env data Sample.world).2 = redis Sample.world.
Proof.
  intros env data.
  apply (updateJustReadFeed_no_candidates env data Sample.world
           {| user_id := "u1" |} [] Sample.world Sample.world);
    reflexivity.
Defined.

(** ** Feed Store: the commands *)

Lemma get_put key z db : Redis.get key (Redis.put key z db) = z.
Proof.
  unfold Redis.get, Redis.put. destruct z as [|e z].
  - by rewrite lookup_delete_eq.
  - by rewrite lookup_insert_eq.
Qed.

Lemma get_put_ne key key' z db :
  key ≠ key' → Redis.get key' (Redis.put key z db) = Redis.get key' db.
Proof.
  intros Hne. unfold Redis.get, Redis.put. destruct z as [|e z].
  - by rewrite lookup_delete_ne.
  - by rewrite lookup_insert_ne.
Qed.

Lemma insert_entry_last z e :
  Forall (λ e', e'.1 < e.1) z → Redis.insert_entry e z = z ++ [e].
Proof.
  induction 1 as [|e' z He' _ IH]; [done|]. simpl.
  unfold Redis.entry_leb.
  rewrite (proj2 (Z.ltb_ge _ _)) by lia.
  rewrite (proj2 (Z.eqb_neq _ _)) by lia. simpl. by rewrite IH.
Qed.

(** An entry above all others, with a new member, goes to the end. *)
Lemma zadd1_last z e :
  Forall (λ e', e'.1 < e.1) z → e.2 ∉ z.*2 → Redis.zadd1 z e = z ++ [e].
Proof.
  intros Hlt Hnew. unfold Redis.zadd1.
  rewrite filter_all; [by apply insert_entry_last|].
  apply Forall_forall. intros e' He' Heq. apply Hnew. rewrite <- Heq.
  by apply list_elem_of_fmap_2.
Qed.

Lemma zadd_ascending scoreMembers z :
  StronglySorted (λ a b : Z * string, a.1 < b.1) (z ++ scoreMembers) →
  NoDup ((z ++ scoreMembers).*2) →
  Redis.zadd scoreMembers z = z ++ scoreMembers.
Proof.
  unfold Redis.zadd. revert z.
  induction scoreMembers as [|e es IH]; intros z Hs Hnd; simpl.
  - by rewrite app_nil_r.
  - rewrite zadd1_last.
    + rewrite IH; rewrite <- app_assoc; done.
    + apply StronglySorted_app in Hs as (Hlt & _ & _).
      apply Forall_forall. intros e' He'. apply Hlt; [done|by left].
    + rewrite fmap_app, fmap_cons in Hnd.
      apply NoDup_app in Hnd as (_ & Hdisj & _).
      intros Hin. apply (Hdisj _ Hin). by left.
Qed.

Lemma zremrangebyrank_small z :
  (length z ≤ 500)%nat →
  Redis.zremrangebyrank 0 (- (MAX_FEED_ITEMS + 1)) z = z.
Proof.
  intros Hlen. unfold Redis.zremrangebyrank, Redis.normalize, MAX_FEED_ITEMS.
  change (- (500 + 1) <? 0) with true. change (0 <? 0) with false. cbv iota.
  rewrite (proj2 (Z.ltb_lt _ _)); [done|lia].
Qed.

Lemma zremrangebyrank_large z :
  (500 < length z)%nat →
  Redis.zremrangebyrank 0 (- (MAX_FEED_ITEMS + 1)) z = drop (length z - 500) z.
Proof.
  intros Hlen. unfold Redis.zremrangebyrank, Redis.normalize, MAX_FEED_ITEMS.
  change (- (500 + 1) <? 0) with true. change (0 <? 0) with false. cbv iota.
  rewrite (proj2 (Z.ltb_ge _ _)) by lia.
  change (Z.to_nat (0 `max` 0)) with 0%nat.
  rewrite take_0. simpl. f_equal. lia.
Qed.

(** Trimming leaves the last 500 entries. *)
Lemma zremrangebyrank_drop z :
  Redis.zremrangebyrank 0 (- (MAX_FEED_ITEMS + 1)) z = drop (length z - 500) z.
Proof.
  destruct (decide (length z ≤ 500)%nat) as [Hle|Hgt].
  - rewrite zremrangebyrank_small by done.
    replace (length z - 500)%nat with 0%nat by lia. done.
  - apply zremrangebyrank_large. lia.
Qed.

Lemma zremrangebyscore_expired t z :
  Redis.zremrangebyscore Redis.NegInf (Redis.Fin t) z = filter (λ e, t < e.1) z.
Proof.
  unfold Redis.zremrangebyscore. apply list_filter_iff. intros e. simpl.
  rewrite Z.leb_le. split; [intros H; lia|intros H [_ H']; lia].
Qed.

Lemma zrevrangebyscore_all limit z :
  Z.of_nat (length z) ≤ limit →
  Redis.zrevrangebyscore Redis.PosInf Redis.NegInf 0 limit z
  = (λ e, (e.2, e.1)) <$> reverse z.
Proof.
  intros Hlimit. unfold Redis.zrevrangebyscore.
  rewrite filter_all by (apply Forall_true; done).
  rewrite drop_0, (proj2 (Z.ltb_ge _ _)) by lia.
  rewrite take_ge; [done|]. rewrite length_reverse. lia.
Qed.

(** ** Feed Store: appending *)

Lemma scoreMembersFrom_spec env sections k w :
  scoreMembersFrom env (Z.of_nat k) sections w
  = (Returned (imap (λ i s, (Date_now env (ticks w + i)%nat
                             + Z.of_nat (k + i) + 86400000,
                             JSON_stringify env s)) sections),
     advance w (length sections)).
Proof.
  revert k w. induction sections as [|s rest IH]; intros k w.
  - simpl. unfold ret, advance. rewrite Nat.add_0_r. by destruct w.
  - simpl. unfold bind at 1, now.
    replace (Z.of_nat k + 1) with (Z.of_nat (S k)) by lia.
    unfold bind. rewrite IH. unfold ret, advance. simpl.
    rewrite !Nat.add_0_r. f_equal.
    + f_equal. f_equal. apply imap_ext. intros i x _. simpl.
      replace (ticks w + S i)%nat with (S (ticks w + i)) by lia.
      replace (k + S i)%nat with (S (k + i)) by lia. done.
    + f_equal. lia.
Qed.

(** With a client, an append is the pipeline run after one clock reading
    per section and one for the expiry. *)
Lemma appendSectionsToFeed_exec env userId sections w :
  redisClient env = true →
  appendSectionsToFeed env userId sections w
  = execPipeline env (redisKey userId)
      (imap (λ i s, (rankScore env w i, JSON_stringify env s)) sections)
      (Date_now env (ticks w + length sections)%nat)
      {| redis := redis w; ticks := S (ticks w + length sections);
         scoreCalls := scoreCalls w |}.
Proof.
  intros Hclient.
  pose proof (scoreMembersFrom_spec env sections 0 w) as Hsm.
  change (Z.of_nat 0) with 0 in Hsm.
  unfold appendSectionsToFeed, requireRedis, bind, ret. rewrite Hclient, Hsm.
  unfold now, advance. simpl. done.
Qed.

Lemma appendSectionsToFeed_run env userId sections w :
  redisClient env = true →
  pipelineRejects env (redisKey userId) = None →
  let scoreMembers :=
    imap (λ i s, (rankScore env w i, JSON_stringify env s)) sections in
  let expireBefore := Date_now env (ticks w + length sections)%nat in
  appendSectionsToFeed env userId sections w
  = (Returned tt,
     {| redis :=
          Redis.put (redisKey userId)
            (filter (λ e, expireBefore < e.1)
               (drop (length (Redis.zadd scoreMembers (feedOf userId w)) - 500)
                     (Redis.zadd scoreMembers (feedOf userId w))))
            (redis w);
        ticks := S (ticks w + length sections);
        scoreCalls := scoreCalls w |}).
Proof.
  intros Hclient Hexec. cbv zeta.
  rewrite appendSectionsToFeed_exec by done.
  unfold execPipeline, feedOf. rewrite Hexec. simpl.
  by rewrite zremrangebyscore_expired, zremrangebyrank_drop.
Qed.

(** What [appendSectionsToFeed] leaves in the feed of the user. *)
Lemma appendSectionsToFeed_spec env userId sections w :
  redisClient env = true →
  pipelineRejects env (redisKey userId) = None →
  let scoreMembers :=
    imap (λ i s, (rankScore env w i, JSON_stringify env s)) sections in
  let expireBefore := Date_now env (ticks w + length sections)%nat in
  let w' := (appendSectionsToFeed env userId sections w).2 in
  (appendSectionsToFeed env userId sections w).1 = Returned tt
  ∧ feedOf userId w'
    = filter (λ e, expireBefore < e.1)
        (drop (length (Redis.zadd scoreMembers (feedOf userId w)) - 500)
              (Redis.zadd scoreMembers (feedOf userId w)))
  ∧ (∀ key, key ≠ redisKey userId →
       Redis.get key (redis w') = Redis.get key (redis w))
  ∧ ticks w' = S (ticks w + length sections)
  ∧ scoreCalls w' = scoreCalls w.
Proof.
  intros Hclient Hexec. cbv zeta.
  rewrite (appendSectionsToFeed_run env userId sections w Hclient Hexec). simpl.
  split; [done|]. split; [|split; [|done]].
  - unfold feedOf at 1. simpl. by rewrite get_put.
  - intros key Hne. by apply get_put_ne.
Qed.

(** Whether the pipeline resolves or is rejected, only the key of the user
    is written, the clock has been read once per section and once more, and
    no request went to the scoring service. *)
Lemma appendSectionsToFeed_frame env userId sections w :
  redisClient env = true →
  let w' := (appendSectionsToFeed env userId sections w).2 in
  (∀ key, key ≠ redisKey userId →
     Redis.get key (redis w') = Redis.get key (redis w))
  ∧ ticks w' = S (ticks w + length sections)
  ∧ scoreCalls w' = scoreCalls w.
Proof.
  intros Hclient. cbv zeta. rewrite appendSectionsToFeed_exec by done.
  unfold execPipeline.
  destruct (pipelineRejects env (redisKey userId)) as [[ran msg]|]; simpl;
    (split; [|done]); intros key Hne; by apply get_put_ne.
Qed.

(** ** Feed Store: the round trip *)

Lemma StronglySorted_lookup_2 {A} (R : relation A) (l : list A) :
  (∀ i j a b, (i < j)%nat → l !! i = Some a → l !! j = Some b → R a b) →
  StronglySorted R l.
Proof.
  induction l as [|x l IH]; intros H; constructor.
  - apply IH. intros i j a b Hij Ha Hb. by apply (H (S i) (S j)); [lia|..].
  - apply Forall_lookup. intros j b Hb. by apply (H 0%nat (S j)); [lia|..].
Qed.

Section round_trip.
Context (env : Env) (w : World) (sections : list FeedSection).

Hypothesis clock_monotone :
  ∀ i j, (i ≤ j)%nat → Date_now env i ≤ Date_now env j.

Lemma rankScore_increasing i j :
  (i < j)%nat → rankScore env w i < rankScore env w j.
Proof.
  intros Hij. unfold rankScore.
  pose proof (clock_monotone (ticks w + i)%nat (ticks w + j)%nat). lia.
Qed.

Lemma scoreMembers_ascending :
  StronglySorted (λ a b : Z * string, a.1 < b.1) (scoreMembersOf env w sections).
Proof.
  apply StronglySorted_lookup_2. intros i j a b Hij Ha Hb.
  unfold scoreMembersOf in *. rewrite list_lookup_imap in Ha, Hb.
  destruct (sections !! i); [|done]. destruct (sections !! j); [|done].
  injection Ha as <-. injection Hb as <-. simpl.
  by apply rankScore_increasing.
Qed.

Lemma scoreMembers_members :
  (scoreMembersOf env w sections).*2 = JSON_stringify env <$> sections.
Proof.
  unfold scoreMembersOf. rewrite fmap_imap, <- imap_const.
  by apply imap_ext.
Qed.

Lemma scoreMembers_first_lowest e :
  e ∈ (scoreMembersOf env w sections) → rankScore env w 0 ≤ e.1.
Proof.
  intros He. apply list_elem_of_lookup in He as [i Hi].
  unfold scoreMembersOf in Hi. rewrite list_lookup_imap in Hi.
  destruct (sections !! i); [|done]. injection Hi as <-. simpl.
  destruct i; [lia|]. pose proof (rankScore_increasing 0 (S i)). lia.
Qed.

End round_trip.

(** C7 (as the code has it).  Take at most 500 pairwise distinct sections
    that the JSON codec gives back as they were, a feed that is empty, a
    store that does not reject the pipeline of the append, a clock that does
    not run backwards and that moves by less than 24 hours while the
    sections are appended.  Appending them and then retrieving
    with no score ceiling and a limit of at least their number returns
    exactly these sections in reverse append order, each with its
    rank-score. *)
Theorem feed_round_trip env userId sections limit w :
  redisClient env = true →
  pipelineRejects env (redisKey userId) = None →
  feedOf userId w = [] →
  NoDup sections →
  Forall (λ s, JSON_parse env (JSON_stringify env s) = s) sections →
  (length sections ≤ 500)%nat →
  (∀ i j, (i ≤ j)%nat → Date_now env i ≤ Date_now env j) →
  Date_now env (ticks w + length sections)%nat < Date_now env (ticks w) + 86400000 →
  Z.of_nat (length sections) ≤ limit →
  ∃ w',
    appendSectionsToFeed env userId sections w = (Returned tt, w')
    ∧ getJustReadFeedSections env userId limit None w'
      = (Returned (reverse (imap (λ i s, (s, rankScore env w i)) sections)), w').
Proof.
  intros Hclient Hexec Hempty Hnd Hcodec Hlen Hclock Hday Hlimit.
  set (scoreMembers := scoreMembersOf env w sections).
  assert (length scoreMembers = length sections) as Hlen'
    by apply length_imap.
  assert (Redis.zadd scoreMembers [] = scoreMembers) as Hzadd.
  { apply (zadd_ascending scoreMembers []); simpl.
    - by apply scoreMembers_ascending.
    - unfold scoreMembers. rewrite scoreMembers_members.
      apply NoDup_fmap_2_strong; [|done].
      intros x y Hx Hy Heq. rewrite Forall_forall in Hcodec.
      rewrite <- (Hcodec x Hx), <- (Hcodec y Hy). by rewrite Heq. }
  eexists. split.
  { by apply appendSectionsToFeed_run. }
  fold (scoreMembersOf env w sections). fold scoreMembers. rewrite Hempty, Hzadd.
  replace (length scoreMembers - 500)%nat with 0%nat by lia. rewrite drop_0.
  rewrite filter_all.
  2:{ apply Forall_forall. intros e He.
      pose proof (scoreMembers_first_lowest env w sections Hclock e He) as Hlow.
      unfold rankScore in Hlow. rewrite Nat.add_0_r in Hlow. lia. }
  unfold getJustReadFeedSections, requireRedis, bind, ret. rewrite Hclient.
  simpl. rewrite get_put. f_equal. f_equal.
  rewrite zrevrangebyscore_all by lia.
  rewrite <- list_fmap_compose, fmap_reverse. f_equal.
  unfold scoreMembers, scoreMembersOf. rewrite fmap_imap. apply imap_ext.
  intros i s Hs. simpl. f_equal.
  rewrite Forall_lookup in Hcodec. by apply (Hcodec i).
Qed.

Lemma feed_round_trip_witness :
  ∃ w',
    appendSectionsToFeed Sample.storeEnv "u1" Sample.sections Sample.world
      = (Returned tt, w')
    ∧ getJustReadFeedSections Sample.storeEnv "u1" 10 None w'
      = (Returned (reverse (imap (λ i s, (s, rankScore Sample.storeEnv Sample.world i))
                                 Sample.sections)), w').
Proof.
  apply (feed_round_trip Sample.storeEnv "u1" Sample.sections 10 Sample.world).
  - reflexivity.
  - reflexivity.
  - reflexivity.
  - apply (bool_decide_unpack _). by vm_compute.
  - repeat constructor.
  - simpl. lia.
  - intros i j Hij. simpl. lia.
  - simpl. lia.
  - simpl. lia.
Defined.

(** C7 as stated fails on a list that holds a section twice: the sorted set
    keeps one entry per member, so the second pair only moves the score of
    the first, and the retrieval returns one entry where two were appended.
    It also fails on 501 distinct sections, of which the trim keeps 500. *)
Lemma repeated_section_breaks_round_trip :
  let env := Sample.storeEnv in
  let appended := [Sample.section1; Sample.section1] in
  let w' := (appendSectionsToFeed env "u1" appended Sample.world).2 in
  let many := Sample.longSections 0 501 in
  let w'' := (appendSectionsToFeed env "u1" many Sample.world).2 in
  (getJustReadFeedSections env "u1" 10 None w').1
    = Returned [(Sample.section1, 1700086400002)]
  ∧ (getJustReadFeedSections env "u1" 10 None w').1
    ≠ Returned (reverse (imap (λ i s, (s, rankScore env Sample.world i)) appended))
  ∧ length many = 501%nat
  ∧ length <$> (getJustReadFeedSections env "u1" 501 None w'').1
    = Returned 500%nat.
Proof.
  split; [by vm_compute|]. split; [vm_compute; discriminate|].
  split; by vm_compute.
Qed.

(** ** Feed Store: the order of a sorted set *)

Lemma String_leb_iff a b :
  String.leb a b = true ↔ a = b ∨ String_as_OT.lt a b.
Proof.
  unfold String.leb. destruct (String.compare a b) eqn:Hc.
  - apply String.compare_eq_iff in Hc. split; [by left|done].
  - apply String_as_OT.cmp_lt in Hc. split; [by right|done].
  - split; [done|]. intros [Heq|Hlt].
    + apply String_as_OT.cmp_eq in Heq. unfold String_as_OT.cmp in Heq. congruence.
    + apply String_as_OT.cmp_lt in Hlt. unfold String_as_OT.cmp in Hlt. congruence.
Qed.

Lemma String_leb_trans a b c :
  String.leb a b = true → String.leb b c = true → String.leb a c = true.
Proof.
  rewrite !String_leb_iff. intros [->|Hab] [->|Hbc]; auto.
  right. by apply (String_as_OT.lt_trans a b c).
Qed.

Lemma entry_le_iff a b :
  entry_le a b ↔ a.1 < b.1 ∨ (a.1 = b.1 ∧ String.leb a.2 b.2 = true).
Proof.
  unfold entry_le, Redis.entry_leb.
  rewrite orb_true_iff, andb_true_iff, Z.ltb_lt, Z.eqb_eq. done.
Qed.

Lemma entry_le_score a b : entry_le a b → a.1 ≤ b.1.
Proof. rewrite entry_le_iff. lia. Qed.

#[local] Instance entry_le_trans : Transitive entry_le.
Proof.
  intros a b c. rewrite !entry_le_iff.
  intros [Hab|[Hab Hab']] [Hbc|[Hbc Hbc']]; try (left; lia).
  right. split; [lia|]. by apply (String_leb_trans _ b.2).
Qed.

Lemma entry_le_total a b : entry_le a b ∨ entry_le b a.
Proof.
  rewrite !entry_le_iff.
  destruct (Z.lt_trichotomy a.1 b.1) as [?|[Heq|?]]; [by left; left| |by right; left].
  destruct (String.leb_total a.2 b.2); [left|right]; right; split; done.
Qed.

Lemma insert_entry_elem_of e z x :
  x ∈ Redis.insert_entry e z ↔ x = e ∨ x ∈ z.
Proof.
  induction z as [|e' z IH]; simpl.
  - rewrite list_elem_of_singleton, elem_of_nil. tauto.
  - destruct (Redis.entry_leb e e'); rewrite !elem_of_cons; [done|].
    rewrite IH. tauto.
Qed.

Lemma insert_entry_sorted e z :
  StronglySorted entry_le z → StronglySorted entry_le (Redis.insert_entry e z).
Proof.
  induction 1 as [|e' z Hz IH He']; simpl; [by repeat constructor|].
  destruct (Redis.entry_leb e e') eqn:Hle.
  - constructor; [by constructor|]. constructor; [done|].
    eapply Forall_impl; [exact He'|]. intros x Hx. by trans e'.
  - constructor; [done|]. apply Forall_forall. intros x Hx.
    apply insert_entry_elem_of in Hx as [->|Hx].
    + destruct (entry_le_total e e') as [H|H]; [|done].
      unfold entry_le in H. congruence.
    + rewrite Forall_forall in He'. by apply He'.
Qed.

Lemma StronglySorted_filter {A} (R : relation A) (P : A → Prop)
    `{∀ x, Decision (P x)} (l : list A) :
  StronglySorted R l → StronglySorted R (filter P l).
Proof.
  induction 1 as [|x l Hl IH Hx]; [constructor|].
  rewrite filter_cons. destruct (decide (P x)); [|done].
  constructor; [done|]. apply Forall_forall. intros y Hy.
  apply list_elem_of_filter in Hy as [_ Hy].
  rewrite Forall_forall in Hx. by apply Hx.
Qed.

Lemma StronglySorted_drop {A} (R : relation A) n (l : list A) :
  StronglySorted R l → StronglySorted R (drop n l).
Proof.
  intros Hl. rewrite <- (take_drop n l) in Hl.
  by apply StronglySorted_app in Hl as (_ & _ & Hl).
Qed.

Lemma zadd_sorted scoreMembers z :
  StronglySorted entry_le z → StronglySorted entry_le (Redis.zadd scoreMembers z).
Proof.
  unfold Redis.zadd. revert z.
  induction scoreMembers as [|e es IH]; intros z Hz; [done|].
  simpl. apply IH. unfold Redis.zadd1.
  by apply insert_entry_sorted, StronglySorted_filter.
Qed.

(** What trimming and expiry leave of a sorted set [z]: at most 500 entries,
    all above [t]; an entry left out is expired, or [z] had more than 500
    entries and the entry is no higher than any that stays. *)
Lemma trim_expire_spec t z :
  StronglySorted entry_le z →
  let kept := filter (λ e, t < e.1) (drop (length z - 500) z) in
  StronglySorted entry_le kept
  ∧ (length kept ≤ 500)%nat
  ∧ (∀ e, e ∈ kept → e ∈ z ∧ t < e.1)
  ∧ (∀ e, e ∈ z → e ∉ kept →
       e.1 ≤ t ∨ ((500 < length z)%nat ∧ ∀ k, k ∈ kept → e.1 ≤ k.1))
  ∧ ((500 ≤ length z)%nat →
     Forall (λ e, t < e.1) (drop (length z - 500) z) → length kept = 500%nat).
Proof.
  intros Hz kept.
  split; [by apply StronglySorted_filter, StronglySorted_drop|].
  split.
  { unfold kept. etrans; [apply length_filter|]. rewrite length_drop. lia. }
  split.
  { intros e He. apply list_elem_of_filter in He as [Ht He].
    split; [|done]. eapply subseteq_drop. exact He. }
  split.
  { intros e He Hout.
    rewrite <- (take_drop (length z - 500) z) in He, Hz.
    apply elem_of_app in He as [He|He].
    - right. split.
      + destruct (decide (500 < length z)%nat) as [|Hle]; [done|].
        replace (length z - 500)%nat with 0%nat in He by lia.
        rewrite take_0 in He. by apply elem_of_nil in He.
      + intros k Hk. apply list_elem_of_filter in Hk as [_ Hk].
        apply StronglySorted_app in Hz as (Hcross & _ & _).
        by apply entry_le_score, Hcross.
    - left. destruct (decide (t < e.1)) as [Hlt|]; [|lia].
      exfalso. apply Hout. apply list_elem_of_filter. done. }
  intros Hlen Hall. unfold kept. rewrite filter_all by done.
  rewrite length_drop. lia.
Qed.

(** ** Feed Store: capacity and expiry *)

Lemma zrevrangebyscore_unlimited limit z :
  limit < 0 →
  Redis.zrevrangebyscore Redis.PosInf Redis.NegInf 0 limit z
  = (λ e, (e.2, e.1)) <$> reverse z.
Proof.
  intros Hlimit. unfold Redis.zrevrangebyscore.
  rewrite filter_all by (apply Forall_true; done).
  by rewrite drop_0, (proj2 (Z.ltb_lt _ _)) by lia.
Qed.

Lemma appendAll_snoc env userId earlier sections w :
  appendAll env userId (earlier ++ [sections]) w
  = match appendAll env userId earlier w with
    | (Returned _, w1) => appendSectionsToFeed env userId sections w1
    | (Threw msg, w1) => (Threw msg, w1)
    end.
Proof.
  revert w. induction earlier as [|call earlier IH]; intros w; simpl.
  - unfold bind, ret.
    by destruct (appendSectionsToFeed env userId sections w) as [[[]|] ?].
  - unfold bind.
    destruct (appendSectionsToFeed env userId call w) as [[[]|] ?]; [|done].
    apply IH.
Qed.

Lemma insert_entry_Permutation e z : Redis.insert_entry e z ≡ₚ e :: z.
Proof.
  induction z as [|e' z IH]; simpl; [done|].
  destruct (Redis.entry_leb e e'); [done|].
  rewrite IH. apply Permutation_swap.
Qed.

Lemma zadd1_elem_of z e x :
  x ∈ Redis.zadd1 z e ↔ x = e ∨ (x ∈ z ∧ x.2 ≠ e.2).
Proof.
  unfold Redis.zadd1. rewrite insert_entry_elem_of, list_elem_of_filter. tauto.
Qed.

Lemma zadd1_wellFormed z e : wellFormed z → wellFormed (Redis.zadd1 z e).
Proof.
  intros [Hs Hnd]. split.
  - unfold Redis.zadd1. by apply insert_entry_sorted, StronglySorted_filter.
  - unfold Redis.zadd1. rewrite insert_entry_Permutation, fmap_cons.
    apply NoDup_cons. split.
    + intros Hin. apply list_elem_of_fmap in Hin as (x & Hx & Hin).
      apply list_elem_of_filter in Hin as [Hne _]. by apply Hne.
    + apply (sublist_NoDup _ z.*2); [done|apply fmap_sublist, sublist_filter].
Qed.

Lemma zadd_wellFormed scoreMembers z :
  wellFormed z → wellFormed (Redis.zadd scoreMembers z).
Proof.
  unfold Redis.zadd. revert z.
  induction scoreMembers as [|e es IH]; intros z Hz; [done|].
  simpl. by apply IH, zadd1_wellFormed.
Qed.

(** After ZADD an entry is one of the pairs given, or an old entry whose
    member is in none of them. *)
Lemma zadd_elem_of scoreMembers z x :
  x ∈ Redis.zadd scoreMembers z →
  x ∈ scoreMembers ∨ (x ∈ z ∧ x.2 ∉ scoreMembers.*2).
Proof.
  unfold Redis.zadd. revert z.
  induction scoreMembers as [|e es IH]; intros z Hx; simpl in *.
  - right. split; [done|]. apply not_elem_of_nil.
  - apply IH in Hx as [Hx|[Hx Hnew]]; [left; by right|].
    apply zadd1_elem_of in Hx as [->|[Hx Hne]]; [left; by left|].
    right. split; [done|]. apply not_elem_of_cons. done.
Qed.

Lemma not_elem_of_members (es : list (Z * string)) (m : string) :
  m ∉ es.*2 ↔ ∀ j y, es !! j = Some y → y.2 ≠ m.
Proof.
  split.
  - intros Hnot j y Hy Heq. apply Hnot. rewrite <- Heq.
    apply list_elem_of_fmap_2. by eapply list_elem_of_lookup_2.
  - intros Hall Hin. apply list_elem_of_fmap in Hin as (y & -> & Hy).
    apply list_elem_of_lookup in Hy as [j Hj]. by apply (Hall j y).
Qed.

(** What ZADD leaves: of the pairs given, for each member the last one, and
    the old entries of the other members. *)
Lemma zadd_elem_of_iff scoreMembers z x :
  x ∈ Redis.zadd scoreMembers z
  ↔ (∃ i, scoreMembers !! i = Some x
          ∧ ∀ j y, (i < j)%nat → scoreMembers !! j = Some y → y.2 ≠ x.2)
    ∨ (x ∈ z ∧ x.2 ∉ scoreMembers.*2).
Proof.
  unfold Redis.zadd. revert z.
  induction scoreMembers as [|e es IH]; intros z.
  - simpl. split.
    + intros Hx. right. split; [done|]. apply not_elem_of_nil.
    + intros [(i & Hi & _)|[Hx _]]; [by rewrite lookup_nil in Hi|done].
  - cbn [foldl]. rewrite IH, zadd1_elem_of. split.
    + intros [(i & Hi & Hlater)|[[->|[Hx Hne]] Hnew]].
      * left. exists (S i). split; [done|]. intros [|j] y Hij Hy; [lia|].
        apply (Hlater j y); [lia|done].
      * left. exists 0%nat. split; [done|]. intros [|j] y Hij Hy; [lia|].
        simpl in Hy. exact (proj1 (not_elem_of_members es e.2) Hnew j y Hy).
      * right. split; [done|]. rewrite fmap_cons.
        apply not_elem_of_cons. split; [done|]. done.
    + intros [([|i] & Hi & Hlater)|[Hx Hnew]].
      * simpl in Hi. injection Hi as <-. right. split; [by left|].
        apply (proj2 (not_elem_of_members es e.2)). intros j y Hy.
        apply (Hlater (S j) y); [lia|done].
      * left. exists i. split; [done|]. intros j y Hij Hy.
        apply (Hlater (S j) y); [lia|done].
      * rewrite fmap_cons in Hnew. apply not_elem_of_cons in Hnew as [Hne Hnew].
        right. split; [|done]. right. done.
Qed.

(** The entries present after the insertion of an append are those the
    ZADD of its pairs leaves. *)
Lemma presentAfter_zadd env w sections old e :
  presentAfter env w sections old e
  ↔ e ∈ Redis.zadd (scoreMembersOf env w sections) old.
Proof.
  rewrite zadd_elem_of_iff. unfold presentAfter, scoreMembersOf.
  assert (∀ j y, imap (λ i s, (rankScore env w i, JSON_stringify env s)) sections
                   !! j = Some y
                 ↔ ∃ s, sections !! j = Some s
                        ∧ y = (rankScore env w j, JSON_stringify env s)) as Hlook.
  { intros j y. rewrite list_lookup_imap.
    destruct (sections !! j) as [s|]; simpl.
    - split; [intros [= <-]; by eexists|intros (s' & [= <-] & ->); done].
    - split; [done|intros (s' & ? & _); done]. }
  split.
  - intros [(i & s & Hi & -> & Hlater)|[Hold Hnew]].
    + left. exists i. split; [apply Hlook; by eexists|].
      intros j y Hij Hy. apply Hlook in Hy as (s' & Hs' & ->). simpl.
      by apply (Hlater j s').
    + right. split; [done|]. apply (proj2 (not_elem_of_members _ e.2)).
      intros j y Hy. apply Hlook in Hy as (s' & Hs' & ->). simpl.
      apply Hnew. by eapply list_elem_of_lookup_2.
  - intros [(i & Hi & Hlater)|[Hold Hnew]].
    + apply Hlook in Hi as (s & Hs & ->).
      left. exists i, s. split; [done|]. split; [done|].
      intros j s' Hij Hs'.
      apply (Hlater j (rankScore env w j, JSON_stringify env s')); [done|].
      apply Hlook. by eexists.
    + right. split; [done|]. intros s Hs.
      apply list_elem_of_lookup in Hs as [j Hj].
      apply (proj1 (not_elem_of_members _ e.2) Hnew j
               (rankScore env w j, JSON_stringify env s)).
      apply Hlook. by eexists.
Qed.

Lemma wellFormed_NoDup z : wellFormed z → NoDup z.
Proof. intros [_ Hnd]. by apply (NoDup_fmap_1 snd). Qed.

(** Trimming and expiry keep the highest: an entry left out is expired or
    has 500 other entries at or above its rank-score, and when 500 entries
    are not expired, 500 are kept. *)
Lemma trim_expire_top t z :
  wellFormed z →
  let kept := filter (λ e, t < e.1) (drop (length z - 500) z) in
  (∀ e, e ∈ z → e ∉ kept →
     e.1 ≤ t
     ∨ ∃ higher, NoDup higher ∧ length higher = 500%nat
                 ∧ ∀ k, k ∈ higher → k ∈ z ∧ e.1 ≤ k.1 ∧ k ≠ e)
  ∧ (∀ fresh, NoDup fresh → length fresh = 500%nat →
       (∀ k, k ∈ fresh → k ∈ z ∧ t < k.1) → length kept = 500%nat).
Proof.
  intros Hwf kept. pose proof (wellFormed_NoDup z Hwf) as Hnd.
  destruct Hwf as [Hs _].
  set (n := (length z - 500)%nat) in *.
  rewrite <- (take_drop n z) in Hs, Hnd.
  apply StronglySorted_app in Hs as (Hcross & _ & Hdrop).
  apply NoDup_app in Hnd as (_ & Hdisj & Hnd_drop).
  split.
  - intros e He Hout. rewrite <- (take_drop n z) in He.
    apply elem_of_app in He as [He|He].
    + right. exists (drop n z). split; [done|]. split.
      * rewrite length_drop.
        destruct (decide (500 < length z)%nat) as [|Hle]; [unfold n; lia|].
        replace n with 0%nat in He by (unfold n; lia).
        rewrite take_0 in He. by apply elem_of_nil in He.
      * intros k Hk. split; [by eapply subseteq_drop|].
        split; [by apply entry_le_score, Hcross|].
        intros ->. by apply (Hdisj e).
    + left. destruct (decide (t < e.1)) as [Hlt|]; [|lia].
      exfalso. apply Hout. by apply list_elem_of_filter.
  - intros fresh Hfresh Hlen Hall.
    assert (500 ≤ length z)%nat as Hz.
    { rewrite <- Hlen. apply submseteq_length, NoDup_submseteq; [done|].
      intros k Hk. by apply Hall. }
    assert (length (drop n z) = 500%nat) as Hlen_drop
      by (rewrite length_drop; unfold n; lia).
    unfold kept. rewrite filter_all; [done|].
    apply Forall_forall. intros k Hk.
    destruct (decide (t < k.1)) as [|Hexpired]; [done|]. exfalso.
    apply list_elem_of_split in Hk as (before & after & Hsplit).
    assert (500 ≤ length after)%nat as Hafter.
    { rewrite <- Hlen. apply submseteq_length, NoDup_submseteq; [done|].
      intros x Hx. destruct (Hall x Hx) as [Hxz Hxt].
      rewrite <- (take_drop n z), Hsplit in Hxz.
      rewrite Hsplit in Hcross, Hdrop.
      apply StronglySorted_app in Hdrop as (Hcross' & _ & _).
      apply elem_of_app in Hxz as [Hxz|Hxz].
      - assert (entry_le x k) as Hle.
        { apply Hcross; [done|]. apply elem_of_app. right. by left. }
        apply entry_le_score in Hle. lia.
      - apply elem_of_app in Hxz as [Hxz|Hxz].
        + assert (entry_le x k) as Hle by (apply Hcross'; [done|by left]).
          apply entry_le_score in Hle. lia.
        + apply elem_of_cons in Hxz as [->|Hxz]; [lia|done]. }
    rewrite Hsplit, length_app in Hlen_drop. simpl in Hlen_drop. lia.
Qed.

(** Appends whose pipeline is not rejected, on a feed that is a sorted set,
    return and leave the feed a sorted set. *)
Lemma appendAll_wellFormed env userId calls w :
  redisClient env = true →
  pipelineRejects env (redisKey userId) = None →
  wellFormed (feedOf userId w) →
  ∃ w', appendAll env userId calls w = (Returned tt, w')
        ∧ wellFormed (feedOf userId w').
Proof.
  intros Hclient Hexec. revert w.
  induction calls as [|sections calls IH]; intros w Hw; simpl.
  - by exists w.
  - unfold bind.
    rewrite (appendSectionsToFeed_run env userId sections w Hclient Hexec).
    apply IH. unfold feedOf at 1. simpl. rewrite get_put.
    apply (zadd_wellFormed
             (imap (λ i s, (rankScore env w i, JSON_stringify env s)) sections))
      in Hw as [Hs Hnd].
    split.
    + by apply StronglySorted_filter, StronglySorted_drop.
    + eapply (sublist_NoDup _ _ Hnd), fmap_sublist.
      etrans; [apply sublist_filter|apply sublist_drop].
Qed.

(** C8.  Start from a feed that is a sorted set and run any appends for a
    user, none of them rejected by the store, the last of them with
    [sections].  All return.  After the last one the feed holds at most 500
    entries.  Each is present after the insertion (the pair of rank-score
    and encoding of a section of this append, or an older entry of another
    member) and has a rank-score above the clock reading taken for the
    expiry.  An entry present after the insertion and missing from the feed
    is expired, or 500 other entries present then have a rank-score at least
    as high.  When 500 entries present after the insertion are not expired,
    exactly 500 are kept.  A retrieval without limit returns the feed, hence
    at most 500 entries. *)
Theorem feed_capacity env userId earlier sections w :
  redisClient env = true →
  pipelineRejects env (redisKey userId) = None →
  wellFormed (feedOf userId w) →
  ∃ w1 w',
    appendAll env userId earlier w = (Returned tt, w1)
    ∧ appendAll env userId (earlier ++ [sections]) w = (Returned tt, w')
    ∧ let present := presentAfter env w1 sections (feedOf userId w1) in
      let expireBefore := Date_now env (ticks w1 + length sections)%nat in
      let feed := feedOf userId w' in
      (length feed ≤ 500)%nat
      ∧ (∀ e, e ∈ feed → present e ∧ expireBefore < e.1)
      ∧ (∀ e, present e → e ∉ feed →
           e.1 ≤ expireBefore
           ∨ ∃ higher, NoDup higher ∧ length higher = 500%nat
                       ∧ ∀ k, k ∈ higher → present k ∧ e.1 ≤ k.1 ∧ k ≠ e)
      ∧ (∀ fresh, NoDup fresh → length fresh = 500%nat →
           (∀ k, k ∈ fresh → present k ∧ expireBefore < k.1) →
           length feed = 500%nat)
      ∧ ∃ entries,
          getJustReadFeedSections env userId (-1) None w' = (Returned entries, w')
          ∧ entries = (λ e, (JSON_parse env e.2, e.1)) <$> reverse feed
          ∧ (length entries ≤ 500)%nat.
Proof.
  intros Hclient Hexec Hwf.
  destruct (appendAll_wellFormed env userId earlier w Hclient Hexec Hwf)
    as (w1 & Hrun & Hwf1).
  destruct (appendSectionsToFeed_spec env userId sections w1 Hclient Hexec)
    as (Hret & Hfeed & _).
  destruct (appendSectionsToFeed env userId sections w1) as [result w'] eqn:Happend.
  simpl in Hret, Hfeed. subst result.
  exists w1, w'. split; [done|]. split.
  { by rewrite appendAll_snoc, Hrun. }
  cbv zeta. rewrite Hfeed. fold (scoreMembersOf env w1 sections).
  set (inserted := Redis.zadd (scoreMembersOf env w1 sections) (feedOf userId w1)).
  set (expireBefore := Date_now env _).
  assert (wellFormed inserted) as Hins by (by apply zadd_wellFormed).
  destruct (trim_expire_spec expireBefore inserted (proj1 Hins))
    as (_ & Hlen & Hin & _ & _).
  destruct (trim_expire_top expireBefore inserted Hins) as (Hout & Hfull).
  split; [done|]. split; [|split; [|split]].
  - intros e He. destruct (Hin e He) as [Hins' Ht].
    split; [by apply presentAfter_zadd|done].
  - intros e He Hmissing. apply presentAfter_zadd in He.
    destruct (Hout e He Hmissing) as [?|(higher & Hnd & Hlen' & Hall)]; [by left|].
    right. exists higher. split; [done|]. split; [done|].
    intros k Hk. destruct (Hall k Hk) as (Hkz & ? & ?).
    split; [by apply presentAfter_zadd|done].
  - intros fresh Hnd Hlen' Hall. apply (Hfull fresh Hnd Hlen').
    intros k Hk. destruct (Hall k Hk) as [Hp ?].
    split; [by apply presentAfter_zadd|done].
  - eexists. split; [|split; [reflexivity|]].
    + unfold getJustReadFeedSections, requireRedis, bind, ret. rewrite Hclient.
      simpl. fold (feedOf userId w'). rewrite Hfeed. f_equal. f_equal.
      rewrite zrevrangebyscore_unlimited by lia.
      by rewrite <- list_fmap_compose.
    + by rewrite length_fmap, length_reverse.
Qed.

(** Three appends of 200 distinct sections each, 600 entries in all. *)
Lemma feed_capacity_witness :
  let env := Sample.storeEnv in
  let earlier := [Sample.longSections 0 200; Sample.longSections 200 200] in
  let sections := Sample.longSections 400 200 in
  ∃ w1 w',
    appendAll env "u1" earlier Sample.world = (Returned tt, w1)
    ∧ appendAll env "u1" (earlier ++ [sections]) Sample.world = (Returned tt, w')
    ∧ let present := presentAfter env w1 sections (feedOf "u1" w1) in
      let expireBefore := Date_now env (ticks w1 + length sections)%nat in
      let feed := feedOf "u1" w' in
      (length feed ≤ 500)%nat
      ∧ (∀ e, e ∈ feed → present e ∧ expireBefore < e.1)
      ∧ (∀ e, present e → e ∉ feed →
           e.1 ≤ expireBefore
           ∨ ∃ higher, NoDup higher ∧ length higher = 500%nat
                       ∧ ∀ k, k ∈ higher → present k ∧ e.1 ≤ k.1 ∧ k ≠ e)
      ∧ (∀ fresh, NoDup fresh → length fresh = 500%nat →
           (∀ k, k ∈ fresh → present k ∧ expireBefore < k.1) →
           length feed = 500%nat)
      ∧ ∃ entries,
          getJustReadFeedSections env "u1" (-1) None w' = (Returned entries, w')
          ∧ entries = (λ e, (JSON_parse env e.2, e.1)) <$> reverse feed
          ∧ (length entries ≤ 500)%nat.
Proof.
  intros env earlier sections.
  apply (feed_capacity env "u1" earlier sections Sample.world).
  - reflexivity.
  - reflexivity.
  - split; constructor.
Defined.

(** On these three appends 500 of the 600 entries are kept, and the lowest
    rank-score kept is that of the 101st section. *)
Example six_hundred_sections_keep_500 :
  let env := Sample.storeEnv in
  let calls := [Sample.longSections 0 200; Sample.longSections 200 200;
                Sample.longSections 400 200] in
  let w' := (appendAll env "u1" calls Sample.world).2 in
  length (feedOf "u1" w') = 500%nat
  ∧ head (feedOf "u1" w') = Some (1700086400200, Sample.stringify
                                     {| items := [{| item_id := "100";
                                                     item_type := "library_item" |}];
                                        layout := "long" |}).
Proof. split; by vm_compute. Qed.

(** * Further properties of the job *)

(** ** Candidate Selector: failures, order and conversion *)

(** The selector throws exactly when one of its three queries throws, with
    the error of the first one that does, and the world is as before. *)
Theorem selectCandidates_throws env user w msg :
  selectCandidates env user w = (Threw msg, w)
  ↔ (searchLibraryItems env unseenQuery (user_id user) = Threw msg
     ∨ ∃ libraryItems,
         searchLibraryItems env unseenQuery (user_id user) = Returned libraryItems
         ∧ (findSubscriptionsByNames env (user_id user)
              (subscriptionNames libraryItems) = Threw msg
            ∨ ∃ subscriptions,
                findSubscriptionsByNames env (user_id user)
                  (subscriptionNames libraryItems) = Returned subscriptions
                ∧ findUnseenPublicItems env (user_id user) 100 = Threw msg)).
Proof.
  unfold selectCandidates, bind, await, ret. fold unseenQuery.
  destruct (searchLibraryItems env unseenQuery (user_id user))
    as [libraryItems|msg1] eqn:Hlib.
  2:{ split; intros H.
      - injection H as ->. by left.
      - destruct H as [H|(l & H1 & _)]; [|discriminate]. by injection H as ->. }
  destruct (findSubscriptionsByNames env (user_id user)
              (subscriptionNames libraryItems)) as [subscriptions|msg2] eqn:Hsub.
  2:{ split; intros H.
      - injection H as ->. right. exists libraryItems. split; [done|]. by left.
      - destruct H as [H|(l & H1 & H2)]; [discriminate|].
        injection H1 as <-. rewrite Hsub in H2.
        destruct H2 as [H2|(s & H2 & _)]; [|discriminate]. by injection H2 as ->. }
  destruct (findUnseenPublicItems env (user_id user) 100)
    as [publicItems|msg3] eqn:Hpub.
  - split; intros H; [discriminate|].
    destruct H as [H|(l & H1 & H2)]; [discriminate|].
    injection H1 as <-. rewrite Hsub in H2.
    destruct H2 as [H2|(s & _ & H3)]; discriminate.
  - split; intros H.
    + injection H as ->. right. exists libraryItems. split; [done|].
      right. by exists subscriptions.
    + destruct H as [H|(l & H1 & H2)]; [discriminate|].
      injection H1 as <-. rewrite Hsub in H2.
      destruct H2 as [H2|(s & _ & H3)]; [discriminate|]. by injection H3 as ->.
Qed.

(** The candidates come in the order of the sources, the saved items before
    the public ones: their ids are the ids of the first 70 saved items and
    then of the first public items that fit. *)
Theorem selectCandidates_order env user w libraryItems subscriptions publicItems :
  searchLibraryItems env unseenQuery (user_id user) = Returned libraryItems →
  findSubscriptionsByNames env (user_id user) (subscriptionNames libraryItems)
    = Returned subscriptions →
  findUnseenPublicItems env (user_id user) 100 = Returned publicItems →
  ∃ candidates,
    selectCandidates env user w = (Returned candidates, w)
    ∧ c_id <$> candidates
      = take 70 (li_id <$> libraryItems)
        ++ take (100 - 70 `min` length libraryItems) (pi_id <$> publicItems).
Proof.
  intros Hlib Hsub Hpub. eexists. split.
  - unfold selectCandidates, bind, await, ret. fold unseenQuery.
    rewrite Hlib, Hsub, Hpub. reflexivity.
  - rewrite (slice0_nonneg 70) by lia. change (Z.to_nat 70) with 70%nat.
    rewrite length_take, length_fmap.
    rewrite slice0_nonneg by lia.
    replace (Z.to_nat (100 - Z.of_nat (70 `min` length libraryItems)))
      with (100 - 70 `min` length libraryItems)%nat by lia.
    rewrite fmap_app, !fmap_take, <- !list_fmap_compose. done.
Qed.

Lemma selectCandidates_order_witness :
  ∃ candidates,
    selectCandidates (Sample.env 3 2 0) Sample.user Sample.world
      = (Returned candidates, Sample.world)
    ∧ c_id <$> candidates
      = take 70 (li_id <$> (Sample.libraryItem <$> seq 0 3))
        ++ take (100 - 70 `min` length (Sample.libraryItem <$> seq 0 3))
                (pi_id <$> (Sample.publicItem <$> seq 0 2)).
Proof.
  apply (selectCandidates_order (Sample.env 3 2 0) Sample.user Sample.world
           (Sample.libraryItem <$> seq 0 3) [] (Sample.publicItem <$> seq 0 2));
    reflexivity.
Defined.

(** A saved item is annotated with the first subscription whose name or url
    is the item's subscription, and stays without annotation exactly when no
    subscription of the list matches. *)
Theorem libraryItemToCandidate_subscription env item subscriptions :
  let matches := λ s : Subscription,
    Some (sub_name s) = li_subscription item ∨ sub_url s = li_subscription item in
  let candidate := libraryItemToCandidate env item subscriptions in
  (c_subscription candidate = None ↔ Forall (λ s, ¬ matches s) subscriptions)
  ∧ (∀ ref, c_subscription candidate = Some ref →
       ∃ earlier s later,
         subscriptions = earlier ++ s :: later
         ∧ Forall (λ s', ¬ matches s') earlier
         ∧ matches s
         ∧ ref = {| ref_name := sub_name s; ref_type := sub_type s |}).
Proof.
  cbv zeta. simpl.
  set (test := λ subscription : Subscription,
         bool_decide (Some (sub_name subscription) = li_subscription item)
         || bool_decide (sub_url subscription = li_subscription item)).
  assert (∀ s, test s = true
               ↔ Some (sub_name s) = li_subscription item
                 ∨ sub_url s = li_subscription item) as Htest.
  { intros s. unfold test.
    by rewrite orb_true_iff, !bool_decide_eq_true. }
  induction subscriptions as [|s0 rest [IHnone IHsome]]; simpl.
  - split; [done|]. intros ref [=].
  - destruct (test s0) eqn:Hs0; simpl.
    + split.
      * split; [done|]. intros Hall. apply Forall_cons in Hall as [Hno _].
        exfalso. by apply Hno, Htest.
      * intros ref [= <-]. exists [], s0, rest.
        split; [done|]. split; [constructor|]. split; [by apply Htest|done].
    + assert (¬ (Some (sub_name s0) = li_subscription item
                 ∨ sub_url s0 = li_subscription item)) as Hno.
      { rewrite <- Htest. by rewrite Hs0. }
      split.
      * rewrite IHnone. split; [by constructor|].
        intros Hall. by apply Forall_cons in Hall as [_ ?].
      * intros ref Href.
        destruct (IHsome ref Href) as (earlier & s & later & -> & Hearlier & Hs & ->).
        exists (s0 :: earlier), s, later.
        split; [done|]. split; [by constructor|]. done.
Qed.


(** An empty thumbnail is absent from the candidate of a saved item and
    stays an empty string in the candidate of a public item. *)
Example empty_thumbnail_by_origin :
  let saved := Sample.libraryItem 0 in
  let shared := Sample.publicItem 0 in
  c_thumbnail (libraryItemToCandidate (Sample.env 0 0 0)
                 {| li_id := li_id saved; li_title := li_title saved;
                    li_originalUrl := li_originalUrl saved;
                    li_thumbnail := Some "";
                    li_description := li_description saved;
                    li_itemLanguage := li_itemLanguage saved;
                    li_author := li_author saved;
                    li_directionality := li_directionality saved;
                    li_createdAt := li_createdAt saved;
                    li_topic := li_topic saved;
                    li_wordCount := li_wordCount saved;
                    li_siteName := li_siteName saved;
                    li_siteIcon := li_siteIcon saved;
                    li_folder := li_folder saved;
                    li_score := li_score saved;
                    li_publishedAt := li_publishedAt saved;
                    li_subscription := li_subscription saved |} [])
  = None
  ∧ c_thumbnail (publicItemToCandidate
                   {| pi_id := pi_id shared; pi_title := pi_title shared;
                      pi_url := pi_url shared; pi_thumbnail := Some "";
                      pi_previewContent := pi_previewContent shared;
                      pi_languageCode := pi_languageCode shared;
                      pi_author := pi_author shared; pi_dir := pi_dir shared;
                      pi_createdAt := pi_createdAt shared;
                      pi_topic := pi_topic shared;
                      pi_wordCount := pi_wordCount shared;
                      pi_siteIcon := pi_siteIcon shared;
                      pi_publishedAt := pi_publishedAt shared;
                      pi_source := pi_source shared |})
    = Some "".
Proof. by split. Qed.

(** ** Ranker: the request, the merge and the order of ties *)

(** When the scoring service fails on a list of more than 10 candidates the
    ranker fails with the same error, after its one request: there is no
    fallback order. *)
Theorem rankCandidates_scoring_fails env userId candidates w msg :
  (10 < length candidates)%nat →
  getScores env (scoreRequest userId candidates) = Threw msg →
  rankCandidates env userId candidates w
  = (Threw msg, afterScoreCall w (scoreRequest userId candidates)).
Proof.
  intros Hlen Hget. unfold rankCandidates.
  rewrite bool_decide_eq_false_2 by lia.
  unfold bind, callGetScores. fold (scoreRequest userId candidates).
  by rewrite Hget.
Qed.

Lemma rankCandidates_scoring_fails_witness :
  let env := Fixture.envOf (Returned None) (Returned []) (Returned [])
               (Returned []) (Threw "scoring service unavailable") true in
  rankCandidates env "u1" Sample.eleven Sample.world
  = (Threw "scoring service unavailable",
     afterScoreCall Sample.world (scoreRequest "u1" Sample.eleven)).
Proof.
  intros env.
  apply (rankCandidates_scoring_fails env "u1" Sample.eleven Sample.world).
  - vm_compute. lia.
  - reflexivity.
Defined.

Lemma foldl_snoc {A B} (f : A → B → A) acc l x :
  foldl f acc (l ++ [x]) = f (foldl f acc l) x.
Proof. by rewrite foldl_app. Qed.

Lemma itemFeatures_snoc candidates c :
  itemFeatures (candidates ++ [c])
  = match c_score c with
    | None => <[c_id c := featureOf c]> (itemFeatures candidates)
    | Some _ => itemFeatures candidates
    end.
Proof.
  unfold itemFeatures. rewrite filter_app.
  destruct (c_score c) as [s|] eqn:Hs.
  - rewrite (filter_cons_False _ c) by (by rewrite Hs). by rewrite app_nil_r.
  - rewrite (filter_cons_True _ c) by done. by rewrite filter_nil, foldl_snoc.
Qed.

Lemma preCalculatedScores_snoc candidates c :
  preCalculatedScores (candidates ++ [c])
  = match c_score c with
    | Some s => <[c_id c := s]> (preCalculatedScores candidates)
    | None => preCalculatedScores candidates
    end.
Proof.
  unfold preCalculatedScores. rewrite filter_app.
  destruct (c_score c) as [s|] eqn:Hs.
  - rewrite (filter_cons_True _ c) by (by rewrite Hs).
    by rewrite filter_nil, foldl_snoc, Hs.
  - rewrite (filter_cons_False _ c) by (rewrite Hs; auto). by rewrite app_nil_r.
Qed.

(** With distinct ids, the scores found on the candidates are looked up
    under their ids, and no other id has one. *)
Lemma preCalculatedScores_lookup candidates c :
  NoDup (c_id <$> candidates) → c ∈ candidates →
  preCalculatedScores candidates !! c_id c = c_score c.
Proof.
  induction candidates as [|x l IH] using rev_ind; intros Hnd Hin.
  - by apply elem_of_nil in Hin.
  - rewrite fmap_app in Hnd. apply NoDup_app in Hnd as (Hl & Hdisj & _).
    rewrite preCalculatedScores_snoc.
    apply elem_of_app in Hin as [Hin|Hin].
    + assert (c_id x ≠ c_id c) as Hne.
      { intros Heq. apply (Hdisj (c_id c)).
        - by apply list_elem_of_fmap_2.
        - rewrite <- Heq. simpl. by left. }
      destruct (c_score x); [rewrite lookup_insert_ne by done|]; by apply IH.
    + apply list_elem_of_singleton in Hin as ->.
      destruct (c_score x) as [s|] eqn:Hs; [by rewrite lookup_insert_eq|].
      destruct (preCalculatedScores l !! c_id x) as [v|] eqn:Hv; [|done].
      exfalso. clear IH Hl.
      assert (∀ l' id v', preCalculatedScores l' !! id = Some v' →
                          id ∈ c_id <$> l') as Hdom.
      { induction l' as [|y l' IH'] using rev_ind; intros id v' Hl'.
        - unfold preCalculatedScores in Hl'. rewrite filter_nil in Hl'.
          simpl in Hl'. by rewrite lookup_empty in Hl'.
        - rewrite preCalculatedScores_snoc in Hl'. rewrite fmap_app.
          apply elem_of_app.
          destruct (c_score y); [|left; by eapply IH'].
          destruct (decide (c_id y = id)) as [<-|Hne]; [right; simpl; by left|].
          rewrite lookup_insert_ne in Hl' by done. left. by eapply IH'. }
      apply (Hdisj (c_id x)); [by eapply Hdom|simpl; by left].
Qed.

(** The merged score of a candidate is the service's score for its id when
    the service gives one; otherwise, ids being distinct, it is the score
    the candidate carries, or zero when it carries none. *)
Theorem scoreOf_merged candidates newScores c :
  NoDup (c_id <$> candidates) →
  c ∈ candidates →
  scoreOf (mergeScores (preCalculatedScores candidates) newScores) c
  = match newScores !! c_id c with
    | Some fresh => fresh
    | None => default 0 (c_score c)
    end.
Proof.
  intros Hnd Hin. unfold scoreOf, mergeScores.
  rewrite lookup_union.
  rewrite (preCalculatedScores_lookup candidates c Hnd Hin).
  destruct (newScores !! c_id c) as [fresh|]; [|by destruct (c_score c)].
  by destruct (c_score c).
Qed.

Lemma scoreOf_merged_witness :
  let c := Sample.candidate "c4" "Title 4" 40 (Some 96) in
  scoreOf (mergeScores (preCalculatedScores Sample.eleven) Sample.answer) c
  = match Sample.answer !! c_id c with
    | Some fresh => fresh
    | None => default 0 (c_score c)
    end.
Proof.
  intros c. apply (scoreOf_merged Sample.eleven Sample.answer c).
  - apply (bool_decide_unpack _). by vm_compute.
  - by apply (list_elem_of_lookup_2 _ 4%nat).
Defined.

Lemma truthy_present (o : option string) :
  JS.truthy o = true ↔ ∃ s, o = Some s ∧ s ≠ "".
Proof.
  destruct o as [s|]; simpl.
  - rewrite negb_true_iff, bool_decide_eq_false. split.
    + intros Hne. by exists s.
    + intros (s' & [= <-] & Hne). done.
  - split; [done|]. by intros (s & ? & _).
Qed.

Lemma itemFeatures_entry candidates c :
  c ∈ candidates →
  c_score c = None →
  is_Some (itemFeatures candidates !! c_id c)
  ∧ (NoDup (c_id <$> candidates) →
     itemFeatures candidates !! c_id c = Some (featureOf c)).
Proof.
  intros Hin Hscore.
  induction candidates as [|x l IH] using rev_ind.
  - by apply elem_of_nil in Hin.
  - rewrite itemFeatures_snoc.
    apply elem_of_app in Hin as [Hin|Hin].
    + destruct (IH Hin) as [Hsome Hfeat].
      destruct (c_score x) as [s|].
      * split; [done|]. intros Hnd. rewrite fmap_app in Hnd.
        apply NoDup_app in Hnd as (Hl & _ & _). by apply Hfeat.
      * split.
        -- destruct (decide (c_id x = c_id c)) as [Heq|Hne].
           ++ rewrite Heq, lookup_insert_eq. by eexists.
           ++ by rewrite lookup_insert_ne.
        -- intros Hnd. rewrite fmap_app in Hnd.
           apply NoDup_app in Hnd as (Hl & Hdisj & _).
           rewrite lookup_insert_ne; [by apply Hfeat|].
           intros Heq. apply (Hdisj (c_id c)).
           ++ by apply list_elem_of_fmap_2.
           ++ rewrite <- Heq. simpl. by left.
    + apply list_elem_of_singleton in Hin as ->. rewrite Hscore.
      rewrite lookup_insert_eq. split; [by eexists|done].
Qed.

(** Every candidate without a score is in the request under its id, and
    with distinct ids the entry describes that candidate: its title, whether
    it has a thumbnail and a site icon (present and not empty), the date it
    was saved, its site name, language, text direction, folder, the type of
    its subscription when it has one, its author, word count and
    publication date. *)
Theorem itemFeatures_complete candidates c :
  c ∈ candidates →
  c_score c = None →
  is_Some (itemFeatures candidates !! c_id c)
  ∧ (NoDup (c_id <$> candidates) →
     ∃ f, itemFeatures candidates !! c_id c = Some f
          ∧ f_title f = c_title c
          ∧ (f_has_thumbnail f = true ↔ ∃ s, c_thumbnail c = Some s ∧ s ≠ "")
          ∧ (f_has_site_icon f = true ↔ ∃ s, c_siteIcon c = Some s ∧ s ≠ "")
          ∧ f_saved_at f = c_date c
          ∧ f_site f = c_siteName c
          ∧ f_language f = c_languageCode c
          ∧ f_directionality f = c_dir c
          ∧ f_folder f = c_folder c
          ∧ f_subscription_type f
            = match c_subscription c with
              | Some subscription => Some (ref_type subscription)
              | None => None
              end
          ∧ f_author f = c_author c
          ∧ f_word_count f = c_wordCount c
          ∧ f_published_at f = c_publishedAt c).
Proof.
  intros Hin Hscore.
  destruct (itemFeatures_entry candidates c Hin Hscore) as [Hsome Hfeat].
  split; [done|]. intros Hnd. exists (featureOf c).
  split; [by apply Hfeat|]. split; [done|].
  split; [apply truthy_present|]. split; [apply truthy_present|].
  repeat split; done.
Qed.

Lemma itemFeatures_complete_witness :
  let c := Sample.candidate "c3" "Title 3" 30 None in
  is_Some (itemFeatures Sample.eleven !! c_id c)
  ∧ (NoDup (c_id <$> Sample.eleven) →
     ∃ f, itemFeatures Sample.eleven !! c_id c = Some f
          ∧ f_title f = c_title c
          ∧ (f_has_thumbnail f = true ↔ ∃ s, c_thumbnail c = Some s ∧ s ≠ "")
          ∧ (f_has_site_icon f = true ↔ ∃ s, c_siteIcon c = Some s ∧ s ≠ "")
          ∧ f_saved_at f = c_date c
          ∧ f_site f = c_siteName c
          ∧ f_language f = c_languageCode c
          ∧ f_directionality f = c_dir c
          ∧ f_folder f = c_folder c
          ∧ f_subscription_type f
            = match c_subscription c with
              | Some subscription => Some (ref_type subscription)
              | None => None
              end
          ∧ f_author f = c_author c
          ∧ f_word_count f = c_wordCount c
          ∧ f_published_at f = c_publishedAt c).
Proof.
  intros c. apply (itemFeatures_complete Sample.eleven c).
  - by apply (list_elem_of_lookup_2 _ 3%nat).
  - reflexivity.
Defined.

(** The entry of c3 in the request for the eleven sample candidates. *)
Example itemFeatures_eleven_c3 :
  itemFeatures Sample.eleven !! "c3"
  = Some {| f_title := "Title 3"; f_has_thumbnail := false;
            f_has_site_icon := false; f_saved_at := 1700000000000;
            f_site := Some "site of c3"; f_language := "en";
            f_directionality := "ltr"; f_folder := Some "inbox";
            f_subscription_type := Some "rss";
            f_author := Some "author of c3"; f_word_count := 30;
            f_published_at := None |}.
Proof. by vm_compute. Qed.

(** *** Ties *)

Lemma sort_insert_filter_same {A} (key : A → Z) (k : Z) x l :
  key x = k →
  filter (λ a, key a = k) (JS.sort_insert (keyCmp key) x l)
  = x :: filter (λ a, key a = k) l.
Proof.
  intros Hx. induction l as [|y l IH]; simpl.
  - by rewrite filter_cons_True.
  - destruct (keyCmp key x y <=? 0) eqn:Hc.
    + by rewrite (filter_cons_True _ x).
    + apply Z.leb_gt in Hc. unfold keyCmp in Hc.
      rewrite (filter_cons_False _ y) by lia.
      rewrite (filter_cons_False _ y) by lia. done.
Qed.

Lemma sort_insert_filter_other {A} (key : A → Z) (k : Z) x l :
  key x ≠ k →
  filter (λ a, key a = k) (JS.sort_insert (keyCmp key) x l)
  = filter (λ a, key a = k) l.
Proof.
  intros Hx. induction l as [|y l IH]; simpl.
  - by rewrite filter_cons_False.
  - destruct (keyCmp key x y <=? 0).
    + by rewrite (filter_cons_False _ x).
    + rewrite !(filter_cons _ y). by rewrite IH.
Qed.

(** The sort keeps the elements of one key in their order. *)
Lemma sort_stable {A} (key : A → Z) (k : Z) l :
  filter (λ a, key a = k) (JS.sort (keyCmp key) l) = filter (λ a, key a = k) l.
Proof.
  induction l as [|x l IH]; [done|].
  change (JS.sort (keyCmp key) (x :: l))
    with (JS.sort_insert (keyCmp key) x (JS.sort (keyCmp key) l)).
  destruct (decide (key x = k)) as [Hx|Hx].
  - by rewrite sort_insert_filter_same, filter_cons_True, IH.
  - by rewrite sort_insert_filter_other, filter_cons_False, IH.
Qed.

(** Whatever the scores, with more than 10 candidates and an answer of the
    service the ranker returns a permutation of its input in ascending order
    of merged score in which the candidates of equal merged score keep the
    order they had in the input. *)
Theorem rankCandidates_ties_keep_order env userId candidates w newScores :
  (10 < length candidates)%nat →
  getScores env (scoreRequest userId candidates) = Returned newScores →
  let scores := mergeScores (preCalculatedScores candidates) newScores in
  ∃ ranked,
    rankCandidates env userId candidates w
      = (Returned ranked, afterScoreCall w (scoreRequest userId candidates))
    ∧ ranked ≡ₚ candidates
    ∧ Sorted (byScore scores) ranked
    ∧ ∀ score, filter (λ c, scoreOf scores c = score) ranked
               = filter (λ c, scoreOf scores c = score) candidates.
Proof.
  intros Hlen Hget scores.
  exists (JS.sort (keyCmp (scoreOf scores)) candidates).
  split; [|split; [|split]].
  - unfold rankCandidates. rewrite bool_decide_eq_false_2 by lia.
    unfold bind, callGetScores, ret. fold (scoreRequest userId candidates).
    by rewrite Hget.
  - apply sort_Permutation.
  - apply (sort_Sorted (scoreOf scores)).
  - intros score. apply sort_stable.
Qed.

Lemma rankCandidates_ties_keep_order_witness :
  let env := Sample.envWith 0 0 ∅ 0 [] in
  let scores := mergeScores (preCalculatedScores Sample.eleven) ∅ in
  ∃ ranked,
    rankCandidates env "u1" Sample.eleven Sample.world
      = (Returned ranked,
         afterScoreCall Sample.world (scoreRequest "u1" Sample.eleven))
    ∧ ranked ≡ₚ Sample.eleven
    ∧ Sorted (byScore scores) ranked
    ∧ ∀ score, filter (λ c, scoreOf scores c = score) ranked
               = filter (λ c, scoreOf scores c = score) Sample.eleven.
Proof.
  intros env scores.
  apply (rankCandidates_ties_keep_order env "u1" Sample.eleven Sample.world ∅).
  - vm_compute. lia.
  - reflexivity.
Defined.

(** ** Mixer: which candidates reach a section *)

Lemma placed_concat batches : placed batches = length (concat batches).
Proof.
  induction batches as [|batch rest IH]; [done|].
  by rewrite placed_cons, concat_cons, length_app, IH.
Qed.

Lemma full10_placed batches :
  Forall full10 batches → placed batches = (10 * length batches)%nat.
Proof.
  induction 1 as [|batch rest Hb _ IH]; [done|].
  rewrite placed_cons, IH. unfold full10 in Hb. simpl length. lia.
Qed.

Lemma placeConstrained_concat item batches batches' :
  placeConstrained item batches = Some batches' →
  concat batches' ≡ₚ concat batches ++ [item].
Proof.
  revert batches'. induction batches as [|batch rest IH]; intros batches' H;
    simpl in H; [done|].
  destruct (bool_decide (length batch < 5)%nat && checkConstraints batch item).
  - injection H as <-. rewrite !concat_cons.
    rewrite <- !app_assoc. apply Permutation_app_head, Permutation_app_comm.
  - destruct (placeConstrained item rest) as [rest'|]; [|done].
    injection H as <-. rewrite !concat_cons, (IH rest' eq_refl).
    by rewrite app_assoc.
Qed.

Lemma placeOverflow_concat item batches :
  ¬ Forall full10 batches → Forall within10 batches →
  concat (placeOverflow item batches) ≡ₚ concat batches ++ [item].
Proof.
  intros Hfree Hw. induction Hw as [|batch rest Hb Hrest IH]; simpl.
  - exfalso. apply Hfree. constructor.
  - destruct (bool_decide (length batch < 10)%nat) eqn:Hlt.
    + rewrite !concat_cons, <- !app_assoc.
      apply Permutation_app_head, Permutation_app_comm.
    + apply bool_decide_eq_false in Hlt.
      rewrite !concat_cons, IH; [by rewrite app_assoc|].
      intros Hfull. apply Hfree. constructor; [|done].
      unfold full10, within10 in *. lia.
Qed.

(** One item: it takes a place when one is free, and is dropped when all
    batches are full. *)
Lemma placeItem_concat batches item :
  Forall within10 batches →
  (placed batches < 10 * length batches)%nat →
  concat (placeItem batches item) ≡ₚ concat batches ++ [item]
  ∧ Forall within10 (placeItem batches item)
  ∧ length (placeItem batches item) = length batches.
Proof.
  intros Hw Hfree.
  assert (¬ Forall full10 batches) as Hnot.
  { intros Hfull. apply full10_placed in Hfull. lia. }
  unfold placeItem.
  destruct (placeConstrained item batches) as [batches'|] eqn:Hc.
  - split; [by apply placeConstrained_concat|].
    apply placeConstrained_Some in Hc as (? & ? & ?). auto.
  - split; [by apply placeOverflow_concat|].
    split; [by apply placeOverflow_within|apply placeOverflow_length].
Qed.

Lemma placeItem_full batches item :
  Forall within10 batches →
  (10 * length batches ≤ placed batches)%nat →
  placeItem batches item = batches.
Proof.
  intros Hw Hfull. apply placed_full_bound in Hfull; [|done].
  unfold placeItem. rewrite (placeConstrained_full item batches Hfull).
  by apply placeOverflow_full.
Qed.

(** A group goes into the free places in its order: the items up to the
    number of free places are placed, the others are dropped. *)
Lemma distributeItems_concat items batches :
  Forall within10 batches →
  concat (distributeItems items batches)
    ≡ₚ concat batches ++ take (10 * length batches - placed batches) items
  ∧ Forall within10 (distributeItems items batches)
  ∧ length (distributeItems items batches) = length batches.
Proof.
  unfold distributeItems. revert batches.
  induction items as [|item items IH]; intros batches Hw; cbn [foldl].
  - by rewrite take_nil, app_nil_r.
  - destruct (decide (placed batches < 10 * length batches)%nat) as [Hfree|Hfull].
    + destruct (placeItem_concat batches item Hw Hfree) as (Hp & Hw' & Hlen).
      destruct (IH _ Hw') as (IHp & IHw & IHlen).
      split; [|split; [done|lia]].
      rewrite IHp, Hp, Hlen, <- app_assoc. apply Permutation_app_head.
      assert (placed (placeItem batches item) = S (placed batches)) as ->.
      { rewrite !placed_concat, Hp, length_app. simpl. lia. }
      assert (10 * length batches - placed batches
              = S (10 * length batches - S (placed batches)))%nat as -> by lia.
      done.
    + rewrite placeItem_full by (done || lia).
      destruct (IH _ Hw) as (IHp & IHw & IHlen).
      split; [|done]. rewrite IHp.
      by replace (10 * length batches - placed batches)%nat with 0%nat by lia.
Qed.

Lemma splitByMedian_Permutation median rankedFeedItems :
  (splitByMedian median rankedFeedItems).2
  ++ (splitByMedian median rankedFeedItems).1 ≡ₚ rankedFeedItems.
Proof.
  rewrite splitByMedian_filter. simpl.
  induction rankedFeedItems as [|x l IH]; [done|].
  destruct (belowMedian (c_wordCount x) median) eqn:Hx.
  - rewrite filter_cons_False, filter_cons_True by (by rewrite ?Hx).
    by rewrite <- Permutation_middle, IH.
  - rewrite filter_cons_True, filter_cons_False by (by rewrite ?Hx).
    simpl. by rewrite IH.
Qed.

Lemma distributedBatches_take rankedFeedItems :
  let groups := splitByMedian (medianWordCount rankedFeedItems) rankedFeedItems in
  concat (distributedBatches rankedFeedItems)
    ≡ₚ take (10 * (length rankedFeedItems / 10)) (groups.2 ++ groups.1).
Proof.
  intros groups. set (k := (length rankedFeedItems / 10)%nat).
  unfold distributedBatches, JS.floor_div. fold groups k.
  assert (Forall within10 (replicate k [])) as Hw0.
  { apply Forall_replicate. unfold within10. simpl. lia. }
  destruct (distributeItems_concat groups.2 (replicate k []) Hw0)
    as (Hp1 & Hw1 & Hlen1).
  destruct (distributeItems_concat groups.1 _ Hw1) as (Hp2 & _ & _).
  assert (concat (replicate k (@nil Candidate)) = []) as Hnil.
  { clear. induction k as [|k IH]; [done|].
    by rewrite replicate_S, concat_cons, IH. }
  rewrite length_replicate, placed_replicate_nil, Hnil, Nat.sub_0_r in Hp1.
  simpl in Hp1.
  assert (placed (distributeItems groups.2 (replicate k []))
          = (10 * k) `min` length groups.2)%nat as Hplaced1.
  { by rewrite placed_concat, Hp1, length_take. }
  rewrite Hlen1, Hplaced1, length_replicate in Hp2.
  rewrite Hp2, Hp1. rewrite take_app.
  apply Permutation_app_head.
  assert (10 * k - (10 * k) `min` length groups.2
          = 10 * k - length groups.2)%nat as -> by lia.
  done.
Qed.

Lemma distributedBatches_submseteq rankedFeedItems :
  concat (distributedBatches rankedFeedItems) ⊆+ rankedFeedItems.
Proof.
  rewrite distributedBatches_take.
  etrans; [apply submseteq_take|].
  by rewrite splitByMedian_Permutation.
Qed.

(** The batches hold the first [10 * floor(N / 10)] candidates of the long
    group followed by the short group; the other [N mod 10] candidates are
    in no batch.  No candidate is invented and none is placed twice; when N
    is a multiple of 10 every candidate is placed. *)
Theorem distributedBatches_places_first rankedFeedItems :
  let groups := splitByMedian (medianWordCount rankedFeedItems) rankedFeedItems in
  let inOrder := groups.2 ++ groups.1 in
  inOrder ≡ₚ rankedFeedItems
  ∧ concat (distributedBatches rankedFeedItems)
      ≡ₚ take (10 * (length rankedFeedItems / 10)) inOrder
  ∧ concat (distributedBatches rankedFeedItems) ⊆+ rankedFeedItems
  ∧ ((length rankedFeedItems `mod` 10 = 0)%nat →
     concat (distributedBatches rankedFeedItems) ≡ₚ rankedFeedItems).
Proof.
  intros groups inOrder.
  assert (inOrder ≡ₚ rankedFeedItems) as Hperm
    by apply splitByMedian_Permutation.
  split; [done|]. split; [apply distributedBatches_take|].
  split; [apply distributedBatches_submseteq|].
  intros Hmod. rewrite distributedBatches_take. fold groups inOrder.
  rewrite take_ge; [done|]. rewrite Hperm.
  pose proof (Nat.div_mod_eq (length rankedFeedItems) 10). lia.
Qed.

(** ** Mixer: the shape of the output *)

Lemma concat_sections_length batches :
  Forall full10 batches →
  length (concat (sectionsOf <$> batches)) = (6 * length batches)%nat.
Proof.
  induction 1 as [|b r Hb _ IH]; [done|].
  rewrite fmap_cons, concat_cons, length_app, IH, sectionsOf_length.
  - simpl. lia.
  - unfold full10 in Hb. lia.
Qed.

Lemma sectionsOf_layout batch :
  (5 ≤ length batch)%nat →
  layout <$> sectionsOf batch
  = ["long"; "long"; "long"; "long"; "long"; "quick links"].
Proof.
  intros Hlen.
  do 5 (destruct batch as [|? batch]; [simpl in Hlen; lia|]). done.
Qed.

Lemma longSections_items (l : list Candidate) :
  concat (items <$> (longSectionOf <$> l)) = itemRef <$> l.
Proof.
  induction l as [|c l IH]; [done|].
  rewrite !fmap_cons, concat_cons, IH. done.
Qed.

Lemma sectionsOf_items batch :
  concat (items <$> sectionsOf batch) = itemRef <$> batch.
Proof.
  unfold sectionsOf. rewrite fmap_app, concat_app, longSections_items.
  rewrite fmap_cons, concat_cons. simpl. rewrite app_nil_r.
  by rewrite <- fmap_app, take_drop.
Qed.

Lemma sections_items (batches : list (list Candidate)) :
  concat (items <$> concat (sectionsOf <$> batches)) = itemRef <$> concat batches.
Proof.
  induction batches as [|b r IH]; [done|].
  rewrite fmap_cons, !concat_cons, !fmap_app, concat_app, IH.
  by rewrite sectionsOf_items.
Qed.

Lemma mixFeedItems_few rankedFeedItems :
  (length rankedFeedItems < 10)%nat → mixFeedItems rankedFeedItems = Returned [].
Proof.
  intros Hlt. rewrite mixFeedItems_Returned.
  destruct (distributedBatches_full rankedFeedItems) as [Hsize _].
  rewrite Nat.div_small in Hsize by done.
  by apply nil_length_inv in Hsize as ->.
Qed.

(** The mixer always returns.  For N candidates it emits [6 * floor(N / 10)]
    sections, five "long" ones then one "quick links" for each batch, so none
    at all for fewer than 10 candidates; read in order, the item references
    of the sections are the identifier and type of each of the batches'
    items, each placed candidate being referenced once. *)
Theorem mixFeedItems_shape rankedFeedItems :
  let k := (length rankedFeedItems / 10)%nat in
  ∃ sections,
    mixFeedItems rankedFeedItems = Returned sections
    ∧ length sections = (6 * k)%nat
    ∧ layout <$> sections
      = concat (replicate k ["long"; "long"; "long"; "long"; "long"; "quick links"])
    ∧ concat (items <$> sections)
      = (λ item, {| item_id := c_id item; item_type := c_type item |})
        <$> concat (distributedBatches rankedFeedItems)
    ∧ ((length rankedFeedItems < 10)%nat → sections = []).
Proof.
  intros k.
  destruct (distributedBatches_full rankedFeedItems) as [Hsize Hfull].
  fold k in Hsize.
  exists (concat (sectionsOf <$> distributedBatches rankedFeedItems)).
  split; [apply mixFeedItems_Returned|].
  split; [by rewrite concat_sections_length, Hsize|].
  split; [|split].
  - rewrite <- Hsize. clear Hsize.
    induction Hfull as [|b r Hb _ IH]; [done|].
    rewrite fmap_cons, concat_cons, fmap_app, IH, sectionsOf_layout.
    + done.
    + unfold full10 in Hb. lia.
  - exact (sections_items _).
  - intros Hlt. apply mixFeedItems_few in Hlt.
    rewrite mixFeedItems_Returned in Hlt. by injection Hlt.
Qed.

(** ** Mixer: the first-fit check *)

(** An item that passes the check against a batch finds no member of its
    title there, so is not itself a member, and it passes the check against
    the batch with any members taken away: what a batch rejects, no larger
    batch accepts. *)
Theorem checkConstraints_smaller_batch batch more item :
  checkConstraints (batch ++ more) item = true →
  checkConstraints batch item = true
  ∧ checkConstraints more item = true
  ∧ (∀ member, member ∈ batch ++ more → c_title member ≠ c_title item)
  ∧ item ∉ batch ++ more.
Proof.
  intros Hc.
  assert (∀ member, member ∈ batch ++ more → c_title member ≠ c_title item)
    as Htitle.
  { intros member Hin Heq. unfold checkConstraints in Hc.
    repeat (apply andb_true_iff in Hc as [Hc ?]).
    apply bool_decide_eq_true in Hc.
    assert (member ∈ filter (sameTitle item) (batch ++ more)) as Hf
      by (by apply list_elem_of_filter).
    destruct (filter (sameTitle item) (batch ++ more)); [|simpl in Hc; lia].
    by apply elem_of_nil in Hf. }
  unfold checkConstraints in *. rewrite !filter_app, !length_app in Hc.
  repeat (apply andb_true_iff in Hc as [Hc ?]).
  repeat match goal with
         | H : bool_decide _ = true |- _ => apply bool_decide_eq_true in H
         end.
  split; [|split; [|split; [done|]]].
  - repeat (apply andb_true_iff; split); apply bool_decide_eq_true; lia.
  - repeat (apply andb_true_iff; split); apply bool_decide_eq_true; lia.
  - intros Hin. by apply (Htitle item Hin).
Qed.

Lemma checkConstraints_smaller_batch_witness :
  let a := Sample.candidate "a" "A" 10 None in
  let b := Sample.candidate "b" "B" 20 None in
  let c := Sample.candidate "c" "C" 30 None in
  checkConstraints [a] c = true
  ∧ checkConstraints [b] c = true
  ∧ (∀ member, member ∈ [a] ++ [b] → c_title member ≠ c_title c)
  ∧ c ∉ [a] ++ [b].
Proof.
  intros a b c. apply (checkConstraints_smaller_batch [a] [b] c). reflexivity.
Defined.

(** ** Feed Store: availability, isolation and retrieval *)

Lemma appendSectionsToFeed_offline env userId sections w :
  redisClient env = false →
  appendSectionsToFeed env userId sections w
  = (Threw "Redis client not available", w).
Proof.
  intros Hclient. unfold appendSectionsToFeed, requireRedis, bind, throw.
  by rewrite Hclient.
Qed.

(** Without a Redis client both operations of the store throw, and nothing
    has happened: no clock reading, no write. *)
Theorem feed_store_unavailable env userId sections limit maxScore w :
  redisClient env = false →
  appendSectionsToFeed env userId sections w
    = (Threw "Redis client not available", w)
  ∧ getJustReadFeedSections env userId limit maxScore w
    = (Threw "Redis client not available", w).
Proof.
  intros Hclient. split; [by apply appendSectionsToFeed_offline|].
  unfold getJustReadFeedSections, requireRedis, bind, throw.
  by rewrite Hclient.
Qed.

Lemma feed_store_unavailable_witness :
  appendSectionsToFeed Fixture.offline "u1" Sample.sections Sample.world
    = (Threw "Redis client not available", Sample.world)
  ∧ getJustReadFeedSections Fixture.offline "u1" 10 (Some 5) Sample.world
    = (Threw "Redis client not available", Sample.world).
Proof.
  apply (feed_store_unavailable Fixture.offline "u1" Sample.sections 10 (Some 5)
           Sample.world).
  reflexivity.
Defined.

Lemma redisKey_inj userId other : redisKey userId = redisKey other → userId = other.
Proof. unfold redisKey. simpl. intros H. by simplify_eq. Qed.

Lemma appendSectionsToFeed_other_key env userId other sections w :
  userId ≠ other →
  feedOf other (appendSectionsToFeed env userId sections w).2 = feedOf other w.
Proof.
  intros Hne. destruct (redisClient env) eqn:Hclient.
  - destruct (appendSectionsToFeed_frame env userId sections w Hclient)
      as (Hother & _).
    apply Hother. intros Heq. by apply Hne, redisKey_inj.
  - by rewrite appendSectionsToFeed_offline.
Qed.

(** An append for one user leaves the feed of every other user as it was,
    also when the users' ids share a prefix: the keys of two users differ. *)
Theorem appendSectionsToFeed_other_users env userId other sections w :
  userId ≠ other →
  redisKey userId ≠ redisKey other
  ∧ feedOf other (appendSectionsToFeed env userId sections w).2 = feedOf other w.
Proof.
  intros Hne. split; [|by apply appendSectionsToFeed_other_key].
  intros Heq. by apply Hne, redisKey_inj.
Qed.

Lemma appendSectionsToFeed_other_users_witness :
  redisKey "u2" ≠ redisKey "u1"
  ∧ feedOf "u1" (appendSectionsToFeed Sample.storeEnv "u2" [Sample.section2]
                   Fixture.fedWorld).2
    = feedOf "u1" Fixture.fedWorld.
Proof.
  apply (appendSectionsToFeed_other_users Sample.storeEnv "u2" "u1").
  discriminate.
Defined.

(** Appending no section, when the store does not reject the pipeline, still
    reads the clock once, trims the feed to its 500 highest entries and
    removes the entries that have expired. *)
Theorem appendSectionsToFeed_nothing env userId w :
  redisClient env = true →
  pipelineRejects env (redisKey userId) = None →
  ∃ w',
    appendSectionsToFeed env userId [] w = (Returned tt, w')
    ∧ feedOf userId w'
      = filter (λ e, Date_now env (ticks w) < e.1)
          (drop (length (feedOf userId w) - 500) (feedOf userId w))
    ∧ ticks w' = S (ticks w).
Proof.
  intros Hclient Hexec.
  destruct (appendSectionsToFeed_spec env userId [] w Hclient Hexec)
    as (Hret & Hfeed & _ & Hticks & _).
  destruct (appendSectionsToFeed env userId [] w) as [result w'].
  simpl in *. subst result. exists w'. split; [done|].
  rewrite Nat.add_0_r in Hfeed, Hticks. done.
Qed.

Lemma appendSectionsToFeed_nothing_witness :
  ∃ w',
    appendSectionsToFeed Sample.storeEnv "u1" [] Fixture.fedWorld = (Returned tt, w')
    ∧ feedOf "u1" w'
      = filter (λ e, Date_now Sample.storeEnv (ticks Fixture.fedWorld) < e.1)
          (drop (length (feedOf "u1" Fixture.fedWorld) - 500)
                (feedOf "u1" Fixture.fedWorld))
    ∧ ticks w' = S (ticks Fixture.fedWorld).
Proof.
  apply (appendSectionsToFeed_nothing Sample.storeEnv "u1" Fixture.fedWorld).
  - reflexivity.
  - reflexivity.
Defined.

(** What a retrieval returns, for a limit that is not negative. *)
Lemma getJustReadFeedSections_run env userId limit maxScore w :
  redisClient env = true →
  0 ≤ limit →
  getJustReadFeedSections env userId limit maxScore w
  = (Returned
       (decoded env <$>
        take (Z.to_nat limit)
             (reverse (filter (λ e, passesCeiling maxScore e.1 = true)
                              (feedOf userId w)))), w).
Proof.
  intros Hclient Hlimit.
  unfold getJustReadFeedSections, requireRedis, bind, ret. rewrite Hclient.
  f_equal. f_equal. unfold Redis.zrevrangebyscore.
  rewrite drop_0, (proj2 (Z.ltb_ge _ _)) by lia.
  rewrite <- list_fmap_compose. unfold feedOf. f_equal. f_equal. f_equal.
  apply list_filter_iff. intros e. simpl. unfold passesCeiling.
  destruct maxScore as [m|]; [|done].
  destruct (Z.eqb_spec m 0) as [->|Hm]; simpl.
  - done.
  - rewrite Z.leb_le, Z.ltb_lt. split; [intros [_ H]; lia|].
    intros ?. split; [done|lia].
Qed.

Lemma StronglySorted_weaken {A} (R R' : relation A) (l : list A) :
  (∀ a b, R a b → R' a b) → StronglySorted R l → StronglySorted R' l.
Proof.
  intros HR. induction 1 as [|x l Hl IH Hx]; constructor; [done|].
  eapply Forall_impl; [exact Hx|]. intros y. apply HR.
Qed.

Lemma StronglySorted_take {A} (R : relation A) n (l : list A) :
  StronglySorted R l → StronglySorted R (take n l).
Proof.
  intros Hl. rewrite <- (take_drop n l) in Hl.
  by apply StronglySorted_app in Hl as (_ & Hl & _).
Qed.

Lemma StronglySorted_reverse {A} (R : relation A) (l : list A) :
  StronglySorted R l → StronglySorted (flip R) (reverse l).
Proof.
  induction 1 as [|x l Hl IH Hx]; [constructor|].
  rewrite reverse_cons. apply StronglySorted_app. split; [|split].
  - intros x1 x2 Hx1 Hx2. apply list_elem_of_singleton in Hx2 as ->.
    rewrite elem_of_reverse in Hx1. rewrite Forall_forall in Hx. by apply Hx.
  - done.
  - repeat constructor.
Qed.

(** With a score ceiling other than 0 and a limit that is not negative, a
    retrieval returns entries of the feed with a rank-score strictly below
    the ceiling, no more than the limit, the highest first, and changes
    nothing. *)
Theorem getJustReadFeedSections_below_ceiling env userId limit ceiling w :
  redisClient env = true →
  0 ≤ limit →
  ceiling ≠ 0 →
  StronglySorted entry_le (feedOf userId w) →
  ∃ entries,
    getJustReadFeedSections env userId limit (Some ceiling) w
      = (Returned entries, w)
    ∧ entries
      = decoded env <$>
        take (Z.to_nat limit)
             (reverse (filter (λ e, e.1 < ceiling) (feedOf userId w)))
    ∧ Z.of_nat (length entries) ≤ limit
    ∧ Forall (λ entry, entry.2 < ceiling) entries
    ∧ StronglySorted (λ a b, b.2 ≤ a.2) entries.
Proof.
  intros Hclient Hlimit Hceiling Hsorted.
  eexists. split; [by apply getJustReadFeedSections_run|].
  assert (filter (λ e : Z * string, passesCeiling (Some ceiling) e.1 = true)
                 (feedOf userId w)
          = filter (λ e, e.1 < ceiling) (feedOf userId w)) as ->.
  { apply list_filter_iff. intros e. simpl.
    rewrite (proj2 (Z.eqb_neq _ _)) by done. simpl. apply Z.ltb_lt. }
  split; [done|].
  set (below := filter (λ e, e.1 < ceiling) (feedOf userId w)).
  split; [|split].
  - rewrite length_fmap, length_take. lia.
  - apply Forall_fmap. apply Forall_take.
    apply Forall_forall. intros e He. rewrite elem_of_reverse in He.
    unfold below in He. by apply list_elem_of_filter in He as [? _].
  - apply (StronglySorted_fmap _ (λ a b : Z * string, b.1 ≤ a.1)
             (λ a b : FeedSection * Z, b.2 ≤ a.2)); [done|].
    apply StronglySorted_take.
    apply (StronglySorted_reverse (λ a b : Z * string, a.1 ≤ b.1)).
    apply StronglySorted_filter.
    eapply StronglySorted_weaken; [|exact Hsorted].
    intros a b. apply entry_le_score.
Qed.

Lemma getJustReadFeedSections_below_ceiling_witness :
  ∃ entries,
    getJustReadFeedSections Sample.storeEnv "u1" 2 (Some 1700086400004)
      Fixture.fedWorld = (Returned entries, Fixture.fedWorld)
    ∧ entries
      = decoded Sample.storeEnv <$>
        take (Z.to_nat 2)
             (reverse (filter (λ e, e.1 < 1700086400004)
                              (feedOf "u1" Fixture.fedWorld)))
    ∧ Z.of_nat (length entries) ≤ 2
    ∧ Forall (λ entry, entry.2 < 1700086400004) entries
    ∧ StronglySorted (λ a b, b.2 ≤ a.2) entries.
Proof.
  apply (getJustReadFeedSections_below_ceiling Sample.storeEnv "u1" 2
           1700086400004 Fixture.fedWorld).
  - reflexivity.
  - lia.
  - lia.
  - apply (bool_decide_unpack _). by vm_compute.
Defined.

(** A score ceiling of 0 is not a ceiling: the retrieval is the one made
    without any. *)
Lemma getJustReadFeedSections_zero_ceiling env userId limit w :
  getJustReadFeedSections env userId limit (Some 0) w
  = getJustReadFeedSections env userId limit None w.
Proof. reflexivity. Qed.

(** *** Pages *)

(** In a list of strictly descending rank-scores, the entries below the
    score of an entry are the ones after it. *)
Lemma filter_below_descending (earlier later : list (Z * string)) e :
  StronglySorted (λ a b : Z * string, b.1 < a.1) (earlier ++ e :: later) →
  filter (λ x, x.1 < e.1) (earlier ++ e :: later) = later.
Proof.
  intros Hs. apply StronglySorted_app in Hs as (Hcross & _ & Hs).
  apply StronglySorted_cons in Hs as [Hlater _].
  rewrite filter_app, filter_cons_False by lia.
  rewrite filter_none, filter_all; [done| |].
  - done.
  - apply Forall_forall. intros x Hx.
    specialize (Hcross x e Hx ltac:(by left)). simpl in Hcross. lia.
Qed.

(** Paging with the rank-score of the last entry as the next ceiling: when
    the rank-scores of the feed are pairwise different, a page of at most
    [n] entries followed by the page of at most [m] entries below the score
    of its last entry is the page of at most [n + m] entries.  The score of
    that last entry must not be 0, which would be no ceiling. *)
Theorem getJustReadFeedSections_pages env userId n m w page last :
  redisClient env = true →
  0 ≤ n →
  0 ≤ m →
  StronglySorted (λ a b : Z * string, a.1 < b.1) (feedOf userId w) →
  getJustReadFeedSections env userId n None w = (Returned (page ++ [last]), w) →
  last.2 ≠ 0 →
  ∃ next,
    getJustReadFeedSections env userId m (Some last.2) w = (Returned next, w)
    ∧ getJustReadFeedSections env userId (n + m) None w
      = (Returned (page ++ [last] ++ next), w).
Proof.
  intros Hclient Hn Hm Hsorted Hpage Hlast.
  rewrite getJustReadFeedSections_run in Hpage by done.
  rewrite !getJustReadFeedSections_run by (done || lia).
  rewrite filter_all in Hpage by (apply Forall_true; done).
  rewrite (filter_all (λ e, passesCeiling None e.1 = true))
    by (apply Forall_true; done).
  injection Hpage as Hpage.
  set (feed := feedOf userId w) in *.
  assert (StronglySorted (λ a b : Z * string, b.1 < a.1) (reverse feed)) as Hdesc
    by (by apply (StronglySorted_reverse (λ a b : Z * string, a.1 < b.1))).
  destruct (take (Z.to_nat n) (reverse feed)) as [|e t _] eqn:Htake using rev_ind.
  { destruct page; discriminate. }
  rewrite fmap_app in Hpage. apply app_inj_tail in Hpage as [Hpage' Hlast'].
  assert (e.1 = last.2) as He by (by rewrite <- Hlast').
  assert (filter (λ x : Z * string, passesCeiling (Some last.2) x.1 = true) feed
          = reverse (drop (Z.to_nat n) (reverse feed))) as Hfilter.
  { rewrite <- (reverse_involutive (filter _ feed)). f_equal.
    rewrite <- filter_reverse.
    rewrite <- (take_drop (Z.to_nat n) (reverse feed)) at 1.
    rewrite <- (take_drop (Z.to_nat n) (reverse feed)) in Hdesc.
    rewrite Htake, <- app_assoc in *. simpl in *.
    rewrite <- (filter_below_descending t (drop (Z.to_nat n) (reverse feed)) e Hdesc)
      at 2.
    apply list_filter_iff. intros x. simpl.
    rewrite (proj2 (Z.eqb_neq _ _)) by done. simpl. rewrite Z.ltb_lt. lia. }
  eexists. split; [reflexivity|].
  rewrite Hfilter, reverse_involutive. f_equal. f_equal.
  rewrite Z2Nat.inj_add by lia.
  rewrite <- take_take_drop, fmap_app, Htake, fmap_app.
  rewrite <- Hpage', <- Hlast'. by rewrite <- app_assoc.
Qed.

Lemma getJustReadFeedSections_pages_witness :
  let env := Sample.storeEnv in
  let w := Fixture.fedWorld in
  let page := [(Sample.section3, 1700086400004)] in
  let last := (Sample.section2, 1700086400002) in
  ∃ next,
    getJustReadFeedSections env "u1" 1 (Some last.2) w = (Returned next, w)
    ∧ getJustReadFeedSections env "u1" (2 + 1) None w
      = (Returned (page ++ [last] ++ next), w).
Proof.
  intros env w page last.
  apply (getJustReadFeedSections_pages env "u1" 2 1 w page last).
  - reflexivity.
  - lia.
  - lia.
  - apply (bool_decide_unpack _). by vm_compute.
  - by vm_compute.
  - simpl. lia.
Defined.

(** ** Feed Store: one entry per section *)

(** An append that the store does not reject keeps the feed a sorted set
    with one entry per member, and a section of the append that is in the
    feed afterwards is there with the rank-score of this append only:
    appending a section again moves its entry instead of adding one.  The
    sections of the append are taken to have different encodings. *)
Theorem appendSectionsToFeed_replaces env userId sections w :
  redisClient env = true →
  pipelineRejects env (redisKey userId) = None →
  wellFormed (feedOf userId w) →
  NoDup (JSON_stringify env <$> sections) →
  let feed' := feedOf userId (appendSectionsToFeed env userId sections w).2 in
  wellFormed feed'
  ∧ ∀ i section score,
      sections !! i = Some section →
      (score, JSON_stringify env section) ∈ feed' →
      score = rankScore env w i.
Proof.
  intros Hclient Hexec Hwf Hnd feed'.
  destruct (appendSectionsToFeed_spec env userId sections w Hclient Hexec)
    as (_ & Hfeed & _).
  fold feed' in Hfeed. fold (scoreMembersOf env w sections) in Hfeed.
  set (inserted := Redis.zadd (scoreMembersOf env w sections) (feedOf userId w))
    in Hfeed.
  assert (wellFormed inserted) as [Hs Hmembers] by (by apply zadd_wellFormed).
  assert (feed' `sublist_of` inserted) as Hsub.
  { rewrite Hfeed. etrans; [apply sublist_filter|apply sublist_drop]. }
  split.
  - split.
    + rewrite Hfeed. by apply StronglySorted_filter, StronglySorted_drop.
    + apply (sublist_NoDup _ inserted.*2); [done|by apply fmap_sublist].
  - intros i section score Hi Hin.
    assert ((score, JSON_stringify env section) ∈ inserted) as Hin'.
    { apply sublist_subseteq in Hsub. by apply Hsub. }
    assert (scoreMembersOf env w sections !! i
            = Some (rankScore env w i, JSON_stringify env section)) as Hpair.
    { unfold scoreMembersOf. by rewrite list_lookup_imap, Hi. }
    apply zadd_elem_of in Hin' as [Hnew|[_ Hold]].
    + apply list_elem_of_lookup in Hnew as [j Hj].
      assert (j = i) as ->.
      { eapply NoDup_lookup; [exact Hnd| |].
        - rewrite list_lookup_fmap.
          unfold scoreMembersOf in Hj. rewrite list_lookup_imap in Hj.
          destruct (sections !! j) as [s'|]; [|done].
          injection Hj as _ Hs'. simpl. by rewrite Hs'.
        - by rewrite list_lookup_fmap, Hi. }
      rewrite Hpair in Hj. by injection Hj as ->.
    + exfalso. apply Hold. simpl.
      apply list_elem_of_fmap. eexists. split; [|by eapply list_elem_of_lookup_2].
      done.
Qed.

Lemma appendSectionsToFeed_replaces_witness :
  let env := Sample.storeEnv in
  let w := Fixture.fedWorld in
  let feed' := feedOf "u1" (appendSectionsToFeed env "u1" Sample.sections w).2 in
  wellFormed feed'
  ∧ ∀ i section score,
      Sample.sections !! i = Some section →
      (score, JSON_stringify env section) ∈ feed' →
      score = rankScore env w i.
Proof.
  intros env w.
  apply (appendSectionsToFeed_replaces env "u1" Sample.sections w).
  - reflexivity.
  - reflexivity.
  - apply (bool_decide_unpack _). by vm_compute.
  - apply (bool_decide_unpack _). by vm_compute.
Defined.

(** The three sample sections appended twice: three entries, with the
    rank-scores of the second append. *)
Example reappended_sections :
  length (feedOf "u1" Fixture.fedWorld) = 3%nat
  ∧ (feedOf "u1" (appendSectionsToFeed Sample.storeEnv "u1" Sample.sections
                    Fixture.fedWorld).2).*1
    = [1700086400004; 1700086400006; 1700086400008].
Proof. split; by vm_compute. Qed.

(** ** Mixer: no section twice *)

Lemma elem_of_concat_intro {A} (x : A) l (ls : list (list A)) :
  x ∈ l → l ∈ ls → x ∈ concat ls.
Proof.
  intros Hx Hl. induction ls as [|l' ls IH]; [by apply elem_of_nil in Hl|].
  rewrite concat_cons. apply elem_of_app.
  apply elem_of_cons in Hl as [->|Hl]; [by left|right; by apply IH].
Qed.

Lemma NoDup_concat_nonempty {A} (ls : list (list A)) :
  NoDup (concat ls) → Forall (λ l, l ≠ []) ls → NoDup ls.
Proof.
  intros Hnd Hne. induction Hne as [|l ls Hl _ IH]; [constructor|].
  rewrite concat_cons in Hnd. apply NoDup_app in Hnd as (_ & Hdisj & Hrest).
  apply NoDup_cons. split; [|by apply IH].
  intros Hin. destruct l as [|a l]; [done|].
  apply (Hdisj a); [by left|].
  apply (elem_of_concat_intro a (a :: l)); [by left|done].
Qed.

Lemma submseteq_NoDup {A} (l k : list A) : l ⊆+ k → NoDup k → NoDup l.
Proof.
  intros Hsub Hnd. apply submseteq_Permutation in Hsub as [k' Hk].
  rewrite Hk in Hnd. by apply NoDup_app in Hnd as (? & _ & _).
Qed.

(** When the candidates differ in their item reference (id and type), no
    item is referenced twice in the sections and no two sections of the
    output are the same. *)
Theorem mixFeedItems_sections_distinct rankedFeedItems :
  NoDup (itemRef <$> rankedFeedItems) →
  ∃ sections,
    mixFeedItems rankedFeedItems = Returned sections
    ∧ NoDup (concat (items <$> sections))
    ∧ NoDup sections.
Proof.
  intros Hnd. eexists. split; [apply mixFeedItems_Returned|].
  assert (NoDup (concat (items <$> concat (sectionsOf <$>
                   distributedBatches rankedFeedItems)))) as Hrefs.
  { rewrite sections_items.
    apply (submseteq_NoDup _ (itemRef <$> rankedFeedItems)); [|done].
    apply fmap_submseteq, distributedBatches_submseteq. }
  split; [done|].
  apply (NoDup_fmap_1 items), NoDup_concat_nonempty; [done|].
  destruct (distributedBatches_full rankedFeedItems) as [_ Hfull].
  clear -Hfull. induction Hfull as [|b r Hb _ IH]; [constructor|].
  rewrite fmap_cons, concat_cons, fmap_app. apply Forall_app. split; [|done].
  unfold full10 in Hb.
  do 6 (destruct b as [|? b]; [simpl in Hb; lia|]).
  repeat constructor; discriminate.
Qed.

Lemma mixFeedItems_sections_distinct_witness :
  ∃ sections,
    mixFeedItems Sample.eleven = Returned sections
    ∧ NoDup (concat (items <$> sections))
    ∧ NoDup sections.
Proof.
  apply (mixFeedItems_sections_distinct Sample.eleven).
  apply (bool_decide_unpack _). by vm_compute.
Defined.

(** ** The job: what it leaves behind *)

Lemma rankCandidates_world env userId candidates w :
  let w' := (rankCandidates env userId candidates w).2 in
  redis w' = redis w ∧ ticks w' = ticks w
  ∧ (scoreCalls w' = scoreCalls w
     ∨ scoreCalls w' = scoreCalls w ++ [scoreRequest userId candidates]).
Proof.
  unfold rankCandidates. case_bool_decide; simpl; [by repeat split; try left|].
  unfold bind, callGetScores, ret. fold (scoreRequest userId candidates).
  destruct (getScores env _); simpl; repeat split; by right.
Qed.

(** When the user does not exist or is not active the job returns normally,
    and when the lookup of the user fails the job fails with its error; in
    both cases nothing else has happened. *)
Theorem updateJustReadFeed_no_user env data w :
  (findActiveUser env (userId data) = Returned None →
   updateJustReadFeed env data w = (Returned tt, w))
  ∧ (∀ msg, findActiveUser env (userId data) = Threw msg →
            updateJustReadFeed env data w = (Threw msg, w)).
Proof.
  split; [intros Huser|intros msg Huser];
    unfold updateJustReadFeed, bind, await; by rewrite Huser.
Qed.

(** A job that fails has written nothing to the store and has not read the
    clock, unless its failure is the store's rejection of the pipeline: that
    one comes with a client, after the clock was read once per section and
    once more, and it may leave the first queued commands applied. *)
Theorem updateJustReadFeed_failure_cases env data w msg :
  (updateJustReadFeed env data w).1 = Threw msg →
  let w' := (updateJustReadFeed env data w).2 in
  (redis w' = redis w ∧ ticks w' = ticks w)
  ∨ (redisClient env = true
     ∧ (∃ ran, pipelineRejects env (redisKey (userId data)) = Some (ran, msg))
     ∧ (ticks w < ticks w')%nat).
Proof.
  cbv zeta. unfold updateJustReadFeed, bind, await.
  destruct (findActiveUser env (userId data)) as [[user|]|msg0];
    [|by left..].
  pose proof (selectCandidates_world env user w) as Hsel.
  destruct (selectCandidates env user w) as [[candidates|msg1] w1];
    simpl in Hsel; subst w1; [|by left].
  pose proof (rankCandidates_world env (userId data) candidates w)
    as (Hredis & Hticks & _).
  destruct (rankCandidates env (userId data) candidates w)
    as [[ranked|msg2] w2]; simpl in Hredis, Hticks; [|by left].
  case_bool_decide; [done|].
  rewrite mixFeedItems_Returned.
  destruct (redisClient env) eqn:Hclient.
  - rewrite appendSectionsToFeed_exec by done. unfold execPipeline.
    destruct (pipelineRejects env (redisKey (userId data))) as [[ran msg']|];
      simpl; [|done].
    intros [= ->]. right. split; [done|]. split; [by exists ran|lia].
  - rewrite appendSectionsToFeed_offline by done. by left.
Qed.

Lemma updateJustReadFeed_failure_cases_witness :
  let env := Fixture.connectionLost in
  let data := {| userId := "u1" |} in
  let w' := (updateJustReadFeed env data Fixture.fedWorld).2 in
  (redis w' = redis Fixture.fedWorld ∧ ticks w' = ticks Fixture.fedWorld)
  ∨ (redisClient env = true
     ∧ (∃ ran, pipelineRejects env (redisKey (userId data))
               = Some (ran, "Connection is closed."))
     ∧ (ticks Fixture.fedWorld < ticks w')%nat).
Proof.
  intros env data.
  apply (updateJustReadFeed_failure_cases env data Fixture.fedWorld
           "Connection is closed.").
  by vm_compute.
Defined.

(** The two kinds of failure on the sample feed of three entries: a scoring
    service that is down leaves the world as it was; a connection lost after
    the first command of the pipeline leaves the 6 new sections inserted,
    after 7 clock readings. *)
Example updateJustReadFeed_failures :
  let data := {| userId := "u1" |} in
  updateJustReadFeed (Fixture.scoringDown 11) data Fixture.fedWorld
  = (Threw "scoring service unavailable",
     afterScoreCall Fixture.fedWorld
       (scoreRequest "u1" (JS.slice0 70
          ((λ item, libraryItemToCandidate (Fixture.scoringDown 11) item [])
           <$> (Sample.libraryItem <$> seq 0 11)))))
  ∧ (updateJustReadFeed Fixture.connectionLost data Fixture.fedWorld).1
    = Threw "Connection is closed."
  ∧ length (feedOf "u1" Fixture.fedWorld) = 3%nat
  ∧ length (feedOf "u1" (updateJustReadFeed Fixture.connectionLost data
                          Fixture.fedWorld).2) = 9%nat
  ∧ ticks (updateJustReadFeed Fixture.connectionLost data Fixture.fedWorld).2
    = (ticks Fixture.fedWorld + 7)%nat.
Proof. repeat split; by vm_compute. Qed.

(** With 1 to 9 candidates, a Redis client and a store that does not reject
    the pipeline, the job returns normally without asking for scores and
    without storing any section, the candidates being in no batch; its
    append still trims the feed and removes the expired entries, at the one
    clock reading it takes. *)
Theorem updateJustReadFeed_few_candidates env data w user candidates :
  redisClient env = true →
  pipelineRejects env (redisKey (userId data)) = None →
  findActiveUser env (userId data) = Returned (Some user) →
  selectCandidates env user w = (Returned candidates, w) →
  (0 < length candidates < 10)%nat →
  ∃ w',
    updateJustReadFeed env data w = (Returned tt, w')
    ∧ scoreCalls w' = scoreCalls w
    ∧ ticks w' = S (ticks w)
    ∧ feedOf (userId data) w'
      = filter (λ e, Date_now env (ticks w) < e.1)
          (drop (length (feedOf (userId data) w) - 500) (feedOf (userId data) w)).
Proof.
  intros Hclient Hexec Huser Hselect Hlen.
  assert (mixFeedItems candidates = Returned []) as Hmix.
  { apply mixFeedItems_few. lia. }
  destruct (appendSectionsToFeed_spec env (userId data) [] w Hclient Hexec)
    as (Hret & Hfeed & _ & Hticks & Hcalls).
  destruct (appendSectionsToFeed env (userId data) [] w) as [result w'] eqn:Happend.
  simpl in Hret, Hfeed, Hticks, Hcalls. subst result.
  exists w'. split; [|split; [done|split]].
  - unfold updateJustReadFeed, bind, await. rewrite Huser, Hselect.
    unfold rankCandidates, ret. rewrite bool_decide_eq_true_2 by lia.
    rewrite bool_decide_eq_false_2 by (destruct candidates; simpl in *; [lia|done]).
    by rewrite Hmix, Happend.
  - rewrite Hticks. simpl. lia.
  - rewrite Hfeed. simpl. by rewrite Nat.add_0_r.
Qed.

Lemma updateJustReadFeed_few_candidates_witness :
  let env := Sample.envWith 3 2 ∅ 1700000000000 [] in
  let data := {| userId := "u1" |} in
  let w := Sample.world in
  ∃ w',
    updateJustReadFeed env data w = (Returned tt, w')
    ∧ scoreCalls w' = scoreCalls w
    ∧ ticks w' = S (ticks w)
    ∧ feedOf (userId data) w'
      = filter (λ e, Date_now env (ticks w) < e.1)
          (drop (length (feedOf (userId data) w) - 500) (feedOf (userId data) w)).
Proof.
  intros env data w.
  destruct (selectCandidates env {| user_id := "u1" |} w) as [result w1] eqn:Hsel.
  assert (∃ candidates, result = Returned candidates ∧ w1 = w
                        ∧ (0 < length candidates < 10)%nat)
    as (candidates & -> & -> & Hlen).
  { revert Hsel. vm_compute. intros [= <- <-]. eexists.
    split; [reflexivity|]. split; [reflexivity|]. simpl. lia. }
  apply (updateJustReadFeed_few_candidates env data w {| user_id := "u1" |}
           candidates); [reflexivity|reflexivity|reflexivity|exact Hsel|exact Hlen].
Defined.

(** Whatever its outcome, the job leaves the feeds of the other users as
    they were and sends at most one request to the scoring service. *)
Theorem updateJustReadFeed_other_users env data w other :
  other ≠ userId data →
  let w' := (updateJustReadFeed env data w).2 in
  feedOf other w' = feedOf other w
  ∧ (scoreCalls w' = scoreCalls w ∨ ∃ request, scoreCalls w' = scoreCalls w ++ [request]).
Proof.
  intros Hother. cbv zeta.
  unfold updateJustReadFeed, bind, await.
  destruct (findActiveUser env (userId data)) as [[user|]|msg0];
    [|by split; [|left]..].
  pose proof (selectCandidates_world env user w) as Hsel.
  destruct (selectCandidates env user w) as [[candidates|msg1] w1];
    simpl in Hsel; subst w1; [|by split; [|left]].
  pose proof (rankCandidates_world env (userId data) candidates w)
    as (Hredis & _ & Hcalls).
  destruct (rankCandidates env (userId data) candidates w)
    as [[ranked|msg2] w2]; simpl in Hredis, Hcalls.
  2:{ simpl. unfold feedOf. rewrite Hredis. split; [done|].
      destruct Hcalls as [->| ->]; [by left|right; by eexists]. }
  assert (feedOf other w2 = feedOf other w) as Hfeed2
    by (unfold feedOf; by rewrite Hredis).
  assert (scoreCalls w2 = scoreCalls w
          ∨ ∃ request, scoreCalls w2 = scoreCalls w ++ [request]) as Hcalls2.
  { destruct Hcalls as [->| ->]; [by left|right; by eexists]. }
  case_bool_decide; [done|].
  rewrite mixFeedItems_Returned.
  set (sections := concat (sectionsOf <$> distributedBatches ranked)).
  pose proof (appendSectionsToFeed_other_key env (userId data) other sections w2)
    as Hfeed.
  destruct (redisClient env) eqn:Hclient.
  - destruct (appendSectionsToFeed_frame env (userId data) sections w2 Hclient)
      as (_ & _ & Hsame).
    destruct (appendSectionsToFeed env (userId data) sections w2) as [result w3].
    simpl in *. rewrite Hfeed by done. rewrite Hsame.
    by destruct result.
  - by rewrite appendSectionsToFeed_offline.
Qed.

Lemma updateJustReadFeed_other_users_witness :
  let env := Sample.envWith 8 4 Sample.answer 1700000000000 [] in
  let data := {| userId := "u2" |} in
  let w' := (updateJustReadFeed env data Fixture.fedWorld).2 in
  feedOf "u1" w' = feedOf "u1" Fixture.fedWorld
  ∧ (scoreCalls w' = scoreCalls Fixture.fedWorld
     ∨ ∃ request, scoreCalls w' = scoreCalls Fixture.fedWorld ++ [request]).
Proof.
  intros env data.
  apply (updateJustReadFeed_other_users env data Fixture.fedWorld "u1").
  discriminate.
Defined.

(** Once the user is found, the candidates are selected and ranked and some
    are left, the rest of the job is the append of the mixer's sections for
    the ranked list, the mixer never throwing.  With a client and a store
    that does not reject the pipeline, the job returns normally after one
    clock reading per section and one for the expiry, that is
    [6 * floor(N / 10) + 1] readings. *)
Theorem updateJustReadFeed_writes_sections env data w user candidates ranked w2 :
  redisClient env = true →
  pipelineRejects env (redisKey (userId data)) = None →
  findActiveUser env (userId data) = Returned (Some user) →
  selectCandidates env user w = (Returned candidates, w) →
  rankCandidates env (userId data) candidates w = (Returned ranked, w2) →
  ranked ≠ [] →
  ∃ sections w',
    mixFeedItems ranked = Returned sections
    ∧ updateJustReadFeed env data w = (Returned tt, w')
    ∧ appendSectionsToFeed env (userId data) sections w2 = (Returned tt, w')
    ∧ ticks w' = (ticks w + 6 * (length ranked / 10) + 1)%nat
    ∧ length ranked = length candidates.
Proof.
  intros Hclient Hexec Huser Hselect Hrank Hne.
  pose proof (rankCandidates_world env (userId data) candidates w)
    as (_ & Hticks2 & _).
  rewrite Hrank in Hticks2. simpl in Hticks2.
  set (sections := concat (sectionsOf <$> distributedBatches ranked)).
  destruct (appendSectionsToFeed_spec env (userId data) sections w2 Hclient Hexec)
    as (Hret & _ & _ & Hticks & _).
  destruct (appendSectionsToFeed env (userId data) sections w2)
    as [result w'] eqn:Happend.
  simpl in Hret, Hticks. subst result.
  exists sections, w'. split; [apply mixFeedItems_Returned|].
  split; [|split; [done|split]].
  - unfold updateJustReadFeed, bind, await. rewrite Huser, Hselect, Hrank.
    rewrite bool_decide_eq_false_2 by (by destruct ranked).
    rewrite mixFeedItems_Returned. fold sections. by rewrite Happend.
  - rewrite Hticks, Hticks2. unfold sections.
    destruct (distributedBatches_full ranked) as [Hsize Hfull].
    rewrite concat_sections_length, Hsize by done. lia.
  - revert Hrank. unfold rankCandidates. case_bool_decide.
    + by intros [= -> _].
    + unfold bind, callGetScores, ret. destruct (getScores env _); [|done].
      intros [= <- _]. apply sort_length.
Qed.

Lemma updateJustReadFeed_writes_sections_witness :
  let env := Sample.envWith 8 4 Sample.answer 1700000000000 [] in
  let data := {| userId := "u1" |} in
  let w := Sample.world in
  ∃ ranked w2 sections w',
    mixFeedItems ranked = Returned sections
    ∧ updateJustReadFeed env data w = (Returned tt, w')
    ∧ appendSectionsToFeed env (userId data) sections w2 = (Returned tt, w')
    ∧ ticks w' = (ticks w + 6 * (length ranked / 10) + 1)%nat
    ∧ length ranked = 12%nat.
Proof.
  intros env data w.
  destruct (selectCandidates env {| user_id := "u1" |} w) as [selected w1] eqn:Hsel.
  assert (∃ candidates, selected = Returned candidates ∧ w1 = w
                        ∧ length candidates = 12%nat)
    as (candidates & -> & -> & Hlen).
  { revert Hsel. vm_compute. intros [= <- <-]. by eexists. }
  destruct (rankCandidates env "u1" candidates w) as [outcome w2] eqn:Hrank.
  assert (∃ ranked, outcome = Returned ranked ∧ ranked ≠ [])
    as (ranked & -> & Hne).
  { revert Hrank. unfold rankCandidates.
    rewrite bool_decide_eq_false_2 by lia.
    unfold bind, callGetScores, ret. simpl. intros [= <- _]. eexists.
    split; [reflexivity|]. intros Hnil. apply (f_equal length) in Hnil.
    rewrite sort_length in Hnil. simpl in Hnil. lia. }
  destruct (updateJustReadFeed_writes_sections env data w {| user_id := "u1" |}
              candidates ranked w2 eq_refl eq_refl eq_refl Hsel Hrank Hne)
    as (sections & w' & Hmix & Hjob & Happend & Hticks & Hlength).
  exists ranked, w2, sections, w'. rewrite Hlen in Hlength.
  exact (conj Hmix (conj Hjob (conj Happend (conj Hticks Hlength)))).
Defined.
